(** * qdoc's QML documentation visitor (qmlvisitor.cpp)

    A shallow embedding of [QmlDocVisitor] and [QmlSignatureParser] and
    the properties of the comment locator, the signature parser, the
    metacommand interpreter, the documentation binder and the traversal
    that the design document states about them. *)

From Stdlib Require Import ZArith Ascii String List Bool Lia.
From stdpp Require Import base option gmap strings list.

Local Open Scope string_scope.
Local Open Scope Z_scope.

(** ** Machine integers and Qt strings *)

(** [quint32] arithmetic wraps around modulo 2^32. *)
Definition quint32_mod : Z := 2 ^ 32.
Definition wrap32 (z : Z) : Z := z mod quint32_mod.

(** [QString::at]: defined only for an index inside the string; anywhere
    else the access is out of bounds ([None]). *)
Definition at_ (s : string) (i : Z) : option ascii :=
  if (i <? 0)%Z then None else String.get (Z.to_nat i) s.

(** [QString::mid(position, n)] for a position and a count that are not
    negative: the count is clipped to what is left of the string, and a
    position past the end gives the empty string. *)
Definition mid (s : string) (position n : Z) : string :=
  String.substring (Z.to_nat position) (Z.to_nat n) s.

Definition isEmpty (s : string) : bool :=
  match s with EmptyString => true | _ => false end.

(** [QString::startsWith(QChar)]. *)
Definition startsWithChar (s : string) (c : ascii) : bool :=
  match s with
  | String a _ => Ascii.eqb a c
  | EmptyString => false
  end.

(** [QString::endsWith(QLatin1String)]. *)
Definition endsWith (s suffix : string) : bool :=
  let n := String.length s in
  let k := String.length suffix in
  (k <=? n)%nat && String.eqb (String.substring (n - k) k s) suffix.

(** [QString::contains(QLatin1String)]. *)
Definition contains (s sub : string) : bool :=
  match String.index 0 sub s with Some _ => true | None => false end.

(** [QString::indexOf(QChar)]: the first position of the character, or
    -1. *)
Fixpoint indexOf_from (s : string) (c : ascii) (i : Z) : Z :=
  match s with
  | EmptyString => -1
  | String a r => if Ascii.eqb a c then i else indexOf_from r c (i + 1)
  end.
Definition indexOf (s : string) (c : ascii) : Z := indexOf_from s c 0.

(** ** Source locations of the QML lexer *)

(** [QQmlJS::SourceLocation] of Qt's QML parser: four [quint32]
    fields. *)
Record SourceLocation := mkSourceLocation {
  offset : Z;
  length_ : Z;
  startLine : Z;
  startColumn : Z
}.

(** The default-constructed location, which the locator returns when
    it finds nothing. *)
Definition SourceLocation_null : SourceLocation := mkSourceLocation 0 0 0 0.

Definition begin_ (l : SourceLocation) : Z := offset l.
Definition end_ (l : SourceLocation) : Z := wrap32 (offset l + length_ l).

Definition SourceLocation_eqb (a b : SourceLocation) : bool :=
  (offset a =? offset b) && (length_ a =? length_ b)
  && (startLine a =? startLine b) && (startColumn a =? startColumn b).

(** [SourceLocation::isValid]: the location differs from the
    default-constructed one. *)
Definition isValid (l : SourceLocation) : bool :=
  negb (SourceLocation_eqb l SourceLocation_null).

(** ** The comment locator *)

Module Locator.

(** The characters the locator compares with. *)
Definition star : ascii := "*"%char.
Definition bang : ascii := "!"%char.

(** The loop of [QmlDocVisitor::precedingComment], over the comments
    from the last one to the first: [rcomments] is the comment list
    reversed. [None] is an access outside the document. *)
Fixpoint scan (m_document : string) (m_usedComments : gset Z) (m_lastEndOffset : Z)
    (offset_ : Z) (rcomments : list SourceLocation) : option SourceLocation :=
  match rcomments with
  | [] => Some SourceLocation_null
  | loc :: rest =>
      if (begin_ loc <=? m_lastEndOffset)%Z then Some SourceLocation_null
      else if bool_decide (begin_ loc ∈ m_usedComments) then Some SourceLocation_null
      else if (m_lastEndOffset <? begin_ loc)%Z && (end_ loc <? offset_)%Z then
        match at_ m_document (wrap32 (offset loc - 1)) with
        | None => None
        | Some c =>
            if Ascii.eqb c star then
              let comment := mid m_document (offset loc) (length_ loc) in
              if startsWithChar comment bang || startsWithChar comment star
              then Some loc
              else scan m_document m_usedComments m_lastEndOffset offset_ rest
            else scan m_document m_usedComments m_lastEndOffset offset_ rest
        end
      else scan m_document m_usedComments m_lastEndOffset offset_ rest
  end.

(** [QmlDocVisitor::precedingComment]. *)
Definition precedingComment (m_document : string) (comments : list SourceLocation)
    (m_usedComments : gset Z) (m_lastEndOffset : Z) (offset_ : Z)
    : option SourceLocation :=
  scan m_document m_usedComments m_lastEndOffset offset_ (rev comments).

(** The vocabulary of the design document. *)

(** The scan ends at this comment. *)
Definition stale (used : gset Z) (last_end : Z) (c : SourceLocation) : Prop :=
  begin_ c <= last_end \/ begin_ c ∈ used.

(** The comment is a block comment whose body starts with [!] or [*]. *)
Definition docEligible (doc : string) (c : SourceLocation) : Prop :=
  at_ doc (wrap32 (offset c - 1)) = Some star /\
  (startsWithChar (mid doc (offset c) (length_ c)) bang = true \/
   startsWithChar (mid doc (offset c) (length_ c)) star = true).

Definition qualifies (doc : string) (last_end offset_ : Z) (c : SourceLocation) : Prop :=
  last_end < begin_ c /\ end_ c < offset_ /\ docEligible doc c.

(** Every comment starts after the first character of the document and
    inside it, as the comments of a lexer do. *)
Definition insideDocument (doc : string) (c : SourceLocation) : Prop :=
  0 < offset c <= Z.of_nat (String.length doc) /\ offset c < quint32_mod.

End Locator.

(** ** Tokens of a signature *)

(** The token kinds [QmlSignatureParser] tests for, and the number and
    operator kinds a signature can also hold. *)
Inductive Tok :=
  | Tok_Eoi | Tok_Ampersand | Tok_Aster | Tok_Caret
  | Tok_LeftParen | Tok_RightParen | Tok_LeftBracket | Tok_RightBracket
  | Tok_Comma | Tok_Equal | Tok_Gulbrandsen | Tok_Ellipsis
  | Tok_Ident | Tok_Number | Tok_SomeOperator
  | Tok_signed | Tok_unsigned | Tok_short | Tok_long | Tok_int64
  | Tok_void | Tok_int | Tok_char | Tok_double | Tok_const.

#[global] Instance Tok_eq_dec : EqDecision Tok.
Proof. solve_decision. Defined.

Record Token := mkToken { kind : Tok; lex : string }.

Module Tokenizer.

(** Modelled from the spec: the class Tokenizer (tokenizer.cpp), which the
    parser reads its tokens from. The spec gives the parser "a token
    stream over the signature text", names the keywords of a type (void,
    int, char, double, signed, unsigned, short, long, int64, ellipsis),
    the qualifier tokens (&, *, const, ^) and the scope separator, and
    has the parenthesis and bracket depths follow the tokens read. The
    state is the tokens still to be read, the lexeme of the current and
    of the previous token, and the two depths. *)
Record t := mk {
  pending : list Token;
  m_lex : string;
  m_prevLex : string;
  m_parenDepth : Z;
  m_bracketDepth : Z
}.

(** Modelled from the spec: [Tokenizer::getToken]: reading an opening
    parenthesis or bracket raises its depth and reading a closing one
    lowers it; after the last token every call gives [Tok_Eoi]. *)
Definition getToken (z : t) : Tok * t :=
  match pending z with
  | [] => (Tok_Eoi, mk [] "" (m_lex z) (m_parenDepth z) (m_bracketDepth z))
  | tk :: rest =>
      let pd := match kind tk with
                | Tok_LeftParen => m_parenDepth z + 1
                | Tok_RightParen => m_parenDepth z - 1
                | _ => m_parenDepth z
                end in
      let bd := match kind tk with
                | Tok_LeftBracket => m_bracketDepth z + 1
                | Tok_RightBracket => m_bracketDepth z - 1
                | _ => m_bracketDepth z
                end in
      (kind tk, mk rest (lex tk) (m_lex z) pd bd)
  end.

Definition init (tokens : list Token) : t := mk tokens "" "" 0 0.

(** The lexical classes of the characters of a signature. *)
Definition isDigit (c : ascii) : bool :=
  let n := nat_of_ascii c in (48 <=? n)%nat && (n <=? 57)%nat.
Definition isWordChar (c : ascii) : bool :=
  let n := nat_of_ascii c in
  isDigit c || ((65 <=? n)%nat && (n <=? 90)%nat)
  || ((97 <=? n)%nat && (n <=? 122)%nat) || (n =? 95)%nat.
Definition isSpace (c : ascii) : bool :=
  let n := nat_of_ascii c in (n =? 32)%nat || ((9 <=? n)%nat && (n <=? 13)%nat).

Definition keywords : list (string * Tok) :=
  [("void", Tok_void); ("int", Tok_int); ("char", Tok_char);
   ("double", Tok_double); ("signed", Tok_signed); ("unsigned", Tok_unsigned);
   ("short", Tok_short); ("long", Tok_long); ("__int64", Tok_int64);
   ("const", Tok_const)].

Definition wordToken (w : string) : Token :=
  match w with
  | String c _ =>
      if isDigit c then mkToken Tok_Number w
      else match List.find (fun kw => String.eqb (fst kw) w) keywords with
           | Some kw => mkToken (snd kw) w
           | None => mkToken Tok_Ident w
           end
  | EmptyString => mkToken Tok_Ident w
  end.

Definition flush (w : string) : list Token :=
  if isEmpty w then [] else [wordToken w].

Definition punctuation (c : ascii) : Tok :=
  match nat_of_ascii c with
  | 38%nat => Tok_Ampersand
  | 42%nat => Tok_Aster
  | 94%nat => Tok_Caret
  | 40%nat => Tok_LeftParen
  | 41%nat => Tok_RightParen
  | 91%nat => Tok_LeftBracket
  | 93%nat => Tok_RightBracket
  | 44%nat => Tok_Comma
  | 61%nat => Tok_Equal
  | _ => Tok_SomeOperator
  end.

(** Modelled from the spec: the tokens of a text, left to right; [w] is
    the word being read. *)
Fixpoint scanText (s : string) (w : string) : list Token :=
  match s with
  | EmptyString => flush w
  | String c r =>
      if isWordChar c then scanText r (w ++ String c "")
      else if isSpace c then flush w ++ scanText r ""
      else
        match c, r with
        | ":"%char, String ":"%char r' =>
            flush w ++ mkToken Tok_Gulbrandsen "::" :: scanText r' ""
        | "."%char, String "."%char (String "."%char r') =>
            flush w ++ mkToken Tok_Ellipsis "..." :: scanText r' ""
        | _, _ => flush w ++ mkToken (punctuation c) (String c "") :: scanText r ""
        end
  end.

Definition tokenize (s : string) : list Token := scanText s "".

End Tokenizer.

Module CodeChunk.

(** Modelled from the spec: the class CodeChunk (codechunk.cpp), the
    text a type or a default value is collected in. The spec has the
    lexemes appended in the order they are read; whether a blank
    separates two of them is CodeChunk's policy, which is taken as the
    parameter [needSpace] on the last character collected and the first
    one appended. *)
Section Append.
Variable needSpace : ascii -> ascii -> bool.

Fixpoint lastChar (s : string) : option ascii :=
  match s with
  | EmptyString => None
  | String c EmptyString => Some c
  | String _ r => lastChar r
  end.

(** Modelled from the spec: [CodeChunk::append]. *)
Definition append (m_str lexeme : string) : string :=
  match lastChar m_str, lexeme with
  | Some a, String b _ =>
      if needSpace a b then m_str ++ " " ++ lexeme else m_str ++ lexeme
  | _, _ => m_str ++ lexeme
  end.

(** The chunk that a sequence of lexemes builds. *)
Definition ofLexemes (lexemes : list string) : string :=
  fold_left append lexemes "".
End Append.

End CodeChunk.

(** ** Documentation nodes *)

(** Modelled from the spec: the class Location (location.cpp), the
    "source location" of a node and of a warning: a file path with a
    line and a column, which are unset ([None]) until [setLineNo] and
    [setColumnNo] give them. *)
Record Location := mkLocation {
  filePath : string;
  lineNo : option Z;
  columnNo : option Z
}.

Definition Location_new (path : string) : Location := mkLocation path None None.
Definition setLineNo (n : Z) (l : Location) : Location :=
  mkLocation (filePath l) (Some n) (columnNo l).
Definition setColumnNo (n : Z) (l : Location) : Location :=
  mkLocation (filePath l) (lineNo l) (Some n).

(** The conversion of a [quint32] to the [int] that [setLineNo] takes. *)
Definition int_of_quint32 (z : Z) : Z :=
  if z <? 2 ^ 31 then z else z - quint32_mod.

(** The class [Parameter]: one parameter of a function node. *)
Record FnParameter := mkParameter {
  p_type : string;
  p_name : string;
  p_defaultValue : string
}.

Definition ArgPair : Type := string * string.
Definition ArgList : Type := list ArgPair.

Record Topic := mkTopic { m_topic : string; m_args : string }.

(** Modelled from the spec: the class Doc (doc.cpp), the parsed form of
    one comment body: where it is, its source text, the topics it
    declares in order, and the set of metacommands it uses, each with
    its argument tuples. The set is the list [metaCommandsUsed], in the
    order in which the interpreter's loop meets its elements. *)
Record Doc := mkDoc {
  doc_location : Location;
  doc_source : string;
  topicsUsed : list Topic;
  metaCommandsUsed : list string;
  metaCommandMap : gmap string ArgList
}.

(** [Doc::metaCommandArgs]: the argument tuples of a command, none for a
    command the comment does not use. *)
Definition metaCommandArgs (d : Doc) (command : string) : ArgList :=
  default [] (metaCommandMap d !! command).

Inductive Status := Active | Internal | Deprecated | Preliminary.
Inductive Metaness := QmlSignal | QmlMethod.

Record ImportRec := mkImportRec {
  m_moduleName : string;
  m_majorMinorVersion : string;
  m_importUri : string;
  m_importId : string
}.

(** Modelled from the spec: the classes Node, QmlTypeNode, QmlPropertyNode
    and FunctionNode (node.cpp, qmltypenode.cpp, qmlpropertynode.cpp,
    functionnode.cpp). A node has the attributes common to all nodes and
    those of its variant; a node is addressed by its index in the
    repository's arena, and its parent is such an index. *)
Record Common := mkCommon {
  name : string;
  parent : option nat;
  location : option Location;
  doc : option Doc;
  status : Status;
  since : string;
  deprecatedSince : string
}.

Record TypeAttrs := mkTypeAttrs {
  qmlBaseName : string;
  abstract : bool;
  wrapper : bool;
  title : string;
  importList : list ImportRec
}.

Record PropertyAttrs := mkPropertyAttrs {
  dataType : string;
  readOnly : bool;
  isDefault : bool;
  required : bool;
  isList : bool;
  attached : bool;
  enumNode : option (string * string);
  defaultValue : string
}.

Record FunctionAttrs := mkFunctionAttrs {
  metaness : Metaness;
  returnType : string;
  parameters : list FnParameter
}.

Inductive NodeVariant :=
  | NamespaceNode
  | QmlTypeNode (t : TypeAttrs)
  | QmlPropertyNode (p : PropertyAttrs)
  | FunctionNode (f : FunctionAttrs).

Record Node := mkNode { common : Common; variant : NodeVariant }.

Definition isNamespace (n : Node) : bool :=
  match variant n with NamespaceNode => true | _ => false end.
Definition isQmlType (n : Node) : bool :=
  match variant n with QmlTypeNode _ => true | _ => false end.
Definition isQmlProperty (n : Node) : bool :=
  match variant n with QmlPropertyNode _ => true | _ => false end.
Definition isFunction (n : Node) : bool :=
  match variant n with FunctionNode _ => true | _ => false end.

(** Modelled from the spec: the setters of the attributes common to
    all nodes. *)
Definition withCommon (f : Common -> Common) (n : Node) : Node :=
  mkNode (f (common n)) (variant n).

Definition setLocation (l : Location) : Node -> Node :=
  withCommon (fun c => mkCommon (name c) (parent c) (Some l) (doc c) (status c)
                         (since c) (deprecatedSince c)).
Definition setDoc (d : Doc) : Node -> Node :=
  withCommon (fun c => mkCommon (name c) (parent c) (location c) (Some d) (status c)
                         (since c) (deprecatedSince c)).
Definition setStatus (s : Status) : Node -> Node :=
  withCommon (fun c => mkCommon (name c) (parent c) (location c) (doc c) s
                         (since c) (deprecatedSince c)).
Definition setSince (s : string) : Node -> Node :=
  withCommon (fun c => mkCommon (name c) (parent c) (location c) (doc c) (status c)
                         s (deprecatedSince c)).
Definition setDeprecated (s : string) : Node -> Node :=
  withCommon (fun c => mkCommon (name c) (parent c) (location c) (doc c) (status c)
                         (since c) s).

(** Modelled from the spec: the setters of a type node; on a node of
    another variant, which has no such attribute, the virtual ones
    ([setAbstract], [setWrapper]) do nothing. *)
Definition withType (f : TypeAttrs -> TypeAttrs) (n : Node) : Node :=
  match variant n with
  | QmlTypeNode t => mkNode (common n) (QmlTypeNode (f t))
  | _ => n
  end.

Definition setAbstract (b : bool) : Node -> Node :=
  withType (fun t => mkTypeAttrs (qmlBaseName t) b (wrapper t) (title t) (importList t)).
Definition setWrapper : Node -> Node :=
  withType (fun t => mkTypeAttrs (qmlBaseName t) (abstract t) true (title t) (importList t)).
Definition setQmlBaseName (s : string) : Node -> Node :=
  withType (fun t => mkTypeAttrs s (abstract t) (wrapper t) (title t) (importList t)).
Definition setTitle (s : string) : Node -> Node :=
  withType (fun t => mkTypeAttrs (qmlBaseName t) (abstract t) (wrapper t) s (importList t)).
Definition setImportList (l : list ImportRec) : Node -> Node :=
  withType (fun t => mkTypeAttrs (qmlBaseName t) (abstract t) (wrapper t) (title t) l).

(** Modelled from the spec: the setters of a property node; on a node
    of another variant, which has no such attribute, the virtual ones
    ([markReadOnly], [markDefault]) do nothing. *)
Definition withProperty (f : PropertyAttrs -> PropertyAttrs) (n : Node) : Node :=
  match variant n with
  | QmlPropertyNode p => mkNode (common n) (QmlPropertyNode (f p))
  | _ => n
  end.

Definition setDataType (s : string) : Node -> Node :=
  withProperty (fun p => mkPropertyAttrs s (readOnly p) (isDefault p) (required p)
                           (isList p) (attached p) (enumNode p) (defaultValue p)).
Definition markReadOnly (b : bool) : Node -> Node :=
  withProperty (fun p => mkPropertyAttrs (dataType p) b (isDefault p) (required p)
                           (isList p) (attached p) (enumNode p) (defaultValue p)).
Definition markDefault : Node -> Node :=
  withProperty (fun p => mkPropertyAttrs (dataType p) (readOnly p) true (required p)
                           (isList p) (attached p) (enumNode p) (defaultValue p)).
Definition setRequired : Node -> Node :=
  withProperty (fun p => mkPropertyAttrs (dataType p) (readOnly p) (isDefault p) true
                           (isList p) (attached p) (enumNode p) (defaultValue p)).
Definition setIsList (b : bool) : Node -> Node :=
  withProperty (fun p => mkPropertyAttrs (dataType p) (readOnly p) (isDefault p) (required p)
                           b (attached p) (enumNode p) (defaultValue p)).
Definition setEnumNodeTo (e : string * string) : Node -> Node :=
  withProperty (fun p => mkPropertyAttrs (dataType p) (readOnly p) (isDefault p) (required p)
                           (isList p) (attached p) (Some e) (defaultValue p)).
Definition setDefaultValue (s : string) : Node -> Node :=
  withProperty (fun p => mkPropertyAttrs (dataType p) (readOnly p) (isDefault p) (required p)
                           (isList p) (attached p) (enumNode p) s).

(** Modelled from the spec: the const overload of
    [QmlPropertyNode::isReadOnly], and [QmlPropertyNode::isDefault]: the
    flags of the node. *)
Definition isReadOnly (n : Node) : bool :=
  match variant n with QmlPropertyNode p => readOnly p | _ => false end.
Definition isDefaultProperty (n : Node) : bool :=
  match variant n with QmlPropertyNode p => isDefault p | _ => false end.

(** Modelled from the spec: the setters and getters of a function
    node. *)
Definition withFunction (f : FunctionAttrs -> FunctionAttrs) (n : Node) : Node :=
  match variant n with
  | FunctionNode a => mkNode (common n) (FunctionNode (f a))
  | _ => n
  end.

Definition setReturnType (s : string) : Node -> Node :=
  withFunction (fun a => mkFunctionAttrs (metaness a) s (parameters a)).
Definition setParameters (l : list FnParameter) : Node -> Node :=
  withFunction (fun a => mkFunctionAttrs (metaness a) (returnType a) l).
Definition parametersOf (n : Node) : list FnParameter :=
  match variant n with FunctionNode a => parameters a | _ => [] end.
Definition returnTypeOf (n : Node) : string :=
  match variant n with FunctionNode a => returnType a | _ => "" end.

(** Modelled from the spec: the constructors: a node of each variant,
    with its parent, its name and nothing else set. *)
Definition newCommon (parent_ : option nat) (name_ : string) : Common :=
  mkCommon name_ parent_ None None Active "" "".
Definition new_QmlTypeNode (parent_ : nat) (name_ : string) : Node :=
  mkNode (newCommon (Some parent_) name_) (QmlTypeNode (mkTypeAttrs "" false false "" [])).
Definition new_QmlPropertyNode (parent_ : nat) (name_ type_ : string) (attached_ : bool) : Node :=
  mkNode (newCommon (Some parent_) name_)
         (QmlPropertyNode (mkPropertyAttrs type_ false false false false attached_ None "")).
Definition new_FunctionNode (m : Metaness) (parent_ : nat) (name_ : string) : Node :=
  mkNode (newCommon (Some parent_) name_) (FunctionNode (mkFunctionAttrs m "" [])).

(** ** The signature parser *)

Module SignatureParser.

(** The members of [QmlSignatureParser] that change while it runs. *)
Record State := mkState {
  tokenizer_ : Tokenizer.t;
  tok_ : Tok;
  names_ : list string;
  func_ : Node
}.

(** A parsing step: a result and the next state. [None] is reserved for
    a loop that exhausts its bound, which [loop] below never does. *)
Definition P (A : Type) : Type := State -> option (A * State).

Definition ret {A} (a : A) : P A := fun s => Some (a, s).
Definition bind {A B} (m : P A) (k : A -> P B) : P B :=
  fun s => match m s with
           | Some (a, s') => k a s'
           | None => None
           end.

Notation "x <- m ;; k" := (bind m (fun x => k))
  (at level 100, m at next level, right associativity).

(** What is left to read: the tokens pending, and the current one
    unless it is the end of the input. *)
Definition measure (s : State) : nat :=
  (List.length (Tokenizer.pending (tokenizer_ s))
   + if bool_decide (tok_ s = Tok_Eoi) then 0 else 1)%nat.

Inductive Ctl (A B : Type) :=
  | Continue (a : A)
  | Done (b : B).
Arguments Continue {A B} a.
Arguments Done {A B} b.

Fixpoint loop_fuel {A B} (fuel : nat) (body : A -> P (Ctl A B)) (a : A) : P B :=
  fun s =>
    match fuel with
    | O => None
    | S n =>
        match body a s with
        | Some (Continue a', s') => loop_fuel n body a' s'
        | Some (Done b, s') => Some (b, s')
        | None => None
        end
    end.

(** A loop whose every turn reads a token: it takes no more turns than
    there are tokens left. *)
Definition loop {A B} (body : A -> P (Ctl A B)) (a : A) : P B :=
  fun s => loop_fuel (S (measure s)) body a s.

Definition getTok : P Tok := fun s => Some (tok_ s, s).
Definition lexeme : P string := fun s => Some (Tokenizer.m_lex (tokenizer_ s), s).
Definition previousLexeme : P string :=
  fun s => Some (Tokenizer.m_prevLex (tokenizer_ s), s).
Definition parenDepth : P Z := fun s => Some (Tokenizer.m_parenDepth (tokenizer_ s), s).
Definition bracketDepth : P Z :=
  fun s => Some (Tokenizer.m_bracketDepth (tokenizer_ s), s).

Definition readToken : P unit :=
  fun s => let (t, z) := Tokenizer.getToken (tokenizer_ s) in
           Some (tt, mkState z t (names_ s) (func_ s)).

Definition setNames (l : list string) : P unit :=
  fun s => Some (tt, mkState (tokenizer_ s) (tok_ s) l (func_ s)).
Definition getNames : P (list string) := fun s => Some (names_ s, s).
Definition onFunc (f : Node -> Node) : P unit :=
  fun s => Some (tt, mkState (tokenizer_ s) (tok_ s) (names_ s) (f (func_ s))).
Definition getFunc : P Node := fun s => Some (func_ s, s).

(** [QmlSignatureParser::match]. *)
Definition match_ (target : Tok) : P bool :=
  t <- getTok ;;
  if bool_decide (t = target) then _ <- readToken ;; ret true else ret false.

(** [match(t1) || match(t2) || ...], left to right. *)
Fixpoint matchAny (targets : list Tok) : P bool :=
  match targets with
  | [] => ret false
  | t :: rest => b <- match_ t ;; if b then ret true else matchAny rest
  end.

Section WithCodeChunk.
Variable needSpace : ascii -> ascii -> bool.
Local Abbreviation append := (CodeChunk.append needSpace).

(** [while (match(Tok_signed) || ... || match(Tok_int64))] with the
    chunk and [virgin] as the loop's variables. *)
Definition sizeWords (tv : string * bool) : P (Ctl (string * bool) (string * bool)) :=
  b <- matchAny [Tok_signed; Tok_unsigned; Tok_short; Tok_long; Tok_int64] ;;
  if b then l <- previousLexeme ;; ret (Continue (append (fst tv) l, false))
  else ret (Done tv).

(** One turn of the [for (;;)] of [matchTypeAndName]; it is done with
    [false] where the code returns false and with [true] where it
    breaks. *)
Definition typeChain (type : string) : P (Ctl string (string * bool)) :=
  t <- getTok ;;
  tv <- (if bool_decide (t <> Tok_Ident) then loop sizeWords (type, true)
         else ret (type, true)) ;;
  r <- (if snd tv then
          b <- match_ Tok_Ident ;;
          if b then l <- previousLexeme ;; ret (Some (append (fst tv) l))
          else
            b <- matchAny [Tok_void; Tok_int; Tok_char; Tok_double; Tok_Ellipsis] ;;
            if b then l <- previousLexeme ;; ret (Some (append (fst tv) l))
            else ret None
        else
          b <- matchAny [Tok_int; Tok_char; Tok_double] ;;
          if b then l <- previousLexeme ;; ret (Some (append (fst tv) l))
          else ret (Some (fst tv))) ;;
  match r with
  | None => ret (Done (fst tv, false))
  | Some type' =>
      b <- match_ Tok_Gulbrandsen ;;
      if b then l <- previousLexeme ;; ret (Continue (append type' l))
      else ret (Done (type', true))
  end.

(** [while (match(Tok_Ampersand) || ... || match(Tok_Caret))]. *)
Definition qualifiers (type : string) : P (Ctl string string) :=
  b <- matchAny [Tok_Ampersand; Tok_Aster; Tok_const; Tok_Caret] ;;
  if b then l <- previousLexeme ;; ret (Continue (append type l))
  else ret (Done type).

(** The array brackets of [matchTypeAndName]. *)
Definition brackets (bracketDepth0 : Z) (type : string) : P (Ctl string string) :=
  d <- bracketDepth ;;
  t <- getTok ;;
  if ((bracketDepth0 <=? d) && bool_decide (t <> Tok_Eoi))
     || bool_decide (t = Tok_RightBracket)
  then l <- lexeme ;; _ <- readToken ;; ret (Continue (append type l))
  else ret (Done type).

(** [QmlSignatureParser::matchTypeAndName]: the chunk [type] and the
    string that [var] points to ([None] for a null pointer) are given
    back with the result. *)
Definition matchTypeAndName (type : string) (var : option string)
    : P (bool * string * option string) :=
  tv <- loop typeChain type ;;
  if negb (snd tv) then ret (false, fst tv, var)
  else
    type1 <- loop qualifiers (fst tv) ;;
    var1 <- (match var with
             | Some v =>
                 b <- match_ Tok_Ident ;;
                 if b then l <- previousLexeme ;; ret (Some l) else ret (Some v)
             | None => ret None
             end) ;;
    t <- getTok ;;
    type2 <- (if bool_decide (t = Tok_LeftBracket)
              then d0 <- bracketDepth ;; loop (brackets d0) type1
              else ret type1) ;;
    ret (true, type2, var1).

(** The default value of [matchParameter]. *)
Definition defaultTokens (parenDepth0 : Z) (defaultValue : string)
    : P (Ctl string string) :=
  d <- parenDepth ;;
  t <- getTok ;;
  if (parenDepth0 <=? d)
     && (bool_decide (t <> Tok_Comma) || (parenDepth0 <? d))
     && bool_decide (t <> Tok_Eoi)
  then l <- lexeme ;; _ <- readToken ;; ret (Continue (append defaultValue l))
  else ret (Done defaultValue).

(** [QmlSignatureParser::matchParameter]. *)
Definition matchParameter : P bool :=
  r <- matchTypeAndName "" (Some "") ;;
  let result := fst (fst r) in
  let type0 := snd (fst r) in
  let name0 := default "" (snd r) in
  let name1 := if isEmpty name0 then type0 else name0 in
  let type1 := if isEmpty name0 then "" else type0 in
  if negb result then ret false
  else
    b <- match_ Tok_Equal ;;
    defaultValue <- (if b then d0 <- parenDepth ;; loop (defaultTokens d0) ""
                     else ret "") ;;
    _ <- onFunc (fun f => setParameters
                            (parametersOf f ++ [mkParameter type1 name1 defaultValue]) f) ;;
    ret true.

(** [while (match(Tok_Ident))] of [matchFunctionDecl]. *)
Definition qualifiedName (u : unit) : P (Ctl unit unit) :=
  b <- match_ Tok_Ident ;;
  if b then
    l <- previousLexeme ;;
    ns <- getNames ;;
    _ <- setNames (ns ++ [l]) ;;
    g <- match_ Tok_Gulbrandsen ;;
    if negb g then
      ns' <- getNames ;;
      _ <- setNames (removelast ns') ;;
      ret (Done tt)
    else ret (Continue tt)
  else ret (Done tt).

(** The [do ... while (match(Tok_Comma))] of [matchFunctionDecl];
    done with [false] where the code returns false. *)
Definition parameterList (u : unit) : P (Ctl unit bool) :=
  ok <- matchParameter ;;
  if negb ok then ret (Done false)
  else b <- match_ Tok_Comma ;; if b then ret (Continue tt) else ret (Done true).

(** [QmlSignatureParser::matchFunctionDecl], first part: the return
    type and the qualified name, up to the test for the opening
    parenthesis. It gives the return type read, or [None] where the
    code returns false. *)
Definition declarator (signature_ : string) : P (option string) :=
  let firstBlank := indexOf signature_ " "%char in
  let leftParen := indexOf signature_ "("%char in
  r <- (if (0 <? firstBlank) && (1 <? leftParen - firstBlank)
        then matchTypeAndName "" None
        else ret (true, "", None)) ;;
  if negb (fst (fst r)) then ret None
  else
    _ <- loop qualifiedName tt ;;
    t <- getTok ;;
    if bool_decide (t <> Tok_LeftParen) then ret None
    else ret (Some (snd (fst r))).

(** [QmlSignatureParser::matchFunctionDecl]. *)
Definition matchFunctionDecl (signature_ : string) (location_ : Location) : P bool :=
  d <- declarator signature_ ;;
  match d with
  | None => ret false
  | Some returnType_ =>
      _ <- readToken ;;
      _ <- onFunc (setLocation location_) ;;
      _ <- onFunc (setReturnType returnType_) ;;
      t' <- getTok ;;
      ok <- (if bool_decide (t' <> Tok_RightParen)
             then _ <- onFunc (setParameters []) ;; loop parameterList tt
             else ret true) ;;
      if negb ok then ret false
      else b <- match_ Tok_RightParen ;; ret b
  end.

(** The state after the first [readToken] of the constructor. *)
Definition start (tokens : list Token) (func : Node) : State :=
  let (t, z) := Tokenizer.getToken (Tokenizer.init tokens) in mkState z t [] func.

(** The body of the constructor on the tokens of the signature: the
    first token is read and the declaration matched. *)
Definition parse (tokens : list Token) (func : Node) (signature : string)
    (loc : Location) : option (bool * State) :=
  matchFunctionDecl signature loc (start tokens func).

(** Whether the parser gets as far as the parameter list. *)
Definition reachesParameters (tokens : list Token) (func : Node) (signature : string) : bool :=
  match declarator signature (start tokens func) with
  | Some (Some _, _) => true
  | _ => false
  end.

(** [QmlSignatureParser::QmlSignatureParser]: the function node as the
    parser leaves it; the result of [matchFunctionDecl] is dropped.
    [tokenize] stands for the tokenizer on the text of the
    signature. *)
Definition QmlSignatureParser (tokenize : string -> list Token)
    (func : Node) (signature : string) (loc : Location) : option Node :=
  match parse (tokenize signature) func signature loc with
  | Some (_, s) => Some (func_ s)
  | None => None
  end.
End WithCodeChunk.

(** The vocabulary of the properties of the parser. *)

(** A step returns, in a state related to the one it started in. *)
Definition returns {A} (R : State -> State -> Prop) (m : P A) : Prop :=
  forall s, exists a s', m s = Some (a, s') /\ R s s'.

(** Tokens were read and the function node was left alone. *)
Definition reads (s s' : State) : Prop :=
  (measure s' <= measure s)%nat /\ func_ s' = func_ s.

(** Tokens were read. *)
Definition advances (s s' : State) : Prop := (measure s' <= measure s)%nat.

(** A turn of a loop that goes on only after a token was matched. *)
Definition turn {A B} (s : State) (c : Ctl A B) (s' : State) : Prop :=
  reads s s' /\ forall a', c = Continue a' -> (measure s' < measure s)%nat.

End SignatureParser.

(** ** The visitor *)

(** Modelled from the spec: the COMMAND_ macros (codeparser.h), with
    the names the design document gives the commands in its table of the
    metacommand interpreter. *)
Module Command.
Definition ABSTRACT := "abstract".
Definition QMLABSTRACT := "qmlabstract".
Definition DEPRECATED := "deprecated".
Definition INQMLMODULE := "inqmlmodule".
Definition QMLINHERITS := "qmlinherits".
Definition DEFAULT := "default".
Definition QMLDEFAULT := "qmldefault".
Definition QMLENUMERATORSFROM := "qmlenumeratorsfrom".
Definition QMLREADONLY := "qmlreadonly".
Definition QMLREQUIRED := "qmlrequired".
Definition INGROUP := "ingroup".
Definition INTERNAL := "internal".
Definition OBSOLETE := "obsolete".
Definition PRELIMINARY := "preliminary".
Definition SINCE := "since".
Definition WRAPPER := "wrapper".
Definition QMLPROPERTY := "qmlproperty".
Definition QMLSIGNAL := "qmlsignal".
End Command.

(** The texts of the warnings, with the strings put into them. *)
Inductive WarningText :=
  | TriesToInheritItself (base : string)
  | IgnoredAppliesOnlyTo (command target : string)
  | ExpectedAnArgument (command meant : string)
  | FailedToFindEnumeration (command enumeration : string)
  | IgnoredInQmlFiles (command : string).

Record Warning := mkWarning { w_location : Location; w_text : WarningText }.

(** The command a warning carries. *)
Definition warningCommand (w : Warning) : option string :=
  match w_text w with
  | TriesToInheritItself _ => None
  | IgnoredAppliesOnlyTo c _ => Some c
  | ExpectedAnArgument c _ => Some c
  | FailedToFindEnumeration c _ => Some c
  | IgnoredInQmlFiles c => Some c
  end.

(** What [QmlPropertyArguments::parse] gives. *)
Record QmlPropertyArguments := mkQmlPropertyArguments {
  qpa_name : string;
  qpa_type : string;
  qpa_isList : bool
}.

(** The repository of nodes with what the interpreter registers in it
    and the warnings issued. *)
Record Repository := mkRepository {
  nodes : list Node;
  qmlModules : list (string * nat);
  groups : list (string * nat);
  warnings : list Warning
}.

(** The collaborators the visitor calls: the parser of a comment body
    ([Doc]'s constructor), the parser of a property topic's arguments,
    the lookup of a QML type by module and name, the lookup of a C++
    enumeration, the tokenizer of a signature and CodeChunk's spacing
    policy. *)
Record Collaborators := mkCollaborators {
  Doc_new : Location -> Location -> string -> Doc;
  QmlPropertyArguments_parse : string -> Location -> option QmlPropertyArguments;
  findQmlTypeInPrimaryTree : Repository -> string -> string -> option nat;
  findEnumeration : string -> bool;
  tokenize : string -> list Token;
  needSpace : ascii -> ascii -> bool
}.

(** What the constructor stores and the visit never changes. *)
Record Source := mkSource {
  m_filePath : string;
  m_name : string;
  m_document : string;
  comments : list SourceLocation;
  m_topics : list string
}.

(** The syntax tree nodes the visitor looks at. *)
Inductive MemberType := Signal | Property | OtherMember.

Record UiPublicMember := mkUiPublicMember {
  um_type : MemberType;
  um_name : string;
  um_parameters : list (string * string);
  um_memberType : list string;
  um_isReadonly : bool;
  um_isDefaultMember : bool;
  um_requiredToken : SourceLocation;
  um_typeModifier : string;
  um_firstSourceLocation : SourceLocation;
  um_lastSourceLocation : SourceLocation
}.

Record FunctionDeclaration := mkFunctionDeclaration {
  fd_name : string;
  fd_formals : list (string * option SourceLocation);
  fd_firstSourceLocation : SourceLocation;
  fd_lastSourceLocation : SourceLocation
}.

Record UiObjectDefinition := mkUiObjectDefinition {
  od_qualifiedTypeNameId : list string;
  od_firstSourceLocation : SourceLocation;
  od_lastSourceLocation : SourceLocation
}.

Record UiImport := mkUiImport {
  im_fileNameToken : SourceLocation;
  im_version : option (SourceLocation * SourceLocation);
  im_importUri : list string;
  im_importId : string;
  im_lastSourceLocation : SourceLocation
}.

Inductive AstNode :=
  | AstObjectDefinition (d : UiObjectDefinition)
  | AstImport (i : UiImport)
  | AstObjectBinding
  | AstArrayBinding
  | AstPublicMember (m : UiPublicMember)
  | AstFunctionDeclaration (f : FunctionDeclaration)
  | AstScriptBinding (lastSourceLocation : SourceLocation)
  | AstQualifiedId
  | AstIdentifierPropertyName.

(** The walk of the tree, as the calls it makes on the visitor. *)
Inductive Event :=
  | Visit (n : AstNode)
  | EndVisit (n : AstNode).

Module Visitor.

(** The members of [QmlDocVisitor] that change, and the repository.
    The nesting level and the last end offset are unsigned 32-bit
    members: the level is kept in [0, 2^32) by [++] and [--], which
    wrap around. *)
Record State := mkState {
  m_nestingLevel : Z;
  m_lastEndOffset : Z;
  m_usedComments : gset Z;
  m_current : nat;
  m_importList : list ImportRec;
  hasRecursionDepthError : bool;
  db : Repository
}.

(** A step of the visitor. [None] is undefined behaviour of the C++
    code: an index outside an argument list or the document, a null
    pointer followed, a node used as a variant it is not. *)
Definition M (A : Type) : Type := State -> option (A * State).

Definition ret {A} (a : A) : M A := fun s => Some (a, s).
Definition bind {A B} (m : M A) (k : A -> M B) : M B :=
  fun s => match m s with
           | Some (a, s') => k a s'
           | None => None
           end.
Definition fault {A} : M A := fun _ => None.

Notation "x <- m ;; k" := (bind m (fun x => k))
  (at level 100, m at next level, right associativity).

Fixpoint forEach {A} (l : list A) (body : A -> M unit) : M unit :=
  match l with
  | [] => ret tt
  | a :: rest => _ <- body a ;; forEach rest body
  end.

Definition get : M State := fun s => Some (s, s).

Definition withDb (f : Repository -> Repository) : M unit :=
  fun s => Some (tt, mkState (m_nestingLevel s) (m_lastEndOffset s) (m_usedComments s)
                       (m_current s) (m_importList s) (hasRecursionDepthError s) (f (db s))).
Definition set_m_nestingLevel (z : Z) : M unit :=
  fun s => Some (tt, mkState z (m_lastEndOffset s) (m_usedComments s)
                       (m_current s) (m_importList s) (hasRecursionDepthError s) (db s)).
Definition set_m_lastEndOffset (z : Z) : M unit :=
  fun s => Some (tt, mkState (m_nestingLevel s) z (m_usedComments s)
                       (m_current s) (m_importList s) (hasRecursionDepthError s) (db s)).
Definition set_m_usedComments (u : gset Z) : M unit :=
  fun s => Some (tt, mkState (m_nestingLevel s) (m_lastEndOffset s) u
                       (m_current s) (m_importList s) (hasRecursionDepthError s) (db s)).
Definition set_m_current (h : nat) : M unit :=
  fun s => Some (tt, mkState (m_nestingLevel s) (m_lastEndOffset s) (m_usedComments s)
                       h (m_importList s) (hasRecursionDepthError s) (db s)).
Definition set_m_importList (l : list ImportRec) : M unit :=
  fun s => Some (tt, mkState (m_nestingLevel s) (m_lastEndOffset s) (m_usedComments s)
                       (m_current s) l (hasRecursionDepthError s) (db s)).
Definition set_hasRecursionDepthError (b : bool) : M unit :=
  fun s => Some (tt, mkState (m_nestingLevel s) (m_lastEndOffset s) (m_usedComments s)
                       (m_current s) (m_importList s) b (db s)).

(** Following a node pointer. *)
Definition getNode (h : nat) : M Node :=
  fun s => match nodes (db s) !! h with
           | Some n => Some (n, s)
           | None => None
           end.

(** Changing the node a pointer leads to. *)
Definition onNode (h : nat) (f : Node -> Node) : M unit :=
  n <- getNode h ;;
  withDb (fun r => mkRepository (<[h := f n]> (nodes r)) (qmlModules r) (groups r) (warnings r)).

(** [new]: the node joins the arena, and with it the children of its
    parent. *)
Definition newNode (n : Node) : M nat :=
  s <- get ;;
  _ <- withDb (fun r => mkRepository (nodes r ++ [n]) (qmlModules r) (groups r) (warnings r)) ;;
  ret (List.length (nodes (db s))).

(** [Location::warning]. *)
Definition warning (l : Location) (t : WarningText) : M unit :=
  withDb (fun r => mkRepository (nodes r) (qmlModules r) (groups r)
                     (warnings r ++ [mkWarning l t])).

(** Modelled from the spec: [QDocDatabase::addToQmlModule] and
    [QDocDatabase::addToGroup] (qdocdatabase.cpp), which register the
    node under the module or the group named. *)
Definition addToQmlModule (module : string) (h : nat) : M unit :=
  withDb (fun r => mkRepository (nodes r) (qmlModules r ++ [(module, h)]) (groups r)
                     (warnings r)).
Definition addToGroup (group : string) (h : nat) : M unit :=
  withDb (fun r => mkRepository (nodes r) (qmlModules r) (groups r ++ [(group, h)])
                     (warnings r)).

(** [args[0]]: outside an empty list. *)
Definition first (args : ArgList) : M ArgPair :=
  match args with
  | a :: _ => ret a
  | [] => fault
  end.

(** The first index in a list that a test accepts. *)
Fixpoint findIndex {A} (test : A -> bool) (l : list A) (i : nat) : option nat :=
  match l with
  | [] => None
  | a :: rest => if test a then Some i else findIndex test rest (S i)
  end.

(** Modelled from the spec: [Aggregate::hasQmlProperty(name)] and
    [Aggregate::hasQmlProperty(name, attached)] (aggregate.cpp), the
    lookup of a property by name on a scope: the first child of the
    aggregate that is a property of that name (and of that kind). *)
Definition hasQmlProperty (p : nat) (n : string) : M (option nat) :=
  s <- get ;;
  ret (findIndex (fun c => bool_decide (parent (common c) = Some p)
                           && isQmlProperty c && String.eqb (name (common c)) n)
                 (nodes (db s)) 0).
Definition hasQmlPropertyAttached (p : nat) (n : string) (att : bool) : M (option nat) :=
  s <- get ;;
  ret (findIndex (fun c => bool_decide (parent (common c) = Some p)
                           && match variant c with
                              | QmlPropertyNode a => Bool.eqb (attached a) att
                              | _ => false
                              end
                           && String.eqb (name (common c)) n)
                 (nodes (db s)) 0).

Section WithCollaborators.
Variable ext : Collaborators.
Variable src : Source.

(** Modelled from the spec: [QmlPropertyNode::setEnumNode]
    (qmlpropertynode.cpp): the enumeration is bound if the repository
    has it, and the result tells whether it was. *)
Definition setEnumNode (h : nat) (path registeredName : string) : M bool :=
  if findEnumeration ext path
  then _ <- onNode h (setEnumNodeTo (path, registeredName)) ;; ret true
  else ret false.

(** The body of the loop of [QmlDocVisitor::applyMetacommands]: one
    command applied to the node. *)
Definition applyMetacommand (h : nat) (d : Doc) (command : string) : M unit :=
  let args := metaCommandArgs d command in
  if String.eqb command Command.QMLABSTRACT || String.eqb command Command.ABSTRACT then
    n <- getNode h ;;
    if isQmlType n then onNode h (setAbstract true) else ret tt
  else if String.eqb command Command.DEPRECATED then
    a <- first args ;; onNode h (setDeprecated (snd a))
  else if String.eqb command Command.INQMLMODULE then
    a <- first args ;; addToQmlModule (fst a) h
  else if String.eqb command Command.QMLINHERITS then
    n <- getNode h ;;
    a <- first args ;;
    if String.eqb (name (common n)) (fst a) then
      warning (doc_location d) (TriesToInheritItself (fst a))
    else if isQmlType n then onNode h (setQmlBaseName (fst a))
    else ret tt
  else if String.eqb command Command.DEFAULT then
    n <- getNode h ;;
    if negb (isQmlProperty n) then
      warning (doc_location d) (IgnoredAppliesOnlyTo command Command.QMLPROPERTY)
    else if match args with [] => true | a :: _ => isEmpty (fst a) end then
      warning (doc_location d) (ExpectedAnArgument command Command.QMLDEFAULT)
    else
      a <- first args ;; onNode h (setDefaultValue (fst a))
  else if String.eqb command Command.QMLDEFAULT then
    onNode h markDefault
  else if String.eqb command Command.QMLENUMERATORSFROM then
    n <- getNode h ;;
    if negb (isQmlProperty n) then
      warning (doc_location d) (IgnoredAppliesOnlyTo command Command.QMLPROPERTY)
    else
      a <- first args ;;
      ok <- setEnumNode h (fst a) (snd a) ;;
      if negb ok then
        warning (doc_location d) (FailedToFindEnumeration command (fst a))
      else ret tt
  else if String.eqb command Command.QMLREADONLY then
    onNode h (markReadOnly true)
  else if String.eqb command Command.QMLREQUIRED then
    n <- getNode h ;;
    if isQmlProperty n then onNode h setRequired else ret tt
  else if String.eqb command Command.INGROUP && negb (match args with [] => true | _ => false end) then
    forEach args (fun argument => addToGroup (fst argument) h)
  else if String.eqb command Command.INTERNAL then
    onNode h (setStatus Internal)
  else if String.eqb command Command.OBSOLETE then
    onNode h (setStatus Deprecated)
  else if String.eqb command Command.PRELIMINARY then
    onNode h (setStatus Preliminary)
  else if String.eqb command Command.SINCE then
    a <- first args ;; onNode h (setSince (fst a))
  else if String.eqb command Command.WRAPPER then
    onNode h setWrapper
  else
    warning (doc_location d) (IgnoredInQmlFiles command).

(** The commands the loop runs over: those the comment uses, without
    the topics. *)
Definition metacommandsOf (d : Doc) : list string :=
  List.filter (fun c => negb (bool_decide (c ∈ m_topics src))) (metaCommandsUsed d).

(** [QmlDocVisitor::applyMetacommands]. *)
Definition applyMetacommands (h : nat) (d : Doc) : M unit :=
  forEach (metacommandsOf d) (applyMetacommand h d).

(** The part of [applyDocumentation] a topic that ends with
    "property" takes; the nodes the comment is bound to are given
    back with the new one, if any, added. *)
Definition propertyTopic (h : nat) (parent_ : option nat) (d : Doc) (t : Topic)
    (bound : list nat) : M (list nat) :=
  match QmlPropertyArguments_parse ext (m_args t) (doc_location d) with
  | Some qpa =>
      node <- getNode h ;;
      if negb (isQmlProperty node) then fault
      else if String.eqb (qpa_name qpa) (name (common node)) then
        _ <- onNode h (setDataType (qpa_type qpa)) ;; ret bound
      else
        let isAttached := contains (m_topic t) "attached" in
        match parent_ with
        | None => fault
        | Some p =>
            found <- hasQmlPropertyAttached p (qpa_name qpa) isAttached ;;
            n <- (match found with
                  | Some n => ret n
                  | None => newNode (new_QmlPropertyNode p (qpa_name qpa) (qpa_type qpa)
                                                         isAttached)
                  end) ;;
            _ <- onNode n (setIsList (qpa_isList qpa)) ;;
            _ <- onNode n (setLocation (doc_location d)) ;;
            _ <- onNode n (setDoc d) ;;
            qmlProperty <- getNode h ;;
            _ <- onNode n (markReadOnly (isReadOnly qmlProperty && negb isAttached)) ;;
            qmlProperty' <- getNode h ;;
            _ <- (if isDefaultProperty qmlProperty' then onNode n markDefault else ret tt) ;;
            ret (bound ++ [n])%list
        end
  | None => ret bound
  end.

(** The part of [applyDocumentation] a method or signal topic takes:
    the signature parser runs on a function node. *)
Definition signatureTopic (h : nat) (d : Doc) (t : Topic) : M unit :=
  node <- getNode h ;;
  if isFunction node then
    match SignatureParser.QmlSignatureParser (needSpace ext) (tokenize ext) node
            (m_args t) (doc_location d) with
    | Some fn => onNode h (fun _ => fn)
    | None => fault
    end
  else ret tt.

(** One turn of the loop over the topics. *)
Definition applyTopic (h : nat) (parent_ : option nat) (d : Doc) (t : Topic)
    (bound : list nat) : M (list nat) :=
  if endsWith (m_topic t) "property" then propertyTopic h parent_ d t bound
  else if endsWith (m_topic t) "method" || String.eqb (m_topic t) Command.QMLSIGNAL then
    _ <- signatureTopic h d t ;; ret bound
  else ret bound.

Fixpoint applyTopics (h : nat) (parent_ : option nat) (d : Doc) (ts : list Topic)
    (bound : list nat) : M (list nat) :=
  match ts with
  | [] => ret bound
  | t :: rest => bound' <- applyTopic h parent_ d t bound ;; applyTopics h parent_ d rest bound'
  end.

(** The call of [precedingComment] on the members of the visitor. *)
Definition precedingComment (offset_ : Z) : M SourceLocation :=
  fun s => match Locator.precedingComment (m_document src) (comments src)
                   (m_usedComments s) (m_lastEndOffset s) offset_ with
           | Some l => Some (l, s)
           | None => None
           end.

(** [QmlDocVisitor::applyDocumentation]; [node] is [None] for a null
    pointer. *)
Definition applyDocumentation (location_ : SourceLocation) (node : option nat) : M nat :=
  loc <- precedingComment (begin_ location_) ;;
  let comment_loc := Location_new (m_filePath src) in
  if negb (isValid loc) then
    s <- get ;;
    h <- (match node with
          | Some h => ret h
          | None => newNode (new_QmlTypeNode (m_current s) (m_name src))
          end) ;;
    let comment_loc := setLineNo (int_of_quint32 (startLine location_)) comment_loc in
    _ <- onNode h (setLocation comment_loc) ;;
    ret h
  else
    let source := mid (m_document src) (wrap32 (offset loc + 1)) (wrap32 (length_ loc - 1)) in
    let comment_loc := setLineNo (int_of_quint32 (startLine loc)) comment_loc in
    let comment_loc := setColumnNo (int_of_quint32 (startColumn loc)) comment_loc in
    let d := Doc_new ext comment_loc comment_loc source in
    s <- get ;;
    h <- (match node with
          | Some h => ret h
          | None =>
              let qmid := match metaCommandArgs d Command.INQMLMODULE with
                          | a :: _ => fst a
                          | [] => ""
                          end in
              match findQmlTypeInPrimaryTree ext (db s) qmid (m_name src) with
              | Some h => ret h
              | None =>
                  h <- newNode (new_QmlTypeNode (m_current s) (m_name src)) ;;
                  _ <- onNode h (setLocation comment_loc) ;;
                  ret h
              end
          end) ;;
    n <- getNode h ;;
    let parent_ := parent (common n) in
    _ <- onNode h (setDoc d) ;;
    bound <- applyTopics h parent_ d (topicsUsed d) [h] ;;
    _ <- forEach bound (fun b => applyMetacommands b d) ;;
    s' <- get ;;
    _ <- set_m_usedComments ({[ offset loc ]} ∪ m_usedComments s') ;;
    ret h.
End WithCollaborators.

Section Traversal.
Variable ext : Collaborators.
Variable src : Source.

(** [QmlDocVisitor::getFullyQualifiedId]: the name of the first segment
    of the qualified id, and in the loop over the following ones a dot
    and the name appended to the result; the empty string for a null
    id. *)
Fixpoint appendSegments (result : string) (id : list string) : string :=
  match id with
  | [] => result
  | n :: next => appendSegments (result ++ ("." ++ n)) next
  end.
Definition getFullyQualifiedId (id : list string) : string :=
  match id with
  | [] => ""
  | n :: next => appendSegments n next
  end.

(** [qualifiedIdToString]: the names of a qualified id joined by
    dots. *)
Definition qualifiedIdToString (id : list string) : string := String.concat "." id.

(** [Doc::isEmpty] of the documentation of a node. *)
Definition docIsEmpty (n : Node) : bool :=
  match doc (common n) with
  | Some d => isEmpty (doc_source d)
  | None => true
  end.

Definition quote : ascii := ascii_of_nat 34.

Definition visit_UiObjectDefinition (definition : UiObjectDefinition) : M bool :=
  let type := getFullyQualifiedId (od_qualifiedTypeNameId definition) in
  s <- get ;;
  _ <- set_m_nestingLevel (wrap32 (m_nestingLevel s + 1)) ;;
  cur <- getNode (m_current s) ;;
  _ <- (if isNamespace cur then
          component <- applyDocumentation ext src (od_firstSourceLocation definition) None ;;
          c <- getNode component ;;
          _ <- (if negb (docIsEmpty c) then onNode component (setQmlBaseName type)
                else ret tt) ;;
          _ <- onNode component (setTitle (m_name src)) ;;
          s' <- get ;;
          _ <- onNode component (setImportList (m_importList s')) ;;
          _ <- set_m_importList [] ;;
          set_m_current component
        else ret tt) ;;
  ret true.

Definition endVisit_UiObjectDefinition (definition : UiObjectDefinition) : M unit :=
  s <- get ;;
  _ <- (if 0 <? m_nestingLevel s then set_m_nestingLevel (wrap32 (m_nestingLevel s - 1))
        else ret tt) ;;
  set_m_lastEndOffset (end_ (od_lastSourceLocation definition)).

(** [name[0]] of an empty name reads the terminator of the string,
    which is not a quote. *)
Definition visit_UiImport (import : UiImport) : M bool :=
  let name0 := mid (m_document src) (offset (im_fileNameToken import))
                   (length_ (im_fileNameToken import)) in
  let name1 := if startsWithChar name0 quote
               then mid name0 1 (Z.of_nat (String.length name0) - 2)
               else name0 in
  let version := match im_version import with
                 | Some (firstLoc, lastLoc) =>
                     mid (m_document src) (begin_ firstLoc)
                         (wrap32 (end_ lastLoc - begin_ firstLoc))
                 | None => ""
                 end in
  let importUri := getFullyQualifiedId (im_importUri import) in
  s <- get ;;
  _ <- set_m_importList (m_importList s
                        ++ [mkImportRec name1 version importUri (im_importId import)])%list ;;
  ret true.

Definition endVisit_UiImport (definition : UiImport) : M unit :=
  set_m_lastEndOffset (end_ (im_lastSourceLocation definition)).

Definition visit_UiObjectBinding : M bool :=
  s <- get ;; _ <- set_m_nestingLevel (wrap32 (m_nestingLevel s + 1)) ;; ret true.

Definition endVisit_UiObjectBinding : M unit :=
  s <- get ;; set_m_nestingLevel (wrap32 (m_nestingLevel s - 1)).

(** The parameters of a signal: those with a type and a name. *)
Definition signalParameters (l : list (string * string)) : list FnParameter :=
  List.map (fun p => mkParameter (fst p) (snd p) "")
           (List.filter (fun p => negb (isEmpty (fst p)) && negb (isEmpty (snd p))) l).

Definition visit_UiPublicMember (member : UiPublicMember) : M bool :=
  s <- get ;;
  if 1 <? m_nestingLevel s then ret true
  else
    match um_type member with
    | Signal =>
        cur <- getNode (m_current s) ;;
        _ <- (if isQmlType cur then
                let name_ := um_name member in
                newSignal <- newNode (new_FunctionNode QmlSignal (m_current s) name_) ;;
                _ <- onNode newSignal
                       (fun f => setParameters
                                   (parametersOf f ++ signalParameters (um_parameters member))%list
                                   f) ;;
                _ <- applyDocumentation ext src (um_firstSourceLocation member)
                       (Some newSignal) ;;
                ret tt
              else ret tt) ;;
        ret true
    | Property =>
        let type := qualifiedIdToString (um_memberType member) in
        cur <- getNode (m_current s) ;;
        _ <- (if isQmlType cur then
                let name_ := um_name member in
                found <- hasQmlProperty (m_current s) name_ ;;
                qmlPropNode <- (match found with
                                | Some n => ret n
                                | None => newNode (new_QmlPropertyNode (m_current s) name_
                                                                       type false)
                                end) ;;
                _ <- onNode qmlPropNode (markReadOnly (um_isReadonly member)) ;;
                _ <- (if um_isDefaultMember member then onNode qmlPropNode markDefault
                      else ret tt) ;;
                _ <- (if isValid (um_requiredToken member) then onNode qmlPropNode setRequired
                      else ret tt) ;;
                _ <- onNode qmlPropNode (setIsList (String.eqb (um_typeModifier member) "list")) ;;
                _ <- applyDocumentation ext src (um_firstSourceLocation member)
                       (Some qmlPropNode) ;;
                ret tt
              else ret tt) ;;
        ret true
    | OtherMember => ret false
    end.

Definition endVisit_UiPublicMember (member : UiPublicMember) : M unit :=
  set_m_lastEndOffset (end_ (um_lastSourceLocation member)).

(** The parameters of a method: no type, the name of the formal, and
    the text of its initializer if it has one. *)
Definition formalParameters (l : list (string * option SourceLocation)) : list FnParameter :=
  List.map (fun fp => mkParameter "" (fst fp)
                        match snd fp with
                        | Some loc => mid (m_document src) (begin_ loc) (length_ loc)
                        | None => ""
                        end) l.

Definition visit_FunctionDeclaration (fd : FunctionDeclaration) : M bool :=
  s <- get ;;
  if m_nestingLevel s <=? 1 then
    cur <- getNode (m_current s) ;;
    if negb (isQmlType cur) then ret true
    else
      let name_ := fd_name fd in
      method <- newNode (new_FunctionNode QmlMethod (m_current s) name_) ;;
      _ <- onNode method
             (fun f => setParameters (parametersOf f ++ formalParameters (fd_formals fd))%list f) ;;
      _ <- applyDocumentation ext src (fd_firstSourceLocation fd) (Some method) ;;
      ret true
  else ret true.

Definition endVisit_FunctionDeclaration (fd : FunctionDeclaration) : M unit :=
  set_m_lastEndOffset (end_ (fd_lastSourceLocation fd)).

Definition endVisit_UiScriptBinding (lastSourceLocation : SourceLocation) : M unit :=
  set_m_lastEndOffset (end_ lastSourceLocation).

(** [QmlDocVisitor::visit], by the kind of the syntax node. *)
Definition visit (n : AstNode) : M bool :=
  match n with
  | AstObjectDefinition d => visit_UiObjectDefinition d
  | AstImport i => visit_UiImport i
  | AstObjectBinding => visit_UiObjectBinding
  | AstArrayBinding => ret true
  | AstPublicMember m => visit_UiPublicMember m
  | AstFunctionDeclaration f => visit_FunctionDeclaration f
  | AstScriptBinding _ => ret true
  | AstQualifiedId => ret true
  | AstIdentifierPropertyName => ret true
  end.

(** [QmlDocVisitor::endVisit], by the kind of the syntax node. *)
Definition endVisit (n : AstNode) : M unit :=
  match n with
  | AstObjectDefinition d => endVisit_UiObjectDefinition d
  | AstImport i => endVisit_UiImport i
  | AstObjectBinding => endVisit_UiObjectBinding
  | AstArrayBinding => ret tt
  | AstPublicMember m => endVisit_UiPublicMember m
  | AstFunctionDeclaration f => endVisit_FunctionDeclaration f
  | AstScriptBinding l => endVisit_UiScriptBinding l
  | AstQualifiedId => ret tt
  | AstIdentifierPropertyName => ret tt
  end.

Definition throwRecursionDepthError : M unit := set_hasRecursionDepthError true.
Definition hasError (s : State) : bool := hasRecursionDepthError s.

Definition step (e : Event) : M unit :=
  match e with
  | Visit n => _ <- visit n ;; ret tt
  | EndVisit n => endVisit n
  end.

(** A walk of the tree. *)
Definition walk (events : list Event) : M unit := forEach events step.
End Traversal.

(** The visitor as its constructor leaves it, on a repository and the
    root of its primary tree. *)
Definition init (r : Repository) (primaryTreeRoot : nat) : State :=
  mkState 0 0 ∅ primaryTreeRoot [] false r.

(** The vocabulary of the properties of the visitor. *)

(** The state with one node of the repository replaced. *)
Definition replaceNode (h : nat) (n : Node) (s : State) : State :=
  mkState (m_nestingLevel s) (m_lastEndOffset s) (m_usedComments s) (m_current s)
          (m_importList s) (hasRecursionDepthError s)
          (mkRepository (<[h := n]> (nodes (db s))) (qmlModules (db s)) (groups (db s))
                        (warnings (db s))).

(** The state with one more warning. *)
Definition withWarning (w : Warning) (s : State) : State :=
  mkState (m_nestingLevel s) (m_lastEndOffset s) (m_usedComments s) (m_current s)
          (m_importList s) (hasRecursionDepthError s)
          (mkRepository (nodes (db s)) (qmlModules (db s)) (groups (db s))
                        (warnings (db s) ++ [w])).

(** The commands that apply to one kind of node only, on a node of
    another kind. *)
Definition misapplied (command : string) (n : Node) : bool :=
  ((String.eqb command Command.ABSTRACT || String.eqb command Command.QMLABSTRACT
    || String.eqb command Command.QMLINHERITS) && negb (isQmlType n))
  || ((String.eqb command Command.QMLREQUIRED || String.eqb command Command.DEFAULT
       || String.eqb command Command.QMLENUMERATORSFROM) && negb (isQmlProperty n)).

(** Those of them whose misuse is reported. *)
Definition reportsMisuse (command : string) : bool :=
  String.eqb command Command.DEFAULT || String.eqb command Command.QMLENUMERATORSFROM.

(** The commands that read their first argument without a test. *)
Definition readsFirstArgument (command : string) (n : Node) : bool :=
  String.eqb command Command.DEPRECATED || String.eqb command Command.INQMLMODULE
  || String.eqb command Command.QMLINHERITS || String.eqb command Command.SINCE
  || (String.eqb command Command.QMLENUMERATORSFROM && isQmlProperty n).

(** The used comments only grow; the used comments are the same. *)
Definition keepsUsed (s s' : State) : Prop := m_usedComments s ⊆ m_usedComments s'.
Definition sameUsed (s s' : State) : Prop := m_usedComments s' = m_usedComments s.

(** Where a step returns, the state it returns in is related to the
    one it started in. *)
Definition preserves {A} (R : State -> State -> Prop) (m : M A) : Prop :=
  forall s a s', m s = Some (a, s') -> R s s'.

End Visitor.

(** ** Inputs of the examples *)

Module Examples.

(** A document with a plain block comment, a documentation comment and
    an object; the lexer gives the text between the comment marks. *)
Definition document : string := "/* a *//*! b */ Item {}".
Definition plainComment : SourceLocation := mkSourceLocation 2 3 1 3.
Definition docComment : SourceLocation := mkSourceLocation 9 4 1 10.

(** The signature of the design document, and the same with the
    qualifiers after the name of the type. *)
Definition signature_const : string := "void foo(int a, const Bar &b = Bar(1,2))".
Definition signature_postfix : string := "void foo(int a, Bar const &b = Bar(1,2))".

(** A signature whose parameter list is not closed, and one without a
    parameter list. *)
Definition signature_unterminated : string := "foo(int a".
Definition signature_noParen : string := "foo".

(** A repository: the root of the primary tree, a QML type under it, a
    property and a method of the type. *)
Definition root : Node := mkNode (newCommon None "") NamespaceNode.
Definition item : Node := new_QmlTypeNode 0 "Item".
Definition width : Node := markDefault (markReadOnly true (new_QmlPropertyNode 1 "width" "int" false)).
Definition foo : Node :=
  setParameters [mkParameter "" "x" ""] (setReturnType "int" (new_FunctionNode QmlMethod 1 "foo")).
Definition repository : Repository := mkRepository [root; item; width; foo] [] [] [].

(** Collaborators: a comment parser that finds no topic and no command,
    a property topic that names the property by its whole text, no type
    and no enumeration known to the repository, the tokenizer modelled
    above and a blank between two words. *)
Definition collaborators : Collaborators :=
  mkCollaborators
    (fun start _ text => mkDoc start text [] [] ∅)
    (fun text _ => Some (mkQmlPropertyArguments text "real" false))
    (fun _ _ _ => None)
    (fun _ => false)
    Tokenizer.tokenize
    (fun a b => Tokenizer.isWordChar a && Tokenizer.isWordChar b).

Definition source : Source :=
  mkSource "Item.qml" "Item" document [plainComment; docComment] ["qmlproperty"; "qmlmethod"].

(** The visitor inside the type, at the public level. *)
Definition visitor : Visitor.State := Visitor.mkState 1 0 ∅ 1 [] false repository.

(** The visitor inside an object nested in the type. *)
Definition nestedVisitor : Visitor.State := Visitor.mkState 2 0 ∅ 1 [] false repository.

(** Where the object starts, and a place before the comments. *)
Definition objectLocation : SourceLocation := mkSourceLocation 16 7 1 17.
Definition topLocation : SourceLocation := mkSourceLocation 1 1 1 2.

(** A property and a function declared in the document. *)
Definition heightMember : UiPublicMember :=
  mkUiPublicMember Property "height" [] ["int"] false false SourceLocation_null ""
                   objectLocation objectLocation.
Definition barDeclaration : FunctionDeclaration :=
  mkFunctionDeclaration "bar" [("x", None)] objectLocation objectLocation.

(** A documentation block with one topic, and one with one command. *)
Definition docOfTopic (topic args : string) : Doc :=
  mkDoc (Location_new "Item.qml") "text" [mkTopic topic args] [] ∅.
Definition docOfCommand (command : string) (args : ArgList) : Doc :=
  mkDoc (Location_new "Item.qml") "text" [] [command] {[ command := args ]}.

End Examples.

(** ** Token sequences of signatures *)

Module Signature.

(** The parser with the tokens [ts] left, the first of them being the
    current one; [prev] is the lexeme read before it and [pd], [bd] are
    the depths the tokenizer is at. *)
Definition positioned (ts : list Token) (prev : string) (pd bd : Z)
    (names : list string) (func : Node) : SignatureParser.State :=
  match ts with
  | t :: rest =>
      SignatureParser.mkState (Tokenizer.mk rest (lex t) prev pd bd) (kind t) names func
  | [] => SignatureParser.mkState (Tokenizer.mk [] "" prev pd bd) Tok_Eoi names func
  end.

(** The test [matchFunctionDecl] makes on the text of the signature
    before it reads a return type. *)
Definition hasReturnType (signature_ : string) : bool :=
  (0 <? indexOf signature_ " "%char)
  && (1 <? indexOf signature_ "("%char - indexOf signature_ " "%char).

Definition ident (l : string) : Token := mkToken Tok_Ident l.
Definition comma : Token := mkToken Tok_Comma ",".
Definition leftParen : Token := mkToken Tok_LeftParen "(".
Definition rightParen : Token := mkToken Tok_RightParen ")".
Definition scope : Token := mkToken Tok_Gulbrandsen "::".
Definition equal : Token := mkToken Tok_Equal "=".

(** The tokens of a parameter given by a type and a name, or by a name
    alone when the type is empty. *)
Definition oneParameter (p : string * string) : list Token :=
  if isEmpty (fst p) then [ident (snd p)] else [ident (fst p); ident (snd p)].

(** The tokens of parameters, with commas between them. *)
Fixpoint parameterTokens (ps : list (string * string)) : list Token :=
  match ps with
  | [] => []
  | p :: rest =>
      (oneParameter p
       ++ match rest with
          | [] => []
          | _ :: _ => comma :: parameterTokens rest
          end)%list
  end.

(** The tokens of the qualifiers of a name. *)
Fixpoint qualifierTokens (qs : list string) : list Token :=
  match qs with
  | [] => []
  | q :: rest => ident q :: scope :: qualifierTokens rest
  end.

(** The tokens of a declaration of a function by its qualifiers, its
    name and its parameters, without a return type. *)
Definition declarationTokens (qs : list string) (f : string) (ps : list (string * string))
    : list Token :=
  (qualifierTokens qs ++ ident f :: leftParen :: parameterTokens ps ++ [rightParen])%list.

(** A token that can stand in a default value outside parentheses. *)
Definition plainToken (t : Token) : bool :=
  negb (bool_decide (kind t = Tok_LeftParen)) && negb (bool_decide (kind t = Tok_RightParen))
  && negb (bool_decide (kind t = Tok_Comma)) && negb (bool_decide (kind t = Tok_Eoi)).

(** The function node with one more parameter of a type and a name. *)
Definition addParameter (f : Node) (p : string * string) : Node :=
  setParameters (parametersOf f ++ [mkParameter (fst p) (snd p) ""])%list f.

(** The second node is the first with, at most, another list of
    parameters. *)
Definition parametersChanged (n n' : Node) : Prop :=
  n' = n \/ exists l, n' = setParameters l n.

(** What is left to read has not grown and the function node has, at
    most, another list of parameters. *)
Definition fills (s s' : SignatureParser.State) : Prop :=
  (SignatureParser.measure s' <= SignatureParser.measure s)%nat
  /\ parametersChanged (SignatureParser.func_ s) (SignatureParser.func_ s').

(** The depths of the tokenizer after a token of a kind is read. *)
Definition parenAfter (d : Z) (k : Tok) : Z :=
  match k with
  | Tok_LeftParen => d + 1
  | Tok_RightParen => d - 1
  | _ => d
  end.
Definition bracketAfter (d : Z) (k : Tok) : Z :=
  match k with
  | Tok_LeftBracket => d + 1
  | Tok_RightBracket => d - 1
  | _ => d
  end.

(** The test of the loop over a default value, on the current token and
    the depth the tokenizer is at. *)
Definition continues (d0 d : Z) (t : Token) : bool :=
  (d0 <=? d) && (bool_decide (kind t <> Tok_Comma) || (d0 <? d))
  && bool_decide (kind t <> Tok_Eoi).

(** The test holds on a token and on those after it, each at its
    depth. *)
Fixpoint allContinue (d0 d : Z) (v : Token) (vs : list Token) : bool :=
  continues d0 d v
  && match vs with
     | [] => true
     | v' :: vs' => allContinue d0 (parenAfter d (kind v')) v' vs'
     end.

(** Tokens with balanced parentheses, [d] of them open before the
    first: no parenthesis closes one that was not opened, every comma is
    inside parentheses, and none is left open at the end. *)
Fixpoint nested (d : Z) (ts : list Token) : bool :=
  match ts with
  | [] => d =? 0
  | t :: rest =>
      let d' := parenAfter d (kind t) in
      (0 <=? d') && (bool_decide (kind t <> Tok_Comma) || (0 <? d'))
      && bool_decide (kind t <> Tok_Eoi) && nested d' rest
  end.

(** The tokens of a declaration of a function with one parameter that
    has a type, a name and a default value. *)
Definition defaultedTokens (f t n : string) (v : Token) (vs : list Token) : list Token :=
  (ident f :: leftParen :: ident t :: ident n :: equal :: v :: vs ++ [rightParen])%list.

(** The tokens of a declaration with or without a return type, which is
    one identifier. *)
Definition typedDeclarationTokens (returnType_ : option string) (qs : list string)
    (f : string) (ps : list (string * string)) : list Token :=
  match returnType_ with
  | Some r => ident r :: declarationTokens qs f ps
  | None => declarationTokens qs f ps
  end.

End Signature.

(** ** What the visitor keeps *)

Module Frame.

(** The commands the interpreter knows. *)
Definition recognized : list string :=
  [Command.QMLABSTRACT; Command.ABSTRACT; Command.DEPRECATED; Command.INQMLMODULE;
   Command.QMLINHERITS; Command.DEFAULT; Command.QMLDEFAULT; Command.QMLENUMERATORSFROM;
   Command.QMLREADONLY; Command.QMLREQUIRED; Command.INGROUP; Command.INTERNAL;
   Command.OBSOLETE; Command.PRELIMINARY; Command.SINCE; Command.WRAPPER].

(** The status a status command sets. *)
Definition statusOf (command : string) : option Status :=
  if String.eqb command Command.INTERNAL then Some Internal
  else if String.eqb command Command.OBSOLETE then Some Deprecated
  else if String.eqb command Command.PRELIMINARY then Some Preliminary
  else None.

(** The state with a node registered in groups. *)
Definition withGroups (l : list (string * nat)) (s : Visitor.State) : Visitor.State :=
  Visitor.mkState (Visitor.m_nestingLevel s) (Visitor.m_lastEndOffset s)
    (Visitor.m_usedComments s) (Visitor.m_current s) (Visitor.m_importList s)
    (Visitor.hasRecursionDepthError s)
    (mkRepository (nodes (Visitor.db s)) (qmlModules (Visitor.db s))
                  (groups (Visitor.db s) ++ l) (warnings (Visitor.db s))).

(** The state with one more node. *)
Definition withNewNode (n : Node) (s : Visitor.State) : Visitor.State :=
  Visitor.mkState (Visitor.m_nestingLevel s) (Visitor.m_lastEndOffset s)
    (Visitor.m_usedComments s) (Visitor.m_current s) (Visitor.m_importList s)
    (Visitor.hasRecursionDepthError s)
    (mkRepository (nodes (Visitor.db s) ++ [n]) (qmlModules (Visitor.db s))
                  (groups (Visitor.db s)) (warnings (Visitor.db s))).

(** The members of the visitor other than the used comments are the
    same. *)
Definition sameMembers (s s' : Visitor.State) : Prop :=
  Visitor.m_nestingLevel s' = Visitor.m_nestingLevel s
  /\ Visitor.m_lastEndOffset s' = Visitor.m_lastEndOffset s
  /\ Visitor.m_current s' = Visitor.m_current s
  /\ Visitor.m_importList s' = Visitor.m_importList s
  /\ Visitor.hasRecursionDepthError s' = Visitor.hasRecursionDepthError s.

(** Two nodes of the same variant (for properties, attached or not alike;
    for functions, of the same metaness). *)
Definition sameKind (n n' : Node) : Prop :=
  match variant n, variant n' with
  | NamespaceNode, NamespaceNode => True
  | QmlTypeNode _, QmlTypeNode _ => True
  | QmlPropertyNode a, QmlPropertyNode a' => attached a' = attached a
  | FunctionNode a, FunctionNode a' => metaness a' = metaness a
  | _, _ => False
  end.

(** The second node is the first one, edited: the same name, parent and
    variant. *)
Definition sameIdentity (n n' : Node) : Prop :=
  name (common n') = name (common n)
  /\ parent (common n') = parent (common n)
  /\ sameKind n n'.

(** Every node of the first state is in the second, under the same
    handle, as the same node, edited. *)
Definition keepsNodes (s s' : Visitor.State) : Prop :=
  forall h n, nodes (Visitor.db s) !! h = Some n ->
              exists n', nodes (Visitor.db s') !! h = Some n' /\ sameIdentity n n'.

(** Nothing but the node [h] and the repository's registers and warnings
    has changed. *)
Definition editsNode (h : nat) (s s' : Visitor.State) : Prop :=
  List.length (nodes (Visitor.db s')) = List.length (nodes (Visitor.db s))
  /\ (forall h', h' <> h -> nodes (Visitor.db s') !! h' = nodes (Visitor.db s) !! h')
  /\ sameMembers s s'
  /\ Visitor.m_usedComments s' = Visitor.m_usedComments s.

(** The binder's frame: the nodes are kept and the members are the
    same. *)
Definition binds (s s' : Visitor.State) : Prop := keepsNodes s s' /\ sameMembers s s'.

(** The walk's frame: the nodes are kept and the error flag is the
    same. *)
Definition walks (s s' : Visitor.State) : Prop :=
  keepsNodes s s' /\ Visitor.hasError s' = Visitor.hasError s.

(** A syntax tree: a node and its children. *)
#[warnings="-register-all"] Inductive Tree := TreeNode (n : AstNode) (children : list Tree).

(** Modelled from the spec: the depth-first walk of the syntax tree by
    the visitor protocol of the QML parser ([Node::accept]): the visit
    of the node, the walks of the children in order if the visit
    returned true, and the end of the visit. *)
Fixpoint accept (ext : Collaborators) (src : Source) (t : Tree) : Visitor.M unit :=
  match t with
  | TreeNode n children =>
      Visitor.bind (Visitor.visit ext src n) (fun descend =>
      Visitor.bind (if descend
                    then (fix acceptAll (l : list Tree) : Visitor.M unit :=
                            match l with
                            | [] => Visitor.ret tt
                            | c :: rest =>
                                Visitor.bind (accept ext src c) (fun _ => acceptAll rest)
                            end) children
                    else Visitor.ret tt) (fun _ =>
      Visitor.endVisit n))
  end.

(** The node at the root of a tree. *)
Definition rootOf (t : Tree) : AstNode :=
  match t with TreeNode n _ => n end.

(** The walks of a list of trees, one after the other. *)
Definition acceptAll (ext : Collaborators) (src : Source) (l : list Tree) : Visitor.M unit :=
  Visitor.forEach l (accept ext src).

(** By how much the visit of a node deepens the nesting. *)
Definition deepens (n : AstNode) : Z :=
  match n with
  | AstObjectDefinition _ => 1
  | AstObjectBinding => 1
  | _ => 0
  end.

(** How deep the objects of a tree are nested: by how many levels the
    walk of the tree deepens the nesting at most. *)
Fixpoint depthOf (t : Tree) : Z :=
  match t with
  | TreeNode n children =>
      deepens n + fold_right (fun c d => Z.max (depthOf c) d) 0 children
  end.
Definition deepest (l : list Tree) : Z :=
  fold_right (fun c d => Z.max (depthOf c) d) 0 l.

(** A tree whose root is an object. *)
Definition isObject (t : Tree) : bool :=
  match t with
  | TreeNode (AstObjectDefinition _) _ => true
  | TreeNode AstObjectBinding _ => true
  | _ => false
  end.

(** The repository, the used comments, the nesting level and the
    current scope are the same. *)
Definition untouched (s s' : Visitor.State) : Prop :=
  Visitor.db s' = Visitor.db s
  /\ Visitor.m_usedComments s' = Visitor.m_usedComments s
  /\ Visitor.m_nestingLevel s' = Visitor.m_nestingLevel s
  /\ Visitor.m_current s' = Visitor.m_current s.

(** The scope the visitor is in is not the root namespace. *)
Definition insideType (s : Visitor.State) : bool :=
  match nodes (Visitor.db s) !! Visitor.m_current s with
  | Some cur => negb (isNamespace cur)
  | None => false
  end.

(** The import a visit of an import declaration records. *)
Definition importOf (src : Source) (import : UiImport) : ImportRec :=
  let name0 := mid (m_document src) (offset (im_fileNameToken import))
                   (length_ (im_fileNameToken import)) in
  mkImportRec (if startsWithChar name0 Visitor.quote
               then mid name0 1 (Z.of_nat (String.length name0) - 2)
               else name0)
              (match im_version import with
               | Some (firstLoc, lastLoc) =>
                   mid (m_document src) (begin_ firstLoc)
                       (wrap32 (end_ lastLoc - begin_ firstLoc))
               | None => ""
               end)
              (Visitor.getFullyQualifiedId (im_importUri import))
              (im_importId import).

(** The node of a component without documentation. *)
Definition undocumentedComponent (src : Source) (scope : nat) (line : Z)
    (imports : list ImportRec) : Node :=
  mkNode (mkCommon (m_name src) (Some scope)
            (Some (setLineNo line (Location_new (m_filePath src)))) None Active "" "")
         (QmlTypeNode (mkTypeAttrs "" false false (m_name src) imports)).

(** The title, the imports and the base type of a type node. *)
Definition titleOf (n : Node) : string :=
  match variant n with QmlTypeNode t => title t | _ => "" end.
Definition importsOf (n : Node) : list ImportRec :=
  match variant n with QmlTypeNode t => importList t | _ => [] end.
Definition baseOf (n : Node) : string :=
  match variant n with QmlTypeNode t => qmlBaseName t | _ => "" end.

(** The nesting level is the same. *)
Definition sameLevel (s s' : Visitor.State) : Prop :=
  Visitor.m_nestingLevel s' = Visitor.m_nestingLevel s.

Definition undocumentedSignal (src : Source) (scope : nat) (member : UiPublicMember) : Node :=
  setLocation (setLineNo (int_of_quint32 (startLine (um_firstSourceLocation member)))
                         (Location_new (m_filePath src)))
    (setParameters (Visitor.signalParameters (um_parameters member))
       (new_FunctionNode QmlSignal scope (um_name member))).

(** The visitor as the visit of the root object leaves it, with the
    component a new node. *)
Definition enteredComponent (component : Node) (s : Visitor.State) : Visitor.State :=
  Visitor.mkState (wrap32 (Visitor.m_nestingLevel s + 1)) (Visitor.m_lastEndOffset s)
    (Visitor.m_usedComments s) (List.length (nodes (Visitor.db s))) []
    (Visitor.hasRecursionDepthError s)
    (mkRepository (nodes (Visitor.db s) ++ [component]) (qmlModules (Visitor.db s))
                  (groups (Visitor.db s)) (warnings (Visitor.db s))).

(** The calls the walk of import declarations makes on the visitor. *)
Definition importEvents (imports : list UiImport) : list Event :=
  flat_map (fun i => [Visit (AstImport i); EndVisit (AstImport i)]) imports.

End Frame.

(** ** Further inputs of the examples *)

Module Samples.

(** The visitor as its constructor leaves it on the repository of the
    examples: at level 0, in the root namespace. *)
Definition rootVisitor : Visitor.State := Visitor.init Examples.repository 0.

(** The root object of the document, after the documentation comment,
    and an object placed before the comments. *)
Definition documentedObject : UiObjectDefinition :=
  mkUiObjectDefinition ["QtQuick"; "Item"] Examples.objectLocation Examples.objectLocation.
Definition undocumentedObject : UiObjectDefinition :=
  mkUiObjectDefinition ["Item"] Examples.topLocation Examples.topLocation.

(** A signal with a parameter that has a type and a name, one without a
    type and one without a name. *)
Definition clicked : UiPublicMember :=
  mkUiPublicMember Signal "clicked" [("int", "x"); ("", "y"); ("real", "")] [] false false
                   SourceLocation_null "" Examples.topLocation Examples.topLocation.


(** An import declaration. *)
Definition qtQuick : UiImport :=
  mkUiImport SourceLocation_null None ["QtQuick"] "" Examples.topLocation.

(** An object with a property, and a function with an object binding in
    it. *)
Definition object : Frame.Tree :=
  Frame.TreeNode (AstObjectDefinition documentedObject)
    [Frame.TreeNode (AstPublicMember Examples.heightMember) [];
     Frame.TreeNode (AstFunctionDeclaration Examples.barDeclaration)
       [Frame.TreeNode AstObjectBinding []]].

(** The tokens of the signatures of the examples. *)
Definition declaration : list Token :=
  Signature.typedDeclarationTokens (Some "int") ["Ns"] "f" [("int", "a"); ("", "b")].
Definition callAsDefault : list Token :=
  [Signature.leftParen; Signature.ident "c"; Signature.rightParen].

(** A document with two documentation comments, each before an
    object. *)
Definition twoObjects : string := "/*! a */ X {} /*! b */ Y {}".
Definition firstComment : SourceLocation := mkSourceLocation 2 4 1 3.
Definition secondComment : SourceLocation := mkSourceLocation 16 4 1 17.

(** Collaborators whose comment parser finds one property topic, which
    names the property [height]. *)
Definition topicCollaborators : Collaborators :=
  mkCollaborators
    (fun start _ text => mkDoc start text [mkTopic "qmlproperty" "height"] [] ∅)
    (QmlPropertyArguments_parse Examples.collaborators)
    (findQmlTypeInPrimaryTree Examples.collaborators)
    (findEnumeration Examples.collaborators)
    (tokenize Examples.collaborators)
    (needSpace Examples.collaborators).

End Samples.

(** * Properties *)

(** ** The comment locator *)

Section LocatorFacts.
Import Locator.
Variables (doc : string) (used : gset Z) (last_end offset_ : Z).

Lemma get_lt (s : string) (n : nat) :
  (n < String.length s)%nat -> is_Some (String.get n s).
Proof.
  revert n; induction s as [|a s IH]; intros [|n] Hn; simpl in *; try lia; eauto.
  apply IH; lia.
Qed.

Lemma at_inside (c : SourceLocation) :
  insideDocument doc c -> is_Some (at_ doc (wrap32 (offset c - 1))).
Proof.
  intros [[Hlo Hhi] Hmax]. unfold at_, wrap32, quint32_mod in *.
  rewrite Z.mod_small by lia.
  destruct (Z.ltb_spec (offset c - 1) 0); [lia|].
  apply get_lt. lia.
Qed.

Lemma scan_stale (c : SourceLocation) (rest : list SourceLocation) :
  stale used last_end c ->
  scan doc used last_end offset_ (c :: rest) = Some SourceLocation_null.
Proof.
  intros [H|H]; simpl.
  - destruct (Z.leb_spec (begin_ c) last_end); [reflexivity|lia].
  - destruct (Z.leb_spec (begin_ c) last_end); [reflexivity|].
    rewrite bool_decide_eq_true_2 by exact H. reflexivity.
Qed.

Lemma scan_take (c : SourceLocation) (rest : list SourceLocation) :
  ~ stale used last_end c -> qualifies doc last_end offset_ c ->
  scan doc used last_end offset_ (c :: rest) = Some c.
Proof.
  intros Hs (Hlo & Hhi & Hat & Hbody). simpl.
  destruct (Z.leb_spec (begin_ c) last_end); [lia|].
  rewrite bool_decide_eq_false_2 by (intros Hin; apply Hs; right; exact Hin).
  destruct (Z.ltb_spec last_end (begin_ c)); [|lia].
  destruct (Z.ltb_spec (end_ c) offset_); [|lia].
  simpl. rewrite Hat. unfold star at 1. rewrite Ascii.eqb_refl.
  destruct Hbody as [-> | ->]; [reflexivity|].
  rewrite orb_true_r. reflexivity.
Qed.

Lemma scan_skip (c r : SourceLocation) (rest : list SourceLocation) :
  ~ stale used last_end c -> ~ qualifies doc last_end offset_ c ->
  scan doc used last_end offset_ (c :: rest) = Some r ->
  scan doc used last_end offset_ rest = Some r.
Proof.
  intros Hs Hq. simpl.
  destruct (Z.leb_spec (begin_ c) last_end); [exfalso; apply Hs; left; lia|].
  case_bool_decide as Hin; [exfalso; apply Hs; right; exact Hin|].
  destruct (Z.ltb_spec last_end (begin_ c)); [|lia].
  destruct (Z.ltb_spec (end_ c) offset_); simpl; [|trivial].
  destruct (at_ doc (wrap32 (offset c - 1))) as [a|] eqn:Hat; [|discriminate].
  destruct (Ascii.eqb a star) eqn:Ha; [|trivial].
  apply Ascii.eqb_eq in Ha; subst a.
  destruct (startsWithChar _ bang || startsWithChar _ star) eqn:Hb; [|trivial].
  exfalso; apply Hq. repeat split; try assumption.
  apply orb_true_iff in Hb. exact Hb.
Qed.

Lemma scan_sound (l : list SourceLocation) (r : SourceLocation) :
  scan doc used last_end offset_ l = Some r -> isValid r = true ->
  r ∈ l /\ qualifies doc last_end offset_ r /\ ~ stale used last_end r.
Proof.
  induction l as [|c rest IH]; simpl; intros H Hv.
  - inversion H; subst; discriminate.
  - assert (Hrest : scan doc used last_end offset_ rest = Some r ->
                    r ∈ c :: rest /\ qualifies doc last_end offset_ r
                    /\ ~ stale used last_end r).
    { intros H'. destruct (IH H' Hv) as (? & ? & ?).
      split; [apply list_elem_of_further; assumption|tauto]. }
    destruct (Z.leb_spec (begin_ c) last_end); [inversion H; subst; discriminate|].
    case_bool_decide as Hin; [inversion H; subst; discriminate|].
    destruct (Z.ltb_spec last_end (begin_ c)); [|lia].
    destruct (Z.ltb_spec (end_ c) offset_); simpl in H; [|auto].
    destruct (at_ doc (wrap32 (offset c - 1))) as [a|] eqn:Hat; [|discriminate].
    destruct (Ascii.eqb a star) eqn:Ha; [|auto].
    apply Ascii.eqb_eq in Ha; subst a.
    destruct (startsWithChar _ bang || startsWithChar _ star) eqn:Hb; [|auto].
    inversion H; subst r. apply orb_true_iff in Hb.
    split; [apply list_elem_of_here|split]; [repeat split; assumption|].
    intros [Hst|Hst]; [lia|contradiction].
Qed.

Lemma substring_none (n : nat) (s : string) : String.substring n 0 s = "".
Proof. revert s; induction n as [|n IH]; intros [|a s]; simpl; auto. Qed.

Lemma starts_valid (c : SourceLocation) :
  startsWithChar (mid doc (offset c) (length_ c)) bang
  || startsWithChar (mid doc (offset c) (length_ c)) star = true ->
  isValid c = true.
Proof.
  intros H. unfold isValid, SourceLocation_eqb. simpl.
  destruct (Z.eqb_spec (length_ c) 0) as [E|_].
  - unfold mid in H. rewrite E in H. simpl in H. rewrite substring_none in H. discriminate.
  - rewrite andb_false_r. reflexivity.
Qed.

(** What the scan returns is the null location or a valid one. *)
Lemma scan_valid (l : list SourceLocation) (r : SourceLocation) :
  scan doc used last_end offset_ l = Some r ->
  r = SourceLocation_null \/ isValid r = true.
Proof.
  induction l as [|c rest IH]; simpl; intros H.
  - left. congruence.
  - destruct (begin_ c <=? last_end); [left; congruence|].
    destruct (bool_decide _); [left; congruence|].
    destruct (_ && _); [|auto].
    destruct (at_ doc (wrap32 (offset c - 1))) as [a|]; [|discriminate].
    destruct (Ascii.eqb a star); [|auto].
    destruct (startsWithChar _ bang || startsWithChar _ star) eqn:Hb; [|auto].
    right. inversion H; subst r. apply starts_valid. exact Hb.
Qed.

Lemma scan_skip_all (l1 l2 : list SourceLocation) (r : SourceLocation) :
  Forall (fun x => ~ stale used last_end x /\ ~ qualifies doc last_end offset_ x) l1 ->
  scan doc used last_end offset_ (l1 ++ l2) = Some r ->
  scan doc used last_end offset_ l2 = Some r.
Proof.
  induction 1 as [|x l1 [Hs Hq] _ IH]; intros H; [exact H|].
  apply IH. eapply scan_skip; eassumption.
Qed.

Lemma scan_total (l : list SourceLocation) :
  Forall (insideDocument doc) l -> is_Some (scan doc used last_end offset_ l).
Proof.
  induction 1 as [|c rest Hc _ IH]; simpl; [eauto|].
  destruct (begin_ c <=? last_end); [eauto|].
  destruct (bool_decide _); [eauto|].
  destruct (_ && _); [|exact IH].
  destruct (at_inside c Hc) as [a ->].
  destruct (Ascii.eqb a star); [|exact IH].
  destruct (_ || _); [eauto|exact IH].
Qed.
End LocatorFacts.

(** C1. The comment locator, for every document, comment list, used
    set, [last_end] cursor and construct offset: on comments that lie
    inside the document it returns; what it returns is the null location
    or a valid comment of the list, and a comment only if that comment
    starts after [last_end], ends before the offset and is a block
    comment whose body begins with [!] or [*] (and its start is not in
    the used set); scanning backward from the last comment it returns the
    first comment that qualifies, and it returns none as soon as the scan
    reaches a comment that starts at or before [last_end] or whose start
    is in the used set, or when the comments run out. *)
Theorem precedingComment_first_eligible
    (doc : string) (comments : list SourceLocation) (used : gset Z)
    (last_end offset_ : Z) :
  (Forall (Locator.insideDocument doc) comments ->
   is_Some (Locator.precedingComment doc comments used last_end offset_)) /\
  forall r, Locator.precedingComment doc comments used last_end offset_ = Some r ->
    (r = SourceLocation_null \/
     isValid r = true /\ r ∈ comments /\ Locator.qualifies doc last_end offset_ r
     /\ ~ Locator.stale used last_end r) /\
    (forall before c after, comments = (before ++ c :: after)%list ->
       Forall (fun x => ~ Locator.stale used last_end x
                        /\ ~ Locator.qualifies doc last_end offset_ x) after ->
       (Locator.stale used last_end c -> r = SourceLocation_null) /\
       (~ Locator.stale used last_end c -> Locator.qualifies doc last_end offset_ c ->
        r = c)) /\
    (Forall (fun x => ~ Locator.stale used last_end x
                      /\ ~ Locator.qualifies doc last_end offset_ x) comments ->
     r = SourceLocation_null).
Proof.
  unfold Locator.precedingComment. split.
  - intros H. apply scan_total. apply Forall_rev. exact H.
  - intros r Hr. split; [|split].
    + destruct (scan_valid _ _ _ _ _ _ Hr) as [Hnull|Hv]; [left; exact Hnull|right].
      destruct (scan_sound _ _ _ _ _ _ Hr Hv) as (Hin & Hq & Hs).
      split; [exact Hv|]. split; [|tauto].
      apply list_elem_of_In, in_rev, list_elem_of_In. exact Hin.
    + intros before c after -> Hafter.
      rewrite rev_app_distr in Hr. simpl in Hr. rewrite <- app_assoc in Hr. simpl in Hr.
      apply scan_skip_all in Hr; [|apply Forall_rev; exact Hafter].
      split.
      * intros Hs. rewrite scan_stale in Hr by exact Hs. congruence.
      * intros Hs Hq. rewrite scan_take in Hr by assumption. congruence.
    + intros Hall. apply Forall_rev in Hall.
      rewrite <- (app_nil_r (rev comments)) in Hr.
      apply scan_skip_all in Hr; [|exact Hall]. simpl in Hr. congruence.
Qed.

(** ** The signature parser *)

Section ParserFacts.
Import SignatureParser.

Lemma reads_refl s : reads s s.
Proof. split; [lia|reflexivity]. Qed.

Lemma reads_trans s1 s2 s3 : reads s1 s2 -> reads s2 s3 -> reads s1 s3.
Proof. intros [? ?] [? ?]; split; [lia|congruence]. Qed.

Lemma reads_advances s s' : reads s s' -> advances s s'.
Proof. intros [? _]; assumption. Qed.

Lemma advances_refl s : advances s s.
Proof. unfold advances; lia. Qed.

Lemma advances_trans s1 s2 s3 : advances s1 s2 -> advances s2 s3 -> advances s1 s3.
Proof. unfold advances; lia. Qed.

Lemma bind_returns {A B} (m : P A) (k : A -> P B) (s s1 : State) (a : A)
    (Q : B -> State -> Prop) :
  m s = Some (a, s1) ->
  (exists b s', k a s1 = Some (b, s') /\ Q b s') ->
  exists b s', bind m k s = Some (b, s') /\ Q b s'.
Proof. intros Hm H. unfold bind. rewrite Hm. exact H. Qed.

(** Reading a token that is not the end of the input leaves less to
    read. *)
Lemma readToken_spec (s : State) :
  exists s', readToken s = Some (tt, s') /\ func_ s' = func_ s /\ names_ s' = names_ s /\
             (measure s' <= measure s)%nat /\
             (tok_ s <> Tok_Eoi -> (measure s' < measure s)%nat).
Proof.
  unfold readToken, Tokenizer.getToken, measure.
  destruct s as [[pend l pl pd bd] t ns f]; simpl.
  destruct pend as [|tk rest]; simpl.
  - eexists; split; [reflexivity|]. simpl.
    split; [reflexivity|]. split; [reflexivity|]. split.
    + case_bool_decide; lia.
    + intros Ht. rewrite bool_decide_eq_false_2 by exact Ht. lia.
  - eexists; split; [reflexivity|]. simpl.
    split; [reflexivity|]. split; [reflexivity|]. split.
    + repeat case_bool_decide; lia.
    + intros Ht. rewrite (bool_decide_eq_false_2 (t = Tok_Eoi)) by exact Ht.
      case_bool_decide; lia.
Qed.

Lemma match_spec (target : Tok) (s : State) :
  target <> Tok_Eoi ->
  exists b s', match_ target s = Some (b, s') /\ reads s s' /\ names_ s' = names_ s /\
               (b = true -> (measure s' < measure s)%nat) /\
               (b = false -> s' = s).
Proof.
  intros Ht. unfold match_, bind, getTok.
  case_bool_decide as Heq.
  - destruct (readToken_spec s) as (s' & -> & Hf & Hn & Hle & Hlt).
    exists true, s'. unfold ret. repeat split; try assumption.
    + intros _. apply Hlt. congruence.
    + discriminate.
  - exists false, s. unfold ret. repeat split; try lia; discriminate.
Qed.

Lemma matchAny_spec (targets : list Tok) (s : State) :
  Forall (fun t => t <> Tok_Eoi) targets ->
  exists b s', matchAny targets s = Some (b, s') /\ reads s s' /\ names_ s' = names_ s /\
               (b = true -> (measure s' < measure s)%nat) /\
               (b = false -> s' = s).
Proof.
  induction 1 as [|t rest Ht _ IH]; simpl.
  - exists false, s. unfold ret. repeat split; try lia; discriminate.
  - destruct (match_spec t s Ht) as (b & s1 & Hm & Hr & Hn & Hlt & Hsame).
    unfold bind. rewrite Hm. destruct b.
    + exists true, s1. unfold ret.
      repeat split; try assumption; try apply Hr; try discriminate.
    + rewrite (Hsame eq_refl). exact IH.
Qed.

(** The rule of a loop: if every turn returns, keeps the relation and,
    when it asks for another turn, has read a token, the loop returns
    and keeps the relation. *)
Lemma loop_returns {A B} (R : State -> State -> Prop) (body : A -> P (Ctl A B)) :
  (forall s, R s s) -> (forall s1 s2 s3, R s1 s2 -> R s2 s3 -> R s1 s3) ->
  (forall s s', R s s' -> (measure s' <= measure s)%nat) ->
  (forall a s, exists c s', body a s = Some (c, s') /\ R s s' /\
                 (forall a', c = Continue a' -> (measure s' < measure s)%nat)) ->
  forall a, returns R (loop body a).
Proof.
  intros Hrefl Htrans Hle Hbody a s. unfold loop.
  assert (H : forall n a s1, R s s1 -> (measure s1 < n)%nat ->
              exists b s', loop_fuel n body a s1 = Some (b, s') /\ R s s').
  { induction n as [|n IH]; intros a1 s1 HR Hn; [lia|]. simpl.
    destruct (Hbody a1 s1) as (c & s2 & -> & HR2 & Hdec).
    destruct c as [a2|b].
    - apply IH; [eapply Htrans; eassumption|].
      specialize (Hdec a2 eq_refl). lia.
    - exists b, s2. split; [reflexivity|]. eapply Htrans; eassumption. }
  apply H; [apply Hrefl|lia].
Qed.
End ParserFacts.

Section ParserTermination.
Import SignatureParser.
Variable needSpace : ascii -> ascii -> bool.

Lemma bind_rule {A B} (m : P A) (k : A -> P B) (s : State)
    (Q1 : A -> State -> Prop) (Q : B -> State -> Prop) :
  (exists a s1, m s = Some (a, s1) /\ Q1 a s1) ->
  (forall a s1, Q1 a s1 -> exists b s', k a s1 = Some (b, s') /\ Q b s') ->
  exists b s', bind m k s = Some (b, s') /\ Q b s'.
Proof.
  intros (a & s1 & Hm & H1) Hk. unfold bind. rewrite Hm. apply Hk. exact H1.
Qed.

Lemma ret_rule {A} (a : A) (s : State) (Q : A -> State -> Prop) :
  Q a s -> exists b s', ret a s = Some (b, s') /\ Q b s'.
Proof. intros H. exists a, s. split; [reflexivity|exact H]. Qed.

Local Ltac not_eoi := repeat constructor; discriminate.

Lemma matched_turn {A B} (targets : list Tok) (s : State)
    (onMatch : P (Ctl A B)) (otherwise : Ctl A B) :
  Forall (fun t => t <> Tok_Eoi) targets ->
  (forall a', otherwise <> Continue a') ->
  (forall s1, exists c, onMatch s1 = Some (c, s1)) ->
  exists c s', (b <- matchAny targets ;; if b then onMatch else ret otherwise) s
               = Some (c, s') /\ turn s c s'.
Proof.
  intros Ht Hother Hon.
  destruct (matchAny_spec targets s Ht) as (b & s1 & Hm & Hr & _ & Hlt & Hsame).
  unfold bind. rewrite Hm. destruct b.
  - destruct (Hon s1) as (c & ->). exists c, s1. split; [reflexivity|].
    split; [exact Hr|]. intros _ _. apply Hlt. reflexivity.
  - exists otherwise, s1. split; [reflexivity|].
    split; [exact Hr|]. intros a' Ha. destruct (Hother a' Ha).
Qed.

Lemma sizeWords_turn (tv : string * bool) (s : State) :
  exists c s', sizeWords needSpace tv s = Some (c, s') /\ turn s c s'.
Proof.
  unfold sizeWords. apply matched_turn; [not_eoi|discriminate|].
  intros s1. eexists. reflexivity.
Qed.

Lemma qualifiers_turn (type : string) (s : State) :
  exists c s', qualifiers needSpace type s = Some (c, s') /\ turn s c s'.
Proof.
  unfold qualifiers. apply matched_turn; [not_eoi|discriminate|].
  intros s1. eexists. reflexivity.
Qed.

Lemma brackets_turn (d0 : Z) (type : string) (s : State) :
  exists c s', brackets needSpace d0 type s = Some (c, s') /\ turn s c s'.
Proof.
  unfold brackets, bind, bracketDepth, getTok, lexeme.
  destruct (_ || _) eqn:Hc.
  - destruct (readToken_spec s) as (s' & -> & Hf & _ & Hle & Hlt).
    eexists _, s'. split; [reflexivity|]. split; [split; assumption|].
    intros _ _. apply Hlt. intros Heoi. rewrite Heoi in Hc.
    rewrite bool_decide_eq_false_2 in Hc by tauto.
    rewrite andb_false_r in Hc. simpl in Hc. discriminate.
  - eexists _, s. split; [reflexivity|]. split; [apply reads_refl|discriminate].
Qed.

Lemma defaultTokens_turn (d0 : Z) (v : string) (s : State) :
  exists c s', defaultTokens needSpace d0 v s = Some (c, s') /\ turn s c s'.
Proof.
  unfold defaultTokens, bind, parenDepth, getTok, lexeme.
  destruct (_ && _) eqn:Hc.
  - destruct (readToken_spec s) as (s' & -> & Hf & _ & Hle & Hlt).
    eexists _, s'. split; [reflexivity|]. split; [split; assumption|].
    intros _ _. apply Hlt. intros Heoi. rewrite Heoi in Hc.
    rewrite (bool_decide_eq_false_2 (Tok_Eoi <> Tok_Eoi)) in Hc by tauto.
    rewrite andb_false_r in Hc. discriminate.
  - eexists _, s. split; [reflexivity|]. split; [apply reads_refl|discriminate].
Qed.

Lemma loop_reads {A B} (body : A -> P (Ctl A B)) :
  (forall a s, exists c s', body a s = Some (c, s') /\ turn s c s') ->
  forall a, returns reads (loop body a).
Proof.
  intros H. apply loop_returns.
  - apply reads_refl.
  - apply reads_trans.
  - intros s s' [Hle _]; exact Hle.
  - intros a s. destruct (H a s) as (c & s' & Hb & Hr & Hd). eauto.
Qed.

Lemma typeChain_turn (type : string) (s : State) :
  exists c s', typeChain needSpace type s = Some (c, s') /\ turn s c s'.
Proof.
  unfold typeChain. unfold bind at 1. unfold getTok.
  eapply bind_rule with (Q1 := fun _ s1 => reads s s1).
  { case_bool_decide.
    - apply (loop_reads _ sizeWords_turn).
    - apply ret_rule, reads_refl. }
  intros tv s1 H1.
  eapply bind_rule with (Q1 := fun _ s2 => reads s s2).
  { destruct (snd tv).
    - destruct (match_spec Tok_Ident s1 ltac:(discriminate))
        as (b & s2 & Hm & Hr & _ & _ & _).
      unfold bind at 1. rewrite Hm. destruct b.
      + eexists _, s2. split; [reflexivity|]. eapply reads_trans; eassumption.
      + destruct (matchAny_spec [Tok_void; Tok_int; Tok_char; Tok_double; Tok_Ellipsis]
                    s2 ltac:(not_eoi)) as (b & s3 & Hm3 & Hr3 & _ & _ & _).
        unfold bind at 1. rewrite Hm3.
        destruct b; eexists _, s3; (split; [reflexivity|]);
          eapply reads_trans; [|exact Hr3| |exact Hr3]; eapply reads_trans; eassumption.
    - destruct (matchAny_spec [Tok_int; Tok_char; Tok_double] s1 ltac:(not_eoi))
        as (b & s2 & Hm & Hr & _ & _ & _).
      unfold bind at 1. rewrite Hm.
      destruct b; eexists _, s2; (split; [reflexivity|]);
        eapply reads_trans; eassumption. }
  intros r s2 H2. destruct r as [type'|].
  - destruct (match_spec Tok_Gulbrandsen s2 ltac:(discriminate))
      as (b & s3 & Hm & Hr & _ & Hlt & _).
    unfold bind at 1. rewrite Hm.
    destruct b; eexists _, s3; (split; [reflexivity|]);
      (split; [eapply reads_trans; eassumption|]); [|discriminate].
    intros _ _. specialize (Hlt eq_refl). destruct H2 as [? _]. lia.
  - eexists _, s2. split; [reflexivity|]. split; [exact H2|discriminate].
Qed.

(** [matchTypeAndName] returns, having read tokens only. *)
Lemma matchTypeAndName_reads (type : string) (var : option string) :
  returns reads (matchTypeAndName needSpace type var).
Proof.
  intros s. unfold matchTypeAndName.
  eapply bind_rule with (Q1 := fun _ s1 => reads s s1).
  { apply (loop_reads _ typeChain_turn). }
  intros tv s1 H1. destruct (snd tv); simpl.
  2: { apply ret_rule. exact H1. }
  eapply bind_rule with (Q1 := fun _ s2 => reads s s2).
  { destruct (loop_reads _ qualifiers_turn (fst tv) s1) as (a & s2 & Hm & Hr).
    exists a, s2. split; [exact Hm|]. eapply reads_trans; eassumption. }
  intros type1 s2 H2.
  eapply bind_rule with (Q1 := fun _ s3 => reads s s3).
  { destruct var as [v|].
    - destruct (match_spec Tok_Ident s2 ltac:(discriminate))
        as (b & s3 & Hm & Hr & _ & _ & _).
      unfold bind at 1. rewrite Hm.
      destruct b; eexists _, s3; (split; [reflexivity|]);
        eapply reads_trans; eassumption.
    - apply ret_rule. exact H2. }
  intros var1 s3 H3. unfold bind at 1. unfold getTok.
  eapply bind_rule with (Q1 := fun _ s4 => reads s s4).
  { case_bool_decide.
    - unfold bind at 1. unfold bracketDepth.
      destruct (loop_reads _ (brackets_turn (Tokenizer.m_bracketDepth (tokenizer_ s3)))
                  type1 s3) as (a & s4 & Hm & Hr).
      exists a, s4. split; [exact Hm|]. eapply reads_trans; eassumption.
    - apply ret_rule. exact H3. }
  intros type2 s4 H4. apply ret_rule. exact H4.
Qed.
End ParserTermination.

Section ParserTotal.
Import SignatureParser.
Variable needSpace : ascii -> ascii -> bool.

Lemma onFunc_spec (f : Node -> Node) (s : State) :
  exists s', onFunc f s = Some (tt, s') /\ measure s' = measure s.
Proof. eexists. split; reflexivity. Qed.

Lemma loop_advances {A B} (body : A -> P (Ctl A B)) :
  (forall a s, exists c s', body a s = Some (c, s') /\ advances s s' /\
                 (forall a', c = Continue a' -> (measure s' < measure s)%nat)) ->
  forall a, returns advances (loop body a).
Proof.
  intros H. apply loop_returns.
  - apply advances_refl.
  - apply advances_trans.
  - intros s s' Hle; exact Hle.
  - exact H.
Qed.

(** [matchParameter] returns, and what is left to read has not
    grown. *)
Lemma matchParameter_advances : returns advances (matchParameter needSpace).
Proof.
  intros s. unfold matchParameter.
  eapply bind_rule with (Q1 := fun _ s1 => advances s s1).
  { destruct (matchTypeAndName_reads needSpace "" (Some "") s) as (r & s1 & Hm & Hr).
    exists r, s1. split; [exact Hm|]. apply reads_advances. exact Hr. }
  intros r s1 H1. destruct (fst (fst r)); simpl.
  2: { apply ret_rule. exact H1. }
  destruct (match_spec Tok_Equal s1 ltac:(discriminate)) as (b & s2 & Hm & Hr & _ & _ & _).
  unfold bind at 1. rewrite Hm.
  eapply bind_rule with (Q1 := fun _ s3 => advances s s3).
  { destruct b.
    - unfold bind at 1. unfold parenDepth.
      destruct (loop_reads _ (defaultTokens_turn needSpace
                                (Tokenizer.m_parenDepth (tokenizer_ s2))) "" s2)
        as (v & s3 & Hl & Hr3).
      exists v, s3. split; [exact Hl|].
      apply reads_advances in Hr, Hr3. unfold advances in *. lia.
    - apply ret_rule. apply reads_advances in Hr. unfold advances in *. lia. }
  intros v s3 H3. unfold bind, onFunc, ret. eexists _, _. split; [reflexivity|].
  exact H3.
Qed.

Lemma parameterList_turn (u : unit) (s : State) :
  exists c s', parameterList needSpace u s = Some (c, s') /\ advances s s' /\
               (forall a', c = Continue a' -> (measure s' < measure s)%nat).
Proof.
  unfold parameterList.
  destruct (matchParameter_advances s) as (ok & s1 & Hm & H1).
  unfold bind at 1. rewrite Hm. destruct ok; simpl.
  - destruct (match_spec Tok_Comma s1 ltac:(discriminate))
      as (b & s2 & Hc & Hr & _ & Hlt & _).
    unfold bind at 1. rewrite Hc. apply reads_advances in Hr.
    destruct b; eexists _, s2; (split; [reflexivity|]);
      (split; [unfold advances in *; lia|]); [|discriminate].
    intros _ _. specialize (Hlt eq_refl). unfold advances in *. lia.
  - eexists _, s1. split; [reflexivity|]. split; [exact H1|discriminate].
Qed.

Lemma qualifiedName_turn (u : unit) (s : State) :
  exists c s', qualifiedName u s = Some (c, s') /\ turn s c s'.
Proof.
  unfold qualifiedName.
  destruct (match_spec Tok_Ident s ltac:(discriminate)) as (b & s1 & Hm & Hr & _ & Hlt & _).
  unfold bind at 1. rewrite Hm. destruct b.
  - unfold bind at 1, previousLexeme. unfold bind at 1, getNames.
    unfold bind at 1, setNames.
    match goal with
    | |- context [bind (match_ Tok_Gulbrandsen) _ ?st] =>
        destruct (match_spec Tok_Gulbrandsen st ltac:(discriminate))
          as (g & s2 & Hg & Hr2 & _ & _ & _)
    end.
    unfold bind at 1. rewrite Hg.
    assert (Hr12 : reads s s2).
    { eapply reads_trans; [exact Hr|]. destruct Hr2 as [Hle Hf]. split; [exact Hle|exact Hf]. }
    destruct g; simpl.
    + eexists _, s2. split; [reflexivity|]. split; [exact Hr12|].
      intros _ _. specialize (Hlt eq_refl). destruct Hr2 as [Hle _].
      unfold measure in *. simpl in Hle. lia.
    + eexists _, _. split; [reflexivity|]. split; [|discriminate].
      destruct Hr12 as [Hle Hf]. split; [exact Hle|exact Hf].
  - eexists _, s1. split; [reflexivity|]. split; [exact Hr|discriminate].
Qed.

(** The first part of [matchFunctionDecl] returns, and leaves the
    function node alone. *)
Lemma declarator_reads (signature_ : string) :
  returns reads (declarator needSpace signature_).
Proof.
  intros s. unfold declarator.
  eapply bind_rule with (Q1 := fun _ s1 => reads s s1).
  { destruct (_ && _).
    - apply matchTypeAndName_reads.
    - apply ret_rule, reads_refl. }
  intros r s1 H1. destruct (fst (fst r)); simpl.
  2: { apply ret_rule. exact H1. }
  destruct (loop_reads _ qualifiedName_turn tt s1) as (u & s2 & Hl & Hr).
  unfold bind at 1. rewrite Hl. unfold bind, getTok.
  assert (reads s s2) by (eapply reads_trans; eassumption).
  case_bool_decide; apply ret_rule; assumption.
Qed.

(** [matchFunctionDecl] returns on every input; where its first part
    fails, it returns false in the state the first part left. *)
Lemma matchFunctionDecl_returns (signature_ : string) (location_ : Location) (s : State) :
  exists b s', matchFunctionDecl needSpace signature_ location_ s = Some (b, s') /\
               (forall s1, declarator needSpace signature_ s = Some (None, s1) ->
                           b = false /\ s' = s1).
Proof.
  unfold matchFunctionDecl.
  destruct (declarator_reads signature_ s) as (d & s1 & Hd & _).
  unfold bind at 1. rewrite Hd. destruct d as [returnType_|].
  2: { exists false, s1. split; [reflexivity|]. intros ? [= <-]. split; reflexivity. }
  cut (exists b s', (_ <- readToken ;;
                     _ <- onFunc (setLocation location_) ;;
                     _ <- onFunc (setReturnType returnType_) ;;
                     t' <- getTok ;;
                     ok <- (if bool_decide (t' <> Tok_RightParen)
                            then _ <- onFunc (setParameters []) ;;
                                 loop (parameterList needSpace) tt
                            else ret true) ;;
                     if negb ok then ret false
                     else b <- match_ Tok_RightParen ;; ret b) s1 = Some (b, s')).
  { intros (b & s' & H). exists b, s'. split; [exact H|]. intros ? [=]. }
  destruct (readToken_spec s1) as (s2 & Hr & _).
  unfold bind at 1. rewrite Hr.
  unfold bind at 1, onFunc at 1. unfold bind at 1, onFunc at 1.
  unfold bind at 1, getTok.
  match goal with
  | |- context [bind (if ?c then _ else _) _ ?st] =>
      assert (Hok : exists ok s3, (if c then _ <- onFunc (setParameters []) ;;
                                             loop (parameterList needSpace) tt
                                   else ret true) st = Some (ok, s3))
  end.
  { case_bool_decide.
    - unfold bind at 1, onFunc at 1.
      match goal with
      | |- context [loop _ tt ?st] =>
          destruct (loop_advances _ parameterList_turn tt st) as (ok & s3 & Hl & _)
      end.
      exists ok, s3. exact Hl.
    - eexists _, _. reflexivity. }
  destruct Hok as (ok & s3 & Hok). unfold bind at 1. rewrite Hok.
  destruct ok; simpl.
  - destruct (match_spec Tok_RightParen s3 ltac:(discriminate)) as (b & s4 & Hm & _).
    unfold bind. rewrite Hm. eexists _, _. reflexivity.
  - eexists _, _. reflexivity.
Qed.

(** The parser returns on every token sequence; where it does not get
    as far as the parameter list, it fails and the function node is as
    it was. *)
Lemma parse_returns (tokens : list Token) (func : Node) (signature : string)
    (loc : Location) :
  exists b s', parse needSpace tokens func signature loc = Some (b, s') /\
               (reachesParameters needSpace tokens func signature = false ->
                b = false /\ func_ s' = func).
Proof.
  unfold parse, reachesParameters.
  destruct (matchFunctionDecl_returns signature loc (start tokens func))
    as (b & s' & Hm & Hfail).
  exists b, s'. split; [exact Hm|].
  destruct (declarator_reads signature (start tokens func)) as (d & s1 & Hd & _ & Hf).
  rewrite Hd. destruct d; [discriminate|]. intros _.
  destruct (Hfail s1 Hd) as [-> ->]. split; [reflexivity|].
  rewrite Hf. unfold start. destruct (Tokenizer.getToken _). reflexivity.
Qed.
End ParserTotal.

(** C2, as the code has it. On the signature of the design document the parser
    sets the return type [void], reads [foo] as the name without keeping
    it in the list of name segments, records the parameter [int a] and
    then fails at [const], which cannot begin the type of a parameter:
    the second parameter is not recorded. With the qualifiers after the
    name of the type the parse succeeds with the two parameters in
    order; the default value of the second is made of the tokens up to
    the parenthesis that closes the parameter list, the comma between
    the nested parentheses included. *)
Theorem signature_with_leading_const
    (needSpace : ascii -> ascii -> bool) (c : Common) (a : FunctionAttrs) (loc : Location) :
  (exists s',
     SignatureParser.parse needSpace (Tokenizer.tokenize Examples.signature_const)
       (mkNode c (FunctionNode a)) Examples.signature_const loc = Some (false, s')
     /\ SignatureParser.tok_ s' = Tok_const
     /\ SignatureParser.names_ s' = []
     /\ returnTypeOf (SignatureParser.func_ s') = "void"
     /\ parametersOf (SignatureParser.func_ s') = [mkParameter "int" "a" ""]) /\
  (exists s',
     SignatureParser.parse needSpace (Tokenizer.tokenize Examples.signature_postfix)
       (mkNode c (FunctionNode a)) Examples.signature_postfix loc = Some (true, s')
     /\ SignatureParser.names_ s' = []
     /\ returnTypeOf (SignatureParser.func_ s') = "void"
     /\ parametersOf (SignatureParser.func_ s')
        = [mkParameter "int" "a" "";
           mkParameter (CodeChunk.ofLexemes needSpace ["Bar"; "const"; "&"]) "b"
                       (CodeChunk.ofLexemes needSpace ["Bar"; "("; "1"; ","; "2"; ")"])]).
Proof.
  split; eexists; (split; [vm_compute; reflexivity|]); repeat split; vm_compute; reflexivity.
Qed.

(** C2, against its wording: whatever CodeChunk's spacing, the parse of
    the signature of the design document does not leave the two
    parameters the claim lists. *)
Lemma signature_with_leading_const_has_one_parameter :
  ~ exists (needSpace : ascii -> ascii -> bool) (b : bool) (s' : SignatureParser.State),
      SignatureParser.parse needSpace (Tokenizer.tokenize Examples.signature_const)
        Examples.foo Examples.signature_const (Location_new "Item.qml") = Some (b, s')
      /\ parametersOf (SignatureParser.func_ s')
         = [mkParameter "int" "a" ""; mkParameter "const Bar &" "b" "Bar(1,2)"].
Proof.
  intros (needSpace & b & s' & Hparse & Hparams).
  vm_compute in Hparse. inversion Hparse; subst. vm_compute in Hparams. discriminate.
Qed.

(** ** The visitor *)

Section VisitorFacts.
Import Visitor.
Variable ext : Collaborators.
Variable src : Source.

Lemma state_eta (s : State) :
  mkState (m_nestingLevel s) (m_lastEndOffset s) (m_usedComments s) (m_current s)
          (m_importList s) (hasRecursionDepthError s)
          (mkRepository (nodes (db s)) (qmlModules (db s)) (groups (db s)) (warnings (db s)))
  = s.
Proof. destruct s as [? ? ? ? ? ? []]; reflexivity. Qed.

Lemma getNode_spec (h : nat) (n : Node) (s : State) :
  nodes (db s) !! h = Some n -> getNode h s = Some (n, s).
Proof. intros H. unfold getNode. rewrite H. reflexivity. Qed.

Lemma onNode_spec (h : nat) (f : Node -> Node) (n : Node) (s : State) :
  nodes (db s) !! h = Some n -> onNode h f s = Some (tt, replaceNode h (f n) s).
Proof. intros H. unfold onNode, bind. rewrite (getNode_spec h n s H). reflexivity. Qed.

Lemma replaceNode_same (h : nat) (n : Node) (s : State) :
  nodes (db s) !! h = Some n -> replaceNode h n s = s.
Proof.
  intros H. unfold replaceNode. rewrite list_insert_id by exact H. apply state_eta.
Qed.

Lemma warning_spec (l : Location) (t : WarningText) (s : State) :
  warning l t s = Some (tt, withWarning (mkWarning l t) s).
Proof. reflexivity. Qed.
End VisitorFacts.

(** C3, as the code has it. For every function node and every method or signal
    topic, the parser runs to its end and the node becomes the one the
    parser leaves; when the text fails to parse before the opening
    parenthesis of the parameter list (no return type can be read, or no
    parenthesis follows the name), the node, with its return type and
    its parameters, and the whole state are as they were. *)
Theorem malformed_signature_before_parameters
    (ext : Collaborators) (h : nat) (parent_ : option nat) (d : Doc) (t : Topic)
    (bound : list nat) (s : Visitor.State) (node : Node) :
  nodes (Visitor.db s) !! h = Some node ->
  isFunction node = true ->
  endsWith (m_topic t) "property" = false ->
  endsWith (m_topic t) "method" || String.eqb (m_topic t) Command.QMLSIGNAL = true ->
  exists ok p s',
    SignatureParser.parse (needSpace ext) (tokenize ext (m_args t)) node (m_args t)
      (doc_location d) = Some (ok, p)
    /\ Visitor.applyTopic ext h parent_ d t bound s = Some (bound, s')
    /\ s' = Visitor.replaceNode h (SignatureParser.func_ p) s
    /\ (SignatureParser.reachesParameters (needSpace ext) (tokenize ext (m_args t)) node
          (m_args t) = false ->
        ok = false /\ s' = s).
Proof.
  intros Hh Hfn Hprop Hkind.
  destruct (parse_returns (needSpace ext) (tokenize ext (m_args t)) node (m_args t)
              (doc_location d)) as (ok & p & Hparse & Hfail).
  exists ok, p, (Visitor.replaceNode h (SignatureParser.func_ p) s).
  split; [exact Hparse|]. split; [|split; [reflexivity|]].
  - unfold Visitor.applyTopic. rewrite Hprop, Hkind.
    unfold Visitor.signatureTopic, Visitor.bind.
    rewrite (getNode_spec h node s Hh). rewrite Hfn.
    unfold SignatureParser.QmlSignatureParser. rewrite Hparse.
    rewrite (onNode_spec h _ node s Hh). reflexivity.
  - intros Hno. destruct (Hfail Hno) as [-> ->]. split; [reflexivity|].
    apply replaceNode_same. exact Hh.
Qed.

(** C4, as the code has it. For every command applied to a node of a kind it
    does not apply to, the interpreter leaves every node as it was and
    goes on with the remaining commands; it reports the misuse, with the
    name of the command and the location of the comment, for [default]
    and [qmlenumeratorsfrom], and reports nothing for [abstract],
    [qmlabstract], [qmlrequired] and [qmlinherits] (the last with a
    first argument that is not the name of the node). *)
Theorem misapplied_command_is_skipped
    (ext : Collaborators) (h : nat) (d : Doc) (command : string) (rest : list string)
    (s : Visitor.State) (node : Node) :
  nodes (Visitor.db s) !! h = Some node ->
  Visitor.misapplied command node = true ->
  (command = Command.QMLINHERITS ->
   exists a l, metaCommandArgs d command = a :: l /\ name (common node) <> fst a) ->
  let s1 := if Visitor.reportsMisuse command
            then Visitor.withWarning
                   (mkWarning (doc_location d)
                              (IgnoredAppliesOnlyTo command Command.QMLPROPERTY)) s
            else s in
  Visitor.applyMetacommand ext h d command s = Some (tt, s1)
  /\ Visitor.forEach (command :: rest) (Visitor.applyMetacommand ext h d) s
     = Visitor.forEach rest (Visitor.applyMetacommand ext h d) s1.
Proof.
  intros Hh Hmis Hargs s1.
  assert (Hstep : Visitor.applyMetacommand ext h d command s = Some (tt, s1)).
  { unfold Visitor.misapplied in Hmis. subst s1. unfold Visitor.reportsMisuse.
    destruct (String.eqb_spec command Command.ABSTRACT) as [->|_].
    { simpl in Hmis. unfold Visitor.applyMetacommand, Visitor.bind. simpl.
      rewrite (getNode_spec h node s Hh).
      destruct (isQmlType node); [discriminate|reflexivity]. }
    destruct (String.eqb_spec command Command.QMLABSTRACT) as [->|_].
    { simpl in Hmis. unfold Visitor.applyMetacommand, Visitor.bind. simpl.
      rewrite (getNode_spec h node s Hh).
      destruct (isQmlType node); [discriminate|reflexivity]. }
    destruct (String.eqb_spec command Command.QMLINHERITS) as [->|_].
    { simpl in Hmis. destruct (Hargs eq_refl) as (a & l & Ha & Hname).
      unfold Visitor.applyMetacommand, Visitor.bind. simpl.
      rewrite (getNode_spec h node s Hh).
      change (metaCommandArgs d "qmlinherits") with (metaCommandArgs d Command.QMLINHERITS).
      rewrite Ha. simpl.
      destruct (String.eqb_spec (name (common node)) (fst a)); [contradiction|].
      destruct (isQmlType node); [discriminate|reflexivity]. }
    destruct (String.eqb_spec command Command.QMLREQUIRED) as [->|_].
    { simpl in Hmis. unfold Visitor.applyMetacommand, Visitor.bind. simpl.
      rewrite (getNode_spec h node s Hh).
      destruct (isQmlProperty node); [discriminate|reflexivity]. }
    destruct (String.eqb_spec command Command.DEFAULT) as [->|_].
    { simpl in Hmis. unfold Visitor.applyMetacommand, Visitor.bind. simpl.
      rewrite (getNode_spec h node s Hh).
      destruct (isQmlProperty node); [discriminate|reflexivity]. }
    destruct (String.eqb_spec command Command.QMLENUMERATORSFROM) as [->|_].
    { simpl in Hmis. unfold Visitor.applyMetacommand, Visitor.bind. simpl.
      rewrite (getNode_spec h node s Hh).
      destruct (isQmlProperty node); [discriminate|reflexivity]. }
    simpl in Hmis. discriminate. }
  split; [exact Hstep|]. simpl. unfold Visitor.bind at 1. rewrite Hstep. reflexivity.
Qed.

(** C5, on the code: [deprecated], [inqmlmodule], [qmlinherits] and
    [since] on any node, and [qmlenumeratorsfrom] on a property, read
    the first argument of the command without a test; on an empty
    argument list the read is outside the list. *)
Theorem first_argument_of_empty_list
    (ext : Collaborators) (h : nat) (d : Doc) (command : string)
    (s : Visitor.State) (node : Node) :
  nodes (Visitor.db s) !! h = Some node ->
  Visitor.readsFirstArgument command node = true ->
  metaCommandArgs d command = [] ->
  Visitor.applyMetacommand ext h d command s = None.
Proof.
  intros Hh Hreads Hargs. unfold Visitor.readsFirstArgument in Hreads.
  destruct (String.eqb_spec command Command.DEPRECATED) as [->|_].
  { unfold Visitor.applyMetacommand, Visitor.bind. simpl.
    change (metaCommandArgs d "deprecated") with (metaCommandArgs d Command.DEPRECATED).
    rewrite Hargs. reflexivity. }
  destruct (String.eqb_spec command Command.INQMLMODULE) as [->|_].
  { unfold Visitor.applyMetacommand, Visitor.bind. simpl.
    change (metaCommandArgs d "inqmlmodule") with (metaCommandArgs d Command.INQMLMODULE).
    rewrite Hargs. reflexivity. }
  destruct (String.eqb_spec command Command.QMLINHERITS) as [->|_].
  { unfold Visitor.applyMetacommand, Visitor.bind. simpl.
    rewrite (getNode_spec h node s Hh).
    change (metaCommandArgs d "qmlinherits") with (metaCommandArgs d Command.QMLINHERITS).
    rewrite Hargs. reflexivity. }
  destruct (String.eqb_spec command Command.SINCE) as [->|_].
  { unfold Visitor.applyMetacommand, Visitor.bind. simpl.
    change (metaCommandArgs d "since") with (metaCommandArgs d Command.SINCE).
    rewrite Hargs. reflexivity. }
  destruct (String.eqb_spec command Command.QMLENUMERATORSFROM) as [->|_].
  { simpl in Hreads. unfold Visitor.applyMetacommand, Visitor.bind. simpl.
    rewrite (getNode_spec h node s Hh). rewrite Hreads. simpl.
    change (metaCommandArgs d "qmlenumeratorsfrom")
      with (metaCommandArgs d Command.QMLENUMERATORSFROM).
    rewrite Hargs. reflexivity. }
  simpl in Hreads. discriminate.
Qed.

(** C9. For every node, [qmlinherits] with a first argument that is the
    name of the node gives the warning that the node tries to inherit
    itself and leaves the node, and so its base type, as it was; with
    another argument on a type node, it sets the name of the base type
    to the argument. *)
Theorem qmlinherits_rejects_the_node_itself
    (ext : Collaborators) (h : nat) (d : Doc) (s : Visitor.State) (node : Node)
    (base other : string) (l : ArgList) :
  nodes (Visitor.db s) !! h = Some node ->
  metaCommandArgs d Command.QMLINHERITS = (base, other) :: l ->
  (name (common node) = base ->
   Visitor.applyMetacommand ext h d Command.QMLINHERITS s
   = Some (tt, Visitor.withWarning
                 (mkWarning (doc_location d) (TriesToInheritItself base)) s)) /\
  (name (common node) <> base -> isQmlType node = true ->
   Visitor.applyMetacommand ext h d Command.QMLINHERITS s
   = Some (tt, Visitor.replaceNode h (setQmlBaseName base node) s)
   /\ exists ta, variant (setQmlBaseName base node) = QmlTypeNode ta /\ qmlBaseName ta = base).
Proof.
  intros Hh Hargs.
  assert (Hrun : Visitor.applyMetacommand ext h d Command.QMLINHERITS s
                 = if String.eqb (name (common node)) base
                   then Visitor.warning (doc_location d) (TriesToInheritItself base) s
                   else if isQmlType node
                        then Visitor.onNode h (setQmlBaseName base) s
                        else Some (tt, s)).
  { unfold Visitor.applyMetacommand, Visitor.bind. simpl.
    rewrite (getNode_spec h node s Hh).
    change (metaCommandArgs d "qmlinherits") with (metaCommandArgs d Command.QMLINHERITS).
    rewrite Hargs. simpl.
    destruct (String.eqb _ base); [reflexivity|].
    destruct (isQmlType node); reflexivity. }
  rewrite Hrun. split.
  - intros ->. rewrite String.eqb_refl. reflexivity.
  - intros Hne Htype. destruct (String.eqb_spec (name (common node)) base); [contradiction|].
    rewrite Htype. split; [apply onNode_spec; exact Hh|].
    unfold isQmlType in Htype. unfold setQmlBaseName, withType.
    destruct (variant node) as [|ta| |]; try discriminate.
    eexists. split; reflexivity.
Qed.

(** C8. While the nesting level is above 1, the visit of a public
    member (a signal or a property) and the visit of a function
    declaration return true and change nothing: no node is created, no
    documentation is bound, no comment is used. *)
Theorem nested_members_are_not_documented
    (ext : Collaborators) (src : Source) (s : Visitor.State)
    (member : UiPublicMember) (fd : FunctionDeclaration) :
  1 < Visitor.m_nestingLevel s ->
  Visitor.visit ext src (AstPublicMember member) s = Some (true, s)
  /\ Visitor.visit ext src (AstFunctionDeclaration fd) s = Some (true, s).
Proof.
  intros Hlevel. simpl.
  unfold Visitor.visit_UiPublicMember, Visitor.visit_FunctionDeclaration, Visitor.bind,
    Visitor.get.
  destruct (Z.ltb_spec 1 (Visitor.m_nestingLevel s)); [|lia].
  destruct (Z.leb_spec (Visitor.m_nestingLevel s) 1); [lia|].
  split; reflexivity.
Qed.

(** C10. When the locator finds no comment before a construct and a
    node is passed in, the binder returns that node and changes one
    thing only: the location of the node becomes the path of the file
    with the start line of the construct. The documentation of the
    node, its other attributes, the other nodes, the warnings and the
    used comments are as they were. *)
Theorem undocumented_node_gets_the_start_line
    (ext : Collaborators) (src : Source) (location_ : SourceLocation) (h : nat)
    (s : Visitor.State) (node : Node) (loc : SourceLocation) :
  Locator.precedingComment (m_document src) (comments src) (Visitor.m_usedComments s)
    (Visitor.m_lastEndOffset s) (begin_ location_) = Some loc ->
  isValid loc = false ->
  nodes (Visitor.db s) !! h = Some node ->
  let line := setLineNo (int_of_quint32 (startLine location_))
                        (Location_new (m_filePath src)) in
  Visitor.applyDocumentation ext src location_ (Some h) s
  = Some (h, Visitor.replaceNode h (setLocation line node) s)
  /\ variant (setLocation line node) = variant node
  /\ common (setLocation line node)
     = mkCommon (name (common node)) (parent (common node)) (Some line)
                (doc (common node)) (status (common node)) (since (common node))
                (deprecatedSince (common node)).
Proof.
  intros Hloc Hinvalid Hh line. split; [|split; reflexivity].
  unfold Visitor.applyDocumentation, Visitor.bind at 1, Visitor.precedingComment.
  rewrite Hloc, Hinvalid. simpl.
  unfold Visitor.bind, Visitor.get, Visitor.ret.
  rewrite (onNode_spec h _ node s Hh). reflexivity.
Qed.

Section BinderFacts.
Import Visitor.
Variable ext : Collaborators.

Lemma lookup_replaceNode_eq (h : nat) (n n0 : Node) (s : State) :
  nodes (db s) !! h = Some n0 -> nodes (db (replaceNode h n s)) !! h = Some n.
Proof. intros H. simpl. apply list_lookup_insert_eq. eapply lookup_lt_Some. exact H. Qed.

Lemma lookup_replaceNode_ne (h h' : nat) (n : Node) (s : State) :
  h <> h' -> nodes (db (replaceNode h n s)) !! h' = nodes (db s) !! h'.
Proof. intros H. simpl. apply list_lookup_insert_ne. exact H. Qed.

Lemma replaceNode_twice (h : nat) (n n' : Node) (s : State) :
  replaceNode h n (replaceNode h n' s) = replaceNode h n s.
Proof. unfold replaceNode. simpl. rewrite list_insert_insert_eq. reflexivity. Qed.

Lemma findIndex_Some {A} (test : A -> bool) (l : list A) (i j : nat) :
  findIndex test l i = Some j ->
  exists x, (i <= j)%nat /\ l !! (j - i)%nat = Some x /\ test x = true.
Proof.
  revert i; induction l as [|a l IH]; intros i H; simpl in H; [discriminate|].
  destruct (test a) eqn:Ha.
  - inversion H; subst j. exists a. rewrite Nat.sub_diag. auto.
  - destruct (IH _ H) as (x & Hle & Hx & Ht). exists x. split; [lia|]. split; [|exact Ht].
    replace (j - i)%nat with (S (j - S i)) by lia. exact Hx.
Qed.

(** The sibling property as the binder leaves it. *)
Lemma sibling_marked (d : Doc) (qpa : QmlPropertyArguments) (att : bool) (h n : nat)
    (node c0 : Node) (bound : list nat) (s0 : State) :
  nodes (db s0) !! h = Some node -> nodes (db s0) !! n = Some c0 -> n <> h ->
  (_ <- onNode n (setIsList (qpa_isList qpa)) ;;
   _ <- onNode n (setLocation (doc_location d)) ;;
   _ <- onNode n (setDoc d) ;;
   qmlProperty <- getNode h ;;
   _ <- onNode n (markReadOnly (isReadOnly qmlProperty && negb att)) ;;
   qmlProperty' <- getNode h ;;
   _ <- (if isDefaultProperty qmlProperty' then onNode n markDefault else ret tt) ;;
   ret (bound ++ [n])%list) s0
  = Some ((bound ++ [n])%list,
          replaceNode n
            ((if isDefaultProperty node then markDefault else fun c => c)
               (markReadOnly (isReadOnly node && negb att)
                  (setDoc d (setLocation (doc_location d)
                               (setIsList (qpa_isList qpa) c0))))) s0).
Proof.
  intros Hh Hn Hne.
  unfold bind at 1. rewrite (onNode_spec n _ c0 s0 Hn).
  unfold bind at 1. erewrite onNode_spec by (eapply lookup_replaceNode_eq; exact Hn).
  rewrite replaceNode_twice.
  unfold bind at 1. erewrite onNode_spec by (eapply lookup_replaceNode_eq; exact Hn).
  rewrite replaceNode_twice.
  unfold bind at 1. erewrite getNode_spec
    by (rewrite lookup_replaceNode_ne by exact Hne; exact Hh).
  unfold bind at 1. erewrite onNode_spec by (eapply lookup_replaceNode_eq; exact Hn).
  rewrite replaceNode_twice.
  unfold bind at 1. erewrite getNode_spec
    by (rewrite lookup_replaceNode_ne by exact Hne; exact Hh).
  destruct (isDefaultProperty node).
  - unfold bind at 1. erewrite onNode_spec by (eapply lookup_replaceNode_eq; exact Hn).
    rewrite replaceNode_twice. reflexivity.
  - reflexivity.
Qed.
End BinderFacts.

(** C7. For every property node with a parent and every topic that ends
    with "property" and names another property, the binder finds the
    property of that name (attached or not, as the topic says) among the
    children of the parent, or creates it there; it gives it the
    documentation block and its location, sets its read-only flag to the
    flag of the primary node and not attached, marks it default if the
    primary node is, and adds it to the nodes the comment is bound to.
    The primary node is left as it was. *)
Theorem property_topic_binds_a_sibling
    (ext : Collaborators) (h p : nat) (d : Doc) (t : Topic) (bound : list nat)
    (s : Visitor.State) (node : Node) (qpa : QmlPropertyArguments) :
  nodes (Visitor.db s) !! h = Some node ->
  isQmlProperty node = true ->
  parent (common node) = Some p ->
  endsWith (m_topic t) "property" = true ->
  QmlPropertyArguments_parse ext (m_args t) (doc_location d) = Some qpa ->
  qpa_name qpa <> name (common node) ->
  let isAttached := contains (m_topic t) "attached" in
  exists n sibling a s',
    Visitor.applyTopic ext h (parent (common node)) d t bound s
    = Some ((bound ++ [n])%list, s')
    /\ (forall found,
          Visitor.hasQmlPropertyAttached p (qpa_name qpa) isAttached s = Some (found, s) ->
          n = default (List.length (nodes (Visitor.db s))) found)
    /\ n <> h
    /\ nodes (Visitor.db s') !! h = Some node
    /\ nodes (Visitor.db s') !! n = Some sibling
    /\ name (common sibling) = qpa_name qpa
    /\ parent (common sibling) = Some p
    /\ doc (common sibling) = Some d
    /\ location (common sibling) = Some (doc_location d)
    /\ variant sibling = QmlPropertyNode a
    /\ attached a = isAttached
    /\ readOnly a = isReadOnly node && negb isAttached
    /\ isList a = qpa_isList qpa
    /\ (isDefaultProperty node = true -> isDefault a = true).
Proof.
  intros Hh Hprop Hparent Htopic Hparse Hname isAttached.
  assert (Hfind : exists found n c0 a0 s0,
             Visitor.hasQmlPropertyAttached p (qpa_name qpa) isAttached s = Some (found, s)
             /\ match found with
                | Some n => Visitor.ret n
                | None => Visitor.newNode (new_QmlPropertyNode p (qpa_name qpa)
                                             (qpa_type qpa) isAttached)
                end s = Some (n, s0)
             /\ n = default (List.length (nodes (Visitor.db s))) found
             /\ nodes (Visitor.db s0) !! h = Some node
             /\ nodes (Visitor.db s0) !! n = Some c0
             /\ n <> h
             /\ name (common c0) = qpa_name qpa /\ parent (common c0) = Some p
             /\ variant c0 = QmlPropertyNode a0 /\ attached a0 = isAttached).
  { cbv beta iota delta [Visitor.bind Visitor.hasQmlPropertyAttached Visitor.get Visitor.ret].
    destruct (Visitor.findIndex _ (nodes (Visitor.db s)) 0) as [n0|] eqn:Hfound.
    - destruct (findIndex_Some _ _ _ _ Hfound) as (c0 & _ & Hc0 & Htest).
      rewrite Nat.sub_0_r in Hc0.
      apply andb_true_iff in Htest as [Htest Hnm].
      apply andb_true_iff in Htest as [Hpar Hatt].
      apply bool_decide_eq_true_1 in Hpar. apply String.eqb_eq in Hnm.
      destruct (variant c0) as [| |a0|] eqn:Hv; try discriminate.
      apply Bool.eqb_prop in Hatt.
      exists (Some n0), n0, c0, a0, s. split; [reflexivity|].
      split; [reflexivity|]. split; [reflexivity|].
      repeat (split; [assumption|]); try assumption.
      split; [|tauto]. intros ->. rewrite Hh in Hc0. inversion Hc0; subst c0.
      apply Hname. symmetry. exact Hnm.
    - eexists None, (List.length (nodes (Visitor.db s))), _, _, _.
      split; [reflexivity|]. split; [reflexivity|]. split; [reflexivity|]. simpl.
      split; [apply lookup_app_l_Some; exact Hh|].
      split; [apply list_lookup_middle; reflexivity|].
      split; [apply lookup_lt_Some in Hh; lia|].
      repeat split. }
  destruct Hfind
    as (found & n & c0 & a0 & s0 & Hlook & Hrun & Hfound & Hh0 & Hn0 & Hne & Hnm & Hpar & Hv & Hatt).
  eexists n, _,
    (mkPropertyAttrs (dataType a0) (isReadOnly node && negb isAttached)
       (isDefaultProperty node || isDefault a0) (required a0) (qpa_isList qpa)
       (attached a0) (enumNode a0) (defaultValue a0)), _.
  split.
  { unfold Visitor.applyTopic. rewrite Htopic.
    unfold Visitor.propertyTopic. rewrite Hparse.
    unfold Visitor.bind at 1. rewrite (getNode_spec h node s Hh). rewrite Hprop. simpl.
    destruct (String.eqb_spec (qpa_name qpa) (name (common node))); [contradiction|].
    rewrite Hparent.
    unfold Visitor.bind at 1. fold isAttached. rewrite Hlook.
    unfold Visitor.bind at 1. rewrite Hrun.
    apply (sibling_marked d qpa _ h n node c0 bound s0 Hh0 Hn0 Hne). }
  split; [intros found' Hlook'; rewrite Hlook in Hlook'; inversion Hlook'; subst found';
          exact Hfound|].
  split; [exact Hne|].
  split; [rewrite lookup_replaceNode_ne by exact Hne; exact Hh0|].
  split; [eapply lookup_replaceNode_eq; exact Hn0|].
  unfold isReadOnly, isDefaultProperty, isQmlProperty in *.
  destruct (variant node) as [| |pa|] eqn:Hvn; try discriminate.
  destruct c0 as [cc vc]. simpl in Hv, Hnm, Hpar. subst vc.
  destruct (isDefault pa); simpl; repeat split; try assumption; discriminate.
Qed.

(** ** The used comments *)

Section UsedComments.
Import Visitor.
Variable ext : Collaborators.
Variable src : Source.

Lemma preserves_ret {A} (R : State -> State -> Prop) (a : A) :
  (forall s, R s s) -> preserves R (ret a).
Proof. intros Hrefl s b s' H. inversion H; subst. apply Hrefl. Qed.

Lemma preserves_bind {A B} (R : State -> State -> Prop) (m : M A) (k : A -> M B) :
  (forall s1 s2 s3, R s1 s2 -> R s2 s3 -> R s1 s3) ->
  preserves R m -> (forall a, preserves R (k a)) -> preserves R (bind m k).
Proof.
  intros Htrans Hm Hk s b s' H. unfold bind in H.
  destruct (m s) as [[a s1]|] eqn:E; [|discriminate].
  eapply Htrans; [eapply Hm; exact E|eapply Hk; exact H].
Qed.

Lemma preserves_fault {A} (R : State -> State -> Prop) : preserves R (@fault A).
Proof. intros s a s' [=]. Qed.

Lemma preserves_forEach {A} (R : State -> State -> Prop) (l : list A) (body : A -> M unit) :
  (forall s, R s s) -> (forall s1 s2 s3, R s1 s2 -> R s2 s3 -> R s1 s3) ->
  (forall a, preserves R (body a)) -> preserves R (forEach l body).
Proof.
  intros Hrefl Htrans Hbody. induction l as [|a l IH]; simpl.
  - apply preserves_ret, Hrefl.
  - apply preserves_bind; [exact Htrans|apply Hbody|intros _; exact IH].
Qed.

Lemma sameUsed_refl s : sameUsed s s.
Proof. reflexivity. Qed.

Lemma sameUsed_trans s1 s2 s3 : sameUsed s1 s2 -> sameUsed s2 s3 -> sameUsed s1 s3.
Proof. unfold sameUsed; congruence. Qed.

Lemma keepsUsed_refl s : keepsUsed s s.
Proof. unfold keepsUsed. set_solver. Qed.

Lemma keepsUsed_trans s1 s2 s3 : keepsUsed s1 s2 -> keepsUsed s2 s3 -> keepsUsed s1 s3.
Proof. unfold keepsUsed. set_solver. Qed.

Lemma sameUsed_keepsUsed {A} (m : M A) : preserves sameUsed m -> preserves keepsUsed m.
Proof. intros H s a s' E. unfold keepsUsed. rewrite (H s a s' E). set_solver. Qed.

Lemma same_get : preserves sameUsed get.
Proof. intros s a s' H. inversion H; subst. reflexivity. Qed.

Lemma same_withDb (f : Repository -> Repository) : preserves sameUsed (withDb f).
Proof. intros s a s' H. inversion H; subst. reflexivity. Qed.

Lemma same_getNode (h : nat) : preserves sameUsed (getNode h).
Proof.
  intros s a s' H. unfold getNode in H.
  destruct (nodes (db s) !! h); inversion H; subst. reflexivity.
Qed.

Lemma same_set_m_nestingLevel (z : Z) : preserves sameUsed (set_m_nestingLevel z).
Proof. intros s a s' H. inversion H; subst. reflexivity. Qed.

Lemma same_set_m_lastEndOffset (z : Z) : preserves sameUsed (set_m_lastEndOffset z).
Proof. intros s a s' H. inversion H; subst. reflexivity. Qed.

Lemma same_set_m_current (h : nat) : preserves sameUsed (set_m_current h).
Proof. intros s a s' H. inversion H; subst. reflexivity. Qed.

Lemma same_set_m_importList (l : list ImportRec) : preserves sameUsed (set_m_importList l).
Proof. intros s a s' H. inversion H; subst. reflexivity. Qed.

(** The steps that leave the used comments as they are, composed. *)
Ltac same_used :=
  repeat first
    [ apply preserves_ret; exact sameUsed_refl
    | apply preserves_fault
    | apply same_get | apply same_withDb | apply same_getNode
    | apply same_set_m_nestingLevel | apply same_set_m_lastEndOffset
    | apply same_set_m_current | apply same_set_m_importList
    | assumption
    | apply preserves_forEach; [exact sameUsed_refl|exact sameUsed_trans|intros ?]
    | apply preserves_bind; [exact sameUsed_trans| |intros ?]
    | match goal with
      | |- preserves _ (match ?x with _ => _ end) => destruct x
      | |- preserves _ (if ?x then _ else _) => destruct x
      end ].

Lemma same_onNode (h : nat) (f : Node -> Node) : preserves sameUsed (onNode h f).
Proof. unfold onNode. same_used. Qed.

Lemma same_newNode (n : Node) : preserves sameUsed (newNode n).
Proof. unfold newNode. same_used. Qed.

Lemma same_warning (l : Location) (t : WarningText) : preserves sameUsed (warning l t).
Proof. unfold warning. same_used. Qed.

Lemma same_hasQmlProperty (p : nat) (n : string) : preserves sameUsed (hasQmlProperty p n).
Proof. unfold hasQmlProperty. same_used. Qed.

Lemma same_hasQmlPropertyAttached (p : nat) (n : string) (att : bool) :
  preserves sameUsed (hasQmlPropertyAttached p n att).
Proof. unfold hasQmlPropertyAttached. same_used. Qed.

Lemma same_applyMetacommand (h : nat) (d : Doc) (command : string) :
  preserves sameUsed (applyMetacommand ext h d command).
Proof.
  pose proof same_onNode. pose proof same_warning.
  unfold applyMetacommand, setEnumNode, first, addToQmlModule, addToGroup. same_used.
Qed.

Lemma same_applyMetacommands (h : nat) (d : Doc) :
  preserves sameUsed (applyMetacommands ext src h d).
Proof.
  unfold applyMetacommands. apply preserves_forEach;
    [exact sameUsed_refl|exact sameUsed_trans|intros c; apply same_applyMetacommand].
Qed.

Lemma same_applyTopic (h : nat) (parent_ : option nat) (d : Doc) (t : Topic)
    (bound : list nat) :
  preserves sameUsed (applyTopic ext h parent_ d t bound).
Proof.
  pose proof same_onNode. pose proof same_newNode. pose proof same_hasQmlPropertyAttached.
  unfold applyTopic, propertyTopic, signatureTopic. same_used.
Qed.

Lemma same_applyTopics (h : nat) (parent_ : option nat) (d : Doc) (ts : list Topic) :
  forall bound, preserves sameUsed (applyTopics ext h parent_ d ts bound).
Proof.
  induction ts as [|t ts IH]; intros bound; simpl.
  - apply preserves_ret, sameUsed_refl.
  - apply preserves_bind; [exact sameUsed_trans|apply same_applyTopic|intros b; apply IH].
Qed.
End UsedComments.

Section BinderUsesComment.
Import Visitor.
Variable ext : Collaborators.
Variable src : Source.

Lemma bind_inv {A B} (m : M A) (k : A -> M B) (s s' : State) (b : B) :
  bind m k s = Some (b, s') -> exists a s1, m s = Some (a, s1) /\ k a s1 = Some (b, s').
Proof.
  unfold bind. destruct (m s) as [[a s1]|]; [|discriminate]. intros H. eauto.
Qed.

Lemma used_after_bind {A B} (Q : gset Z -> State -> Prop) (m : M A) (k : A -> M B) :
  preserves sameUsed m ->
  (forall a s b s', k a s = Some (b, s') -> Q (m_usedComments s) s') ->
  forall s b s', bind m k s = Some (b, s') -> Q (m_usedComments s) s'.
Proof.
  intros Hm Hk s b s' H. apply bind_inv in H as (a & s1 & Ha & H).
  rewrite <- (Hm s a s1 Ha). eapply Hk. exact H.
Qed.

Local Ltac same_used' :=
  repeat first
    [ apply preserves_ret; exact sameUsed_refl
    | apply preserves_fault
    | apply same_get | apply same_withDb | apply same_getNode
    | apply same_onNode | apply same_newNode
    | apply same_applyTopics | apply same_applyMetacommands
    | apply same_hasQmlProperty
    | apply same_set_m_nestingLevel | apply same_set_m_lastEndOffset
    | apply same_set_m_current | apply same_set_m_importList
    | apply preserves_forEach; [exact sameUsed_refl|exact sameUsed_trans|intros ?]
    | apply preserves_bind; [exact sameUsed_trans| |intros ?]
    | match goal with
      | |- preserves _ (match ?x with _ => _ end) => destruct x
      | |- preserves _ (if ?x then _ else _) => destruct x
      end ].

(** The binder adds the start of the comment it found to the used
    comments, and nothing else; without a comment it adds nothing. *)
Lemma applyDocumentation_used (location_ : SourceLocation) (node : option nat)
    (s s1 : State) (h : nat) (loc : SourceLocation) :
  Locator.precedingComment (m_document src) (comments src) (m_usedComments s)
    (m_lastEndOffset s) (begin_ location_) = Some loc ->
  applyDocumentation ext src location_ node s = Some (h, s1) ->
  m_usedComments s1
  = if isValid loc then {[ offset loc ]} ∪ m_usedComments s else m_usedComments s.
Proof.
  intros Hloc H. unfold applyDocumentation in H. apply bind_inv in H as (l & s0 & Hp & H).
  unfold precedingComment in Hp. rewrite Hloc in Hp. inversion Hp; subst l s0; clear Hp Hloc.
  destruct (isValid loc); simpl negb in H; cbv iota in H.
  - revert s h s1 H.
    apply (used_after_bind (fun u s' => m_usedComments s' = {[ offset loc ]} ∪ u));
      [same_used'|intros s0].
    apply (used_after_bind (fun u s' => m_usedComments s' = {[ offset loc ]} ∪ u));
      [same_used'|intros h0].
    apply (used_after_bind (fun u s' => m_usedComments s' = {[ offset loc ]} ∪ u));
      [same_used'|intros n].
    apply (used_after_bind (fun u s' => m_usedComments s' = {[ offset loc ]} ∪ u));
      [same_used'|intros _].
    apply (used_after_bind (fun u s' => m_usedComments s' = {[ offset loc ]} ∪ u));
      [same_used'|intros bound].
    apply (used_after_bind (fun u s' => m_usedComments s' = {[ offset loc ]} ∪ u));
      [same_used'|intros _].
    intros s b s' H. inversion H; subst. reflexivity.
  - assert (Hsame : preserves sameUsed
                      (s <- get ;;
                       h <- (match node with
                             | Some h => ret h
                             | None => newNode (new_QmlTypeNode (m_current s) (m_name src))
                             end) ;;
                       _ <- onNode h (setLocation
                                        (setLineNo (int_of_quint32 (startLine location_))
                                                   (Location_new (m_filePath src)))) ;;
                       ret h)) by same_used'.
    exact (Hsame s h s1 H).
Qed.

(** The binder only adds to the used comments. *)
Lemma keeps_applyDocumentation (location_ : SourceLocation) (node : option nat) :
  preserves keepsUsed (applyDocumentation ext src location_ node).
Proof.
  intros s h s1 H. pose proof H as H'. unfold applyDocumentation in H'.
  apply bind_inv in H' as (l & s0 & Hp & _). unfold precedingComment in Hp.
  destruct (Locator.precedingComment _ _ _ _ _) as [loc|] eqn:Hloc; [|discriminate].
  unfold keepsUsed. rewrite (applyDocumentation_used _ _ _ _ _ _ Hloc H).
  destruct (isValid loc); set_solver.
Qed.
End BinderUsesComment.

Section WalkKeepsUsed.
Import Visitor.
Variable ext : Collaborators.
Variable src : Source.

Local Ltac keeps_used :=
  repeat first
    [ apply preserves_ret; exact keepsUsed_refl
    | apply keeps_applyDocumentation
    | apply sameUsed_keepsUsed;
      first [ apply same_get | apply same_getNode | apply same_onNode | apply same_newNode
            | apply same_hasQmlProperty
            | apply same_set_m_nestingLevel | apply same_set_m_lastEndOffset
            | apply same_set_m_current | apply same_set_m_importList ]
    | apply preserves_bind; [exact keepsUsed_trans| |intros ?]
    | match goal with
      | |- preserves _ (match ?x with _ => _ end) => destruct x
      | |- preserves _ (if ?x then _ else _) => destruct x
      end ].

Lemma keeps_visit (n : AstNode) : preserves keepsUsed (visit ext src n).
Proof.
  destruct n; simpl;
    unfold visit_UiObjectDefinition, visit_UiImport, visit_UiObjectBinding,
      visit_UiPublicMember, visit_FunctionDeclaration; keeps_used.
Qed.

Lemma keeps_endVisit (n : AstNode) : preserves keepsUsed (endVisit n).
Proof.
  destruct n; simpl;
    unfold endVisit_UiObjectDefinition, endVisit_UiImport, endVisit_UiObjectBinding,
      endVisit_UiPublicMember, endVisit_FunctionDeclaration, endVisit_UiScriptBinding;
    keeps_used.
Qed.

(** Over a walk of the tree the used comments only grow. *)
Lemma keeps_walk (events : list Event) : preserves keepsUsed (walk ext src events).
Proof.
  unfold walk. apply preserves_forEach; [exact keepsUsed_refl|exact keepsUsed_trans|].
  intros [n|n]; simpl.
  - apply preserves_bind; [exact keepsUsed_trans|apply keeps_visit|].
    intros _. apply preserves_ret, keepsUsed_refl.
  - apply keeps_endVisit.
Qed.
End WalkKeepsUsed.

(** C6. When the binder binds a comment, the start of the comment is in
    the used comments when it returns, and stays there over the rest of
    the walk of the file; from then on no lookup of the locator, at any
    offset, returns a comment that starts there: no later call of the
    binder is given the comment again. *)
Theorem bound_comment_is_not_located_again
    (ext : Collaborators) (src : Source) (location_ : SourceLocation) (node : option nat)
    (s s1 : Visitor.State) (h : nat) (loc : SourceLocation) :
  Locator.precedingComment (m_document src) (comments src) (Visitor.m_usedComments s)
    (Visitor.m_lastEndOffset s) (begin_ location_) = Some loc ->
  isValid loc = true ->
  Visitor.applyDocumentation ext src location_ node s = Some (h, s1) ->
  offset loc ∈ Visitor.m_usedComments s1
  /\ forall events s2,
       Visitor.walk ext src events s1 = Some (tt, s2) ->
       offset loc ∈ Visitor.m_usedComments s2
       /\ forall offset_ r,
            Locator.precedingComment (m_document src) (comments src)
              (Visitor.m_usedComments s2) (Visitor.m_lastEndOffset s2) offset_ = Some r ->
            isValid r = true ->
            offset r <> offset loc.
Proof.
  intros Hloc Hvalid Hbind.
  assert (Hin : offset loc ∈ Visitor.m_usedComments s1).
  { rewrite (applyDocumentation_used ext src _ _ _ _ _ _ Hloc Hbind), Hvalid. set_solver. }
  split; [exact Hin|]. intros events s2 Hwalk.
  assert (Hin2 : offset loc ∈ Visitor.m_usedComments s2).
  { apply (keeps_walk ext src events s1 tt s2 Hwalk). exact Hin. }
  split; [exact Hin2|]. intros offset_ r Hr Hv Heq.
  destruct (scan_sound _ _ _ _ _ _ Hr Hv) as (_ & _ & Hfresh).
  apply Hfresh. right. unfold begin_. rewrite Heq. exact Hin2.
Qed.

(** ** The properties on the inputs of the examples *)

(** C1 on the example document: from the object at 16 the locator
    returns the documentation comment at 9. *)
Lemma precedingComment_first_eligible_witness :
  Locator.precedingComment Examples.document
    [Examples.plainComment; Examples.docComment] ∅ 0 16 = Some Examples.docComment
  /\ (Examples.docComment = SourceLocation_null \/
      isValid Examples.docComment = true
      /\ Examples.docComment ∈ [Examples.plainComment; Examples.docComment]
      /\ Locator.qualifies Examples.document 0 16 Examples.docComment
      /\ ~ Locator.stale ∅ 0 Examples.docComment).
Proof.
  split; [vm_compute; reflexivity|].
  apply (proj2 (precedingComment_first_eligible Examples.document
                  [Examples.plainComment; Examples.docComment] ∅ 0 16)
               Examples.docComment). vm_compute; reflexivity.
Defined.

(** The comment that ends before the cursor: with [last_end] at 25 the
    comment at 20 is not returned. *)
Example stale_comment_is_excluded (doc : string) :
  Locator.precedingComment doc [mkSourceLocation 20 3 1 1] ∅ 25 30 = Some SourceLocation_null.
Proof. reflexivity. Qed.

(** C3, against its wording: on a signature whose parameter list is not
    closed the parse fails, and the method has lost its return type and
    its parameter for the one parameter read. *)
Lemma unterminated_parameters_overwrite_the_signature :
  exists p s' n',
    SignatureParser.parse (needSpace Examples.collaborators)
      (tokenize Examples.collaborators Examples.signature_unterminated) Examples.foo
      Examples.signature_unterminated (Location_new "Item.qml") = Some (false, p)
    /\ Visitor.applyTopic Examples.collaborators 3 (Some 1%nat)
         (Examples.docOfTopic "qmlmethod" Examples.signature_unterminated)
         (mkTopic "qmlmethod" Examples.signature_unterminated) [3%nat] Examples.visitor
       = Some ([3%nat], s')
    /\ nodes (Visitor.db Examples.visitor) !! 3%nat = Some Examples.foo
    /\ nodes (Visitor.db s') !! 3%nat = Some n'
    /\ returnTypeOf Examples.foo = "int" /\ returnTypeOf n' = ""
    /\ parametersOf Examples.foo = [mkParameter "" "x" ""]
    /\ parametersOf n' = [mkParameter "int" "a" ""].
Proof.
  eexists _, _, _. split; [vm_compute; reflexivity|].
  split; [vm_compute; reflexivity|]. repeat split.
Qed.

(** C3 on a method topic without a parameter list: the method is as it
    was. *)
Lemma malformed_signature_before_parameters_witness :
  exists ok p,
    SignatureParser.parse (needSpace Examples.collaborators)
      (tokenize Examples.collaborators Examples.signature_noParen) Examples.foo
      Examples.signature_noParen (Location_new "Item.qml") = Some (ok, p)
    /\ Visitor.applyTopic Examples.collaborators 3 (Some 1%nat)
         (Examples.docOfTopic "qmlmethod" Examples.signature_noParen)
         (mkTopic "qmlmethod" Examples.signature_noParen) [3%nat] Examples.visitor
       = Some ([3%nat], Examples.visitor)
    /\ ok = false.
Proof.
  destruct (malformed_signature_before_parameters Examples.collaborators 3 (Some 1%nat)
              (Examples.docOfTopic "qmlmethod" Examples.signature_noParen)
              (mkTopic "qmlmethod" Examples.signature_noParen) [3%nat] Examples.visitor
              Examples.foo eq_refl eq_refl eq_refl eq_refl)
    as (ok & p & s' & Hparse & Htopic & _ & Hfail).
  destruct (Hfail eq_refl) as [Hok Hs].
  subst s'. exists ok, p. split; [exact Hparse|]. split; [exact Htopic|exact Hok].
Defined.

(** C4, against its wording: [abstract] on a property is skipped without
    a warning. *)
Lemma abstract_on_a_property_gives_no_warning :
  Visitor.misapplied Command.ABSTRACT Examples.width = true
  /\ nodes (Visitor.db Examples.visitor) !! 2%nat = Some Examples.width
  /\ Visitor.applyMetacommands Examples.collaborators Examples.source 2
       (Examples.docOfCommand Command.ABSTRACT []) Examples.visitor
     = Some (tt, Examples.visitor)
  /\ warnings (Visitor.db Examples.visitor) = [].
Proof. repeat split. Qed.

(** C4 on [default] applied to a method: the misuse is reported and
    the state is otherwise as it was. *)
Lemma misapplied_command_is_skipped_witness :
  Visitor.applyMetacommand Examples.collaborators 3
    (Examples.docOfCommand Command.DEFAULT [("1", "")]) Command.DEFAULT Examples.visitor
  = Some (tt, Visitor.withWarning
                (mkWarning (Location_new "Item.qml")
                           (IgnoredAppliesOnlyTo Command.DEFAULT Command.QMLPROPERTY))
                Examples.visitor).
Proof.
  apply (misapplied_command_is_skipped Examples.collaborators 3
           (Examples.docOfCommand Command.DEFAULT [("1", "")]) Command.DEFAULT []
           Examples.visitor Examples.foo eq_refl eq_refl).
  intros H. discriminate H.
Defined.

(** C5 on [since] without an argument. *)
Lemma first_argument_of_empty_list_witness :
  Visitor.applyMetacommands Examples.collaborators Examples.source 3
    (Examples.docOfCommand Command.SINCE []) Examples.visitor = None.
Proof.
  unfold Visitor.applyMetacommands. simpl. unfold Visitor.bind.
  rewrite (first_argument_of_empty_list Examples.collaborators 3
             (Examples.docOfCommand Command.SINCE []) Command.SINCE Examples.visitor
             Examples.foo eq_refl eq_refl eq_refl).
  reflexivity.
Defined.

(** C8 on a property and a function inside a nested object. *)
Lemma nested_members_are_not_documented_witness :
  Visitor.visit Examples.collaborators Examples.source
    (AstPublicMember Examples.heightMember) Examples.nestedVisitor
  = Some (true, Examples.nestedVisitor)
  /\ Visitor.visit Examples.collaborators Examples.source
       (AstFunctionDeclaration Examples.barDeclaration) Examples.nestedVisitor
     = Some (true, Examples.nestedVisitor).
Proof.
  apply (nested_members_are_not_documented Examples.collaborators Examples.source
           Examples.nestedVisitor Examples.heightMember Examples.barDeclaration).
  reflexivity.
Defined.

(** C9 on the type that names itself as its base. *)
Lemma qmlinherits_rejects_the_node_itself_witness :
  Visitor.applyMetacommand Examples.collaborators 1
    (Examples.docOfCommand Command.QMLINHERITS [("Item", "")]) Command.QMLINHERITS
    Examples.visitor
  = Some (tt, Visitor.withWarning
                (mkWarning (Location_new "Item.qml") (TriesToInheritItself "Item"))
                Examples.visitor).
Proof.
  apply (proj1 (qmlinherits_rejects_the_node_itself Examples.collaborators 1
                  (Examples.docOfCommand Command.QMLINHERITS [("Item", "")])
                  Examples.visitor Examples.item "Item" "" [] eq_refl eq_refl)).
  reflexivity.
Defined.

(** C10 on a construct before the comments. *)
Lemma undocumented_node_gets_the_start_line_witness :
  Visitor.applyDocumentation Examples.collaborators Examples.source Examples.topLocation
    (Some 2%nat) Examples.visitor
  = Some (2%nat,
          Visitor.replaceNode 2
            (setLocation (setLineNo 1 (Location_new "Item.qml")) Examples.width)
            Examples.visitor).
Proof.
  apply (undocumented_node_gets_the_start_line Examples.collaborators Examples.source
           Examples.topLocation 2 Examples.visitor Examples.width SourceLocation_null).
  - vm_compute; reflexivity.
  - reflexivity.
  - reflexivity.
Defined.

(** C6 on the example document: the binder binds the comment at 9 to
    the property, and 9 is then a used comment. *)
Lemma bound_comment_is_not_located_again_witness :
  exists s1,
    Visitor.applyDocumentation Examples.collaborators Examples.source
      Examples.objectLocation (Some 2%nat) Examples.visitor = Some (2%nat, s1)
    /\ offset Examples.docComment ∈ Visitor.m_usedComments s1.
Proof.
  eexists. split; [vm_compute; reflexivity|].
  refine (proj1 (bound_comment_is_not_located_again Examples.collaborators Examples.source
                   Examples.objectLocation (Some 2%nat) Examples.visitor _ 2
                   Examples.docComment _ _ _)).
  - vm_compute; reflexivity.
  - reflexivity.
  - vm_compute; reflexivity.
Defined.

(** C7 on the read-only default property [width] whose comment has a
    topic for [height]: [height] is created read-only and default. *)
Lemma property_topic_binds_a_sibling_witness :
  exists n sibling a s',
    Visitor.applyTopic Examples.collaborators 2 (Some 1%nat)
      (Examples.docOfTopic "qmlproperty" "height") (mkTopic "qmlproperty" "height")
      [2%nat] Examples.visitor = Some ([2%nat; n], s')
    /\ nodes (Visitor.db s') !! n = Some sibling
    /\ name (common sibling) = "height"
    /\ variant sibling = QmlPropertyNode a
    /\ readOnly a = true
    /\ isDefault a = true.
Proof.
  destruct (property_topic_binds_a_sibling Examples.collaborators 2 1
              (Examples.docOfTopic "qmlproperty" "height") (mkTopic "qmlproperty" "height")
              [2%nat] Examples.visitor Examples.width
              (mkQmlPropertyArguments "height" "real" false)
              eq_refl eq_refl eq_refl eq_refl eq_refl ltac:(discriminate))
    as (n & sibling & a & s' & Happly & _ & _ & _ & Hn & Hname & _ & _ & _ & Hv & _ & Hro
        & _ & Hdef).
  exists n, sibling, a, s'.
  split; [exact Happly|]. split; [exact Hn|]. split; [exact Hname|].
  split; [exact Hv|]. split; [exact Hro|]. apply Hdef. reflexivity.
Defined.

(** * Further properties *)

(** ** Parameter lists *)

Section ParameterLists.
Import SignatureParser Signature.
Variable needSpace : ascii -> ascii -> bool.

(** One turn of the loop over the parameters, on a parameter with a
    type and a name that a comma follows. *)
Lemma parameterList_comma (t n t' : string) (rest : list Token) (prev : string)
    (pd bd : Z) (names : list string) (func : Node) :
  n <> "" ->
  parameterList needSpace tt
    (positioned (ident t :: ident n :: comma :: ident t' :: rest) prev pd bd names func)
  = Some (Continue tt,
          positioned (ident t' :: rest) "," pd bd names (addParameter func (t, n))).
Proof. intros Hn. destruct n; [contradiction|]. vm_compute. reflexivity. Qed.

(** The last turn, on a parameter that the closing parenthesis
    follows. *)
Lemma parameterList_last (t n : string) (tail : list Token) (prev : string)
    (pd bd : Z) (names : list string) (func : Node) :
  n <> "" ->
  parameterList needSpace tt
    (positioned (ident t :: ident n :: rightParen :: tail) prev pd bd names func)
  = Some (Done true,
          positioned (rightParen :: tail) n (pd - 1) bd names (addParameter func (t, n))).
Proof. intros Hn. destruct n; [contradiction|]. vm_compute. reflexivity. Qed.

(** The same turns on a parameter given by its name alone: what was
    read as the type becomes the name. *)
Lemma parameterList_untyped_comma (x t' : string) (rest : list Token) (prev : string)
    (pd bd : Z) (names : list string) (func : Node) :
  parameterList needSpace tt
    (positioned (ident x :: comma :: ident t' :: rest) prev pd bd names func)
  = Some (Continue tt,
          positioned (ident t' :: rest) "," pd bd names (addParameter func ("", x))).
Proof. vm_compute. reflexivity. Qed.

Lemma parameterList_untyped_last (x : string) (tail : list Token) (prev : string)
    (pd bd : Z) (names : list string) (func : Node) :
  parameterList needSpace tt
    (positioned (ident x :: rightParen :: tail) prev pd bd names func)
  = Some (Done true,
          positioned (rightParen :: tail) x (pd - 1) bd names (addParameter func ("", x))).
Proof. vm_compute. reflexivity. Qed.

Lemma parameters_begin_with_ident (ps : list (string * string)) (tail : list Token) :
  ps <> [] -> exists x more, (parameterTokens ps ++ tail)%list = ident x :: more.
Proof.
  destruct ps as [|[t n] ps]; [congruence|]. intros _. simpl. unfold oneParameter.
  destruct (isEmpty (fst (t, n))); simpl; eauto.
Qed.

Lemma parameterList_loop (tail : list Token) (bd : Z) (names : list string) :
  forall (ps : list (string * string)) (n : nat) (prev : string) (pd : Z) (func : Node),
  ps <> [] -> Forall (fun p => snd p <> "") ps -> (List.length ps <= n)%nat ->
  loop_fuel n (parameterList needSpace) tt
    (positioned (parameterTokens ps ++ rightParen :: tail)%list prev pd bd names func)
  = Some (true, positioned (rightParen :: tail) (snd (List.last ps ("", ""))) (pd - 1) bd
                  names (fold_left addParameter ps func)).
Proof.
  induction ps as [|[t n0] ps IH]; intros n prev pd func Hne Hall Hlen; [congruence|].
  inversion Hall as [|? ? Hn Hall']; subst. simpl in Hn.
  destruct n as [|n]; [simpl in Hlen; lia|].
  destruct ps as [|q ps].
  - cbn [parameterTokens loop_fuel]. unfold oneParameter. cbn [fst snd].
    destruct t as [|a t]; cbn [isEmpty app].
    + rewrite parameterList_untyped_last. reflexivity.
    + rewrite (parameterList_last _ n0 tail prev pd bd names func Hn). reflexivity.
  - destruct (parameters_begin_with_ident (q :: ps) (rightParen :: tail))
      as (x & more & Hnext); [discriminate|].
    pose proof (IH n "," pd) as IH'. rewrite Hnext in IH'.
    change (parameterTokens ((t, n0) :: q :: ps))
      with (oneParameter (t, n0) ++ comma :: parameterTokens (q :: ps))%list.
    rewrite <- app_assoc. cbn [app]. rewrite Hnext.
    unfold oneParameter. cbn [fst snd loop_fuel].
    destruct t as [|a t]; cbn [isEmpty app].
    + rewrite parameterList_untyped_comma.
      apply IH'; [discriminate|exact Hall'|simpl in *; lia].
    + rewrite (parameterList_comma _ n0 x more prev pd bd names func Hn).
      apply IH'; [discriminate|exact Hall'|simpl in *; lia].
Qed.
End ParameterLists.

Section Declarations.
Import SignatureParser Signature.
Variable needSpace : ascii -> ascii -> bool.

(** One turn of the loop over the name, on a qualifier. *)
Lemma qualifiedName_qualifier (q x : string) (rest : list Token) (prev : string)
    (pd bd : Z) (names : list string) (func : Node) :
  qualifiedName tt (positioned (ident q :: scope :: ident x :: rest) prev pd bd names func)
  = Some (Continue tt, positioned (ident x :: rest) "::" pd bd (names ++ [q])%list func).
Proof. vm_compute. reflexivity. Qed.

(** The last turn, on the name itself: it is read and not kept. *)
Lemma qualifiedName_name (f : string) (rest : list Token) (prev : string)
    (pd bd : Z) (names : list string) (func : Node) :
  qualifiedName tt (positioned (ident f :: leftParen :: rest) prev pd bd names func)
  = Some (Done tt, positioned (leftParen :: rest) f (pd + 1) bd names func).
Proof.
  transitivity (Some (@Done unit unit tt,
                      positioned (leftParen :: rest) f (pd + 1) bd
                        (removelast (names ++ [f])%list) func)).
  - vm_compute. reflexivity.
  - rewrite removelast_last. reflexivity.
Qed.

Lemma qualifiedName_loop (f : string) (rest : list Token) (bd : Z) (func : Node) :
  forall (qs : list string) (n : nat) (prev : string) (pd : Z) (names : list string),
  (List.length qs < n)%nat ->
  loop_fuel n qualifiedName tt
    (positioned (qualifierTokens qs ++ ident f :: leftParen :: rest)%list prev pd bd names func)
  = Some (tt, positioned (leftParen :: rest) f (pd + 1) bd (names ++ qs)%list func).
Proof.
  induction qs as [|q qs IH]; intros n prev pd names Hlen;
    (destruct n as [|n]; [simpl in Hlen; lia|]).
  - cbn [qualifierTokens app loop_fuel]. rewrite qualifiedName_name.
    rewrite app_nil_r. reflexivity.
  - cbn [qualifierTokens app loop_fuel].
    assert (Hnext : exists x more,
               (qualifierTokens qs ++ ident f :: leftParen :: rest)%list = ident x :: more).
    { destruct qs; simpl; eauto. }
    destruct Hnext as (x & more & Hnext).
    pose proof (IH n "::" pd (names ++ [q])%list) as IH'.
    rewrite Hnext in *. rewrite qualifiedName_qualifier.
    rewrite IH' by (simpl in Hlen; lia). rewrite <- app_assoc. reflexivity.
Qed.

Lemma length_qualifierTokens (qs : list string) :
  List.length (qualifierTokens qs) = (2 * List.length qs)%nat.
Proof. induction qs as [|q qs IH]; simpl; [reflexivity|]. rewrite IH. lia. Qed.

Lemma length_parameterTokens (ps : list (string * string)) :
  (List.length ps <= List.length (parameterTokens ps))%nat.
Proof.
  induction ps as [|p ps IH]; [simpl; lia|].
  change (parameterTokens (p :: ps))
    with (oneParameter p ++ match ps with
                            | [] => []
                            | _ :: _ => comma :: parameterTokens ps
                            end)%list.
  rewrite length_app. unfold oneParameter.
  destruct (isEmpty (fst p)); destruct ps; simpl in *; lia.
Qed.

(** The parameters a function node has after some were added. *)
Lemma parameters_added (ps : list (string * string)) :
  forall func, isFunction func = true ->
  isFunction (fold_left addParameter ps func) = true
  /\ common (fold_left addParameter ps func) = common func
  /\ returnTypeOf (fold_left addParameter ps func) = returnTypeOf func
  /\ parametersOf (fold_left addParameter ps func)
     = (parametersOf func ++ List.map (fun p => mkParameter (fst p) (snd p) "") ps)%list.
Proof.
  induction ps as [|p ps IH]; intros func Hf; simpl.
  - rewrite app_nil_r. auto.
  - assert (Hadd : isFunction (addParameter func p) = true
                   /\ common (addParameter func p) = common func
                   /\ returnTypeOf (addParameter func p) = returnTypeOf func
                   /\ parametersOf (addParameter func p)
                      = (parametersOf func ++ [mkParameter (fst p) (snd p) ""])%list).
    { destruct func as [c v]. unfold isFunction in Hf. simpl in Hf.
      destruct v; try discriminate. repeat split. }
    destruct Hadd as (Hf' & Hc & Hr & Hp).
    destruct (IH _ Hf') as (H1 & H2 & H3 & H4).
    rewrite H2, H3, H4, Hc, Hr, Hp, <- app_assoc. auto.
Qed.
End Declarations.

Section DeclarationParse.
Import SignatureParser Signature.
Variable needSpace : ascii -> ascii -> bool.

Lemma start_ident (x : string) (more : list Token) (func : Node) :
  start (ident x :: more) func = positioned (ident x :: more) "" 0 0 [] func.
Proof. reflexivity. Qed.

Lemma measure_ident (x : string) (more : list Token) (prev : string) (pd bd : Z)
    (names : list string) (func : Node) :
  measure (positioned (ident x :: more) prev pd bd names func) = (List.length more + 1)%nat.
Proof. reflexivity. Qed.

Lemma tokens_begin_with_ident (qs : list string) (f : string) (rest : list Token) :
  exists x more, (qualifierTokens qs ++ ident f :: rest)%list = ident x :: more.
Proof. destruct qs; simpl; eauto. Qed.

(** The first part of the parse of a declaration without a return
    type: the qualifiers are kept, the name is read, and the parser is
    at the opening parenthesis. *)
Lemma declarator_declaration (qs : list string) (f : string) (rest : list Token)
    (func : Node) (signature : string) :
  hasReturnType signature = false ->
  declarator needSpace signature
    (start (qualifierTokens qs ++ ident f :: leftParen :: rest)%list func)
  = Some (Some "", positioned (leftParen :: rest) f 1 0 qs func).
Proof.
  intros Hsig. unfold hasReturnType in Hsig.
  unfold declarator. cbv zeta. rewrite Hsig.
  destruct (tokens_begin_with_ident qs f (leftParen :: rest)) as (x & more & Htokens).
  assert (Hlen : (List.length qs <
                  List.length (qualifierTokens qs ++ ident f :: leftParen :: rest))%nat).
  { rewrite length_app, length_qualifierTokens. simpl. lia. }
  assert (Hloop := qualifiedName_loop f rest 0 func qs
                     (S (measure (start (ident x :: more) func))) "" 0 []).
  rewrite Htokens in *. rewrite start_ident in *.
  unfold bind, ret, loop. cbn [fst snd negb].
  rewrite Hloop by (rewrite measure_ident; simpl in Hlen; lia). reflexivity.
Qed.

(** The second part of [matchFunctionDecl] at a parameter list that is
    not empty: the location and the return type are set, the parameters
    are dropped, and the loop over the parameters runs. *)
Lemma parameters_part (t f returnType_ : string) (more : list Token) (qs : list string)
    (func : Node) (loc : Location) :
  (_ <- readToken ;;
   _ <- onFunc (setLocation loc) ;;
   _ <- onFunc (setReturnType returnType_) ;;
   t' <- getTok ;;
   ok <- (if bool_decide (t' <> Tok_RightParen)
          then _ <- onFunc (setParameters []) ;; loop (parameterList needSpace) tt
          else ret true) ;;
   if negb ok then ret false else b <- match_ Tok_RightParen ;; ret b)
    (positioned (leftParen :: ident t :: more) f 1 0 qs func)
  = (ok <- loop_fuel (S (List.length more + 1)) (parameterList needSpace) tt ;;
     if negb ok then ret false else b <- match_ Tok_RightParen ;; ret b)
      (positioned (ident t :: more) "(" 1 0 qs
         (setParameters [] (setReturnType returnType_ (setLocation loc func)))).
Proof. reflexivity. Qed.

(** The first part of the parse of a declaration with a return type of
    one identifier: the type is read before the name. *)
Lemma declarator_typed_declaration (r : string) (qs : list string) (f : string)
    (rest : list Token) (func : Node) (signature : string) :
  hasReturnType signature = true ->
  declarator needSpace signature
    (start (ident r :: qualifierTokens qs ++ ident f :: leftParen :: rest)%list func)
  = Some (Some r, positioned (leftParen :: rest) f 1 0 qs func).
Proof.
  intros Hsig. unfold hasReturnType in Hsig.
  unfold declarator. cbv zeta. rewrite Hsig.
  destruct (tokens_begin_with_ident qs f (leftParen :: rest)) as (x & more & Htokens).
  assert (Hlen : (List.length qs <
                  List.length (qualifierTokens qs ++ ident f :: leftParen :: rest))%nat).
  { rewrite length_app, length_qualifierTokens. simpl. lia. }
  assert (Hloop := qualifiedName_loop f rest 0 func qs
                     (S (measure (positioned (ident x :: more) r 0 0 [] func))) r 0 []).
  rewrite Htokens in *.
  assert (Htype : matchTypeAndName needSpace "" None (start (ident r :: ident x :: more) func)
                  = Some ((true, r, None), positioned (ident x :: more) r 0 0 [] func)).
  { vm_compute. reflexivity. }
  unfold bind at 1. rewrite Htype.
  unfold bind, ret, loop. cbn [fst snd negb].
  rewrite Hloop by (rewrite measure_ident; simpl in Hlen; lia). reflexivity.
Qed.

(** The parse of the parameters after the first part. *)
Lemma parse_parameters (tokens : list Token) (returnType_ : string) (qs : list string)
    (f : string) (ps : list (string * string)) (func : Node) (signature : string)
    (loc : Location) :
  declarator needSpace signature (start tokens func)
  = Some (Some returnType_,
          positioned (leftParen :: parameterTokens ps ++ [rightParen]) f 1 0 qs func) ->
  Forall (fun p => snd p <> "") ps ->
  parse needSpace tokens func signature loc
  = Some (true,
          positioned [] ")" 0 0 qs
            match ps with
            | [] => setReturnType returnType_ (setLocation loc func)
            | _ :: _ => fold_left addParameter ps
                          (setParameters []
                             (setReturnType returnType_ (setLocation loc func)))
            end).
Proof.
  intros Hdecl Hps.
  unfold parse, matchFunctionDecl. unfold bind at 1. rewrite Hdecl.
  destruct ps as [|[t n] ps].
  - vm_compute. reflexivity.
  - assert (Hparams := parameterList_loop needSpace [] 0 qs ((t, n) :: ps)).
    destruct (parameters_begin_with_ident ((t, n) :: ps) [rightParen])
      as (x & more & Hnext); [discriminate|].
    pose proof (length_parameterTokens ((t, n) :: ps)) as Hl.
    assert (Hmore : (List.length ((t, n) :: ps) <= S (List.length more + 1))%nat).
    { apply (f_equal (@List.length Token)) in Hnext. rewrite length_app in Hnext.
      change (List.length (ident x :: more)) with (S (List.length more)) in Hnext.
      change (List.length [rightParen]) with 1%nat in Hnext. lia. }
    rewrite Hnext in *.
    rewrite parameters_part. unfold bind at 1.
    rewrite Hparams; [|discriminate|exact Hps|exact Hmore].
    vm_compute. reflexivity.
Qed.

(** The parse of a declaration, by its return type if it has one, its
    qualifiers, its name and its parameters. *)
Lemma parse_declaration (returnType_ : option string) (qs : list string) (f : string)
    (ps : list (string * string)) (func : Node) (signature : string) (loc : Location) :
  hasReturnType signature = match returnType_ with Some _ => true | None => false end ->
  Forall (fun p => snd p <> "") ps ->
  parse needSpace (typedDeclarationTokens returnType_ qs f ps) func signature loc
  = Some (true,
          positioned [] ")" 0 0 qs
            match ps with
            | [] => setReturnType (default "" returnType_) (setLocation loc func)
            | _ :: _ => fold_left addParameter ps
                          (setParameters []
                             (setReturnType (default "" returnType_)
                                (setLocation loc func)))
            end).
Proof.
  intros Hsig Hps. apply (parse_parameters _ _ qs f); [|exact Hps].
  destruct returnType_ as [r|]; simpl; unfold declarationTokens.
  - apply declarator_typed_declaration. exact Hsig.
  - apply declarator_declaration. exact Hsig.
Qed.
End DeclarationParse.

(** ** What the parser writes *)

Section ParserWrites.
Import SignatureParser Signature.
Variable needSpace : ascii -> ascii -> bool.

Lemma setParameters_twice (l l' : list FnParameter) (n : Node) :
  setParameters l (setParameters l' n) = setParameters l n.
Proof. destruct n as [c []]; reflexivity. Qed.

Lemma parametersChanged_refl (n : Node) : parametersChanged n n.
Proof. left. reflexivity. Qed.

Lemma parametersChanged_trans (n1 n2 n3 : Node) :
  parametersChanged n1 n2 -> parametersChanged n2 n3 -> parametersChanged n1 n3.
Proof.
  intros [->|[l ->]] [->|[l' ->]]; unfold parametersChanged; eauto.
  right. exists l'. apply setParameters_twice.
Qed.

Lemma fills_refl (s : State) : fills s s.
Proof. split; [lia|apply parametersChanged_refl]. Qed.

Lemma fills_trans (s1 s2 s3 : State) : fills s1 s2 -> fills s2 s3 -> fills s1 s3.
Proof.
  intros [? ?] [? ?]. split; [lia|eapply parametersChanged_trans; eassumption].
Qed.

Lemma reads_fills (s s' : State) : reads s s' -> fills s s'.
Proof. intros [Hle Hf]. split; [exact Hle|]. left. exact Hf. Qed.

Lemma matchParameter_fills : returns fills (matchParameter needSpace).
Proof.
  intros s. unfold matchParameter.
  eapply bind_rule with (Q1 := fun _ s1 => fills s s1).
  { destruct (matchTypeAndName_reads needSpace "" (Some "") s) as (r & s1 & Hm & Hr).
    exists r, s1. split; [exact Hm|]. apply reads_fills. exact Hr. }
  intros r s1 H1. destruct (fst (fst r)); simpl.
  2: { apply ret_rule. exact H1. }
  destruct (match_spec Tok_Equal s1 ltac:(discriminate)) as (b & s2 & Hm & Hr & _ & _ & _).
  unfold bind at 1. rewrite Hm.
  eapply bind_rule with (Q1 := fun _ s3 => fills s s3).
  { destruct b.
    - unfold bind at 1. unfold parenDepth.
      destruct (loop_reads _ (defaultTokens_turn needSpace
                                (Tokenizer.m_parenDepth (tokenizer_ s2))) "" s2)
        as (v & s3 & Hl & Hr3).
      exists v, s3. split; [exact Hl|].
      eapply fills_trans; [exact H1|]. apply reads_fills. eapply reads_trans; eassumption.
    - apply ret_rule. eapply fills_trans; [exact H1|]. apply reads_fills. exact Hr. }
  intros v s3 [Hle Hp]. unfold bind, onFunc, ret. eexists _, _. split; [reflexivity|].
  split; [exact Hle|]. simpl. eapply parametersChanged_trans; [exact Hp|].
  right. eexists. reflexivity.
Qed.

Lemma parameterList_fills (u : unit) (s : State) :
  exists c s', parameterList needSpace u s = Some (c, s') /\ fills s s' /\
               (forall a', c = Continue a' -> (measure s' < measure s)%nat).
Proof.
  unfold parameterList.
  destruct (matchParameter_fills s) as (ok & s1 & Hm & H1).
  unfold bind at 1. rewrite Hm. destruct ok; simpl.
  - destruct (match_spec Tok_Comma s1 ltac:(discriminate))
      as (b & s2 & Hc & Hr & _ & Hlt & _).
    unfold bind at 1. rewrite Hc.
    assert (fills s s2) by (eapply fills_trans; [exact H1|apply reads_fills; exact Hr]).
    destruct b; eexists _, s2; (split; [reflexivity|]); (split; [assumption|]);
      [|discriminate].
    intros _ _. specialize (Hlt eq_refl). destruct H1 as [? _]. lia.
  - eexists _, s1. split; [reflexivity|]. split; [exact H1|discriminate].
Qed.

Lemma parameters_loop_fills : returns fills (loop (parameterList needSpace) tt).
Proof.
  apply loop_returns.
  - apply fills_refl.
  - apply fills_trans.
  - intros s s' [Hle _]; exact Hle.
  - apply parameterList_fills.
Qed.

(** The second part of [matchFunctionDecl]: it returns, and the
    function node is the one it started with, with the location and the
    return type set and, at most, another list of parameters. *)
Lemma parameters_part_writes (returnType_ : string) (location_ : Location) (s1 : State) :
  exists b s',
    (_ <- readToken ;;
     _ <- onFunc (setLocation location_) ;;
     _ <- onFunc (setReturnType returnType_) ;;
     t' <- getTok ;;
     ok <- (if bool_decide (t' <> Tok_RightParen)
            then _ <- onFunc (setParameters []) ;; loop (parameterList needSpace) tt
            else ret true) ;;
     if negb ok then ret false else b <- match_ Tok_RightParen ;; ret b) s1 = Some (b, s')
    /\ parametersChanged (setReturnType returnType_ (setLocation location_ (func_ s1)))
         (func_ s').
Proof.
  destruct (readToken_spec s1) as (s2 & Hr & Hf2 & _).
  unfold bind at 1. rewrite Hr.
  unfold bind at 1, onFunc at 1. unfold bind at 1, onFunc at 1.
  unfold bind at 1, getTok. cbn [tok_ func_ tokenizer_ names_].
  rewrite Hf2.
  eapply bind_rule
    with (Q1 := fun _ s3 => parametersChanged
                              (setReturnType returnType_ (setLocation location_ (func_ s1)))
                              (func_ s3)).
  { case_bool_decide.
    - unfold bind at 1, onFunc at 1.
      match goal with
      | |- context [loop _ tt ?st] =>
          destruct (parameters_loop_fills st) as (ok & s3 & Hl & _ & Hp)
      end.
      exists ok, s3. split; [exact Hl|]. simpl in Hp.
      eapply parametersChanged_trans; [|exact Hp]. right. eexists. reflexivity.
    - apply ret_rule. apply parametersChanged_refl. }
  intros ok s3 H3. destruct ok; simpl.
  - destruct (match_spec Tok_RightParen s3 ltac:(discriminate))
      as (b & s4 & Hm & [_ Hf] & _).
    unfold bind. rewrite Hm. eexists _, _. split; [reflexivity|]. rewrite Hf. exact H3.
  - apply ret_rule. exact H3.
Qed.
End ParserWrites.

Lemma parse_writes
    (needSpace : ascii -> ascii -> bool) (tokens : list Token) (func : Node)
    (signature : string) (loc : Location) :
  exists ok s',
    SignatureParser.parse needSpace tokens func signature loc = Some (ok, s')
    /\ match SignatureParser.declarator needSpace signature
               (SignatureParser.start tokens func) with
       | Some (Some returnType_, _) =>
           Signature.parametersChanged (setReturnType returnType_ (setLocation loc func))
             (SignatureParser.func_ s')
       | _ => ok = false /\ SignatureParser.func_ s' = func
       end.
Proof.
  unfold SignatureParser.parse, SignatureParser.matchFunctionDecl.
  destruct (declarator_reads needSpace signature (SignatureParser.start tokens func))
    as (d & s1 & Hd & _ & Hf).
  unfold SignatureParser.bind at 1. rewrite Hd.
  assert (Hstart : SignatureParser.func_ (SignatureParser.start tokens func) = func).
  { unfold SignatureParser.start. destruct (Tokenizer.getToken _). reflexivity. }
  rewrite Hstart in Hf.
  destruct d as [returnType_|].
  - destruct (parameters_part_writes needSpace returnType_ loc s1) as (b & s' & Hrun & Hp).
    exists b, s'. split; [exact Hrun|]. rewrite Hf in Hp. exact Hp.
  - exists false, s1. split; [reflexivity|]. split; [reflexivity|exact Hf].
Qed.

(** The node the parser leaves is the node it was given, edited. *)
Lemma parse_sameIdentity
    (needSpace : ascii -> ascii -> bool) (tokens : list Token) (func : Node)
    (signature : string) (loc : Location) (ok : bool) (s' : SignatureParser.State) :
  SignatureParser.parse needSpace tokens func signature loc = Some (ok, s') ->
  Frame.sameIdentity func (SignatureParser.func_ s').
Proof.
  intros Hparse.
  destruct (parse_writes needSpace tokens func signature loc) as (ok' & s'' & Hrun & Hw).
  rewrite Hparse in Hrun. inversion Hrun; subst ok' s''; clear Hrun.
  destruct (SignatureParser.declarator _ _ _) as [[[rt|] ?]|].
  - destruct Hw as [->|[l ->]]; destruct func as [c []]; repeat split.
  - destruct Hw as [_ ->]. destruct func as [c []]; repeat split.
  - destruct Hw as [_ ->]. destruct func as [c []]; repeat split.
Qed.

(** X1. On every token sequence the parser returns, and it writes
    nothing but the signature of the function node: where it stops
    before the parameter list the node is as it was; where it reaches the
    parameter list the node has the location of the comment and the
    return type read, whether the parse succeeds or not, and apart from
    these at most another list of parameters. *)
Theorem parser_writes_the_signature_only
    (needSpace : ascii -> ascii -> bool) (tokens : list Token) (func : Node)
    (signature : string) (loc : Location) :
  exists ok s',
    SignatureParser.parse needSpace tokens func signature loc = Some (ok, s')
    /\ match SignatureParser.declarator needSpace signature
               (SignatureParser.start tokens func) with
       | Some (Some returnType_, _) =>
           Signature.parametersChanged (setReturnType returnType_ (setLocation loc func))
             (SignatureParser.func_ s')
       | _ => ok = false /\ SignatureParser.func_ s' = func
       end.
Proof. apply parse_writes. Qed.

(** X2. A declaration round trip: for every function node, every return
    type of one identifier or none, every list of qualifiers, every name
    and every list of parameters that is not empty, each with a name and
    with or without a type, the parse of the tokens of
    [type q1::...::name(type1 name1, ..., name_k)] succeeds, keeps the
    qualifiers as the name segments, sets the return type (the empty
    string without one) and replaces the parameters of the node by
    exactly these, in order, with empty defaults; a parameter without a
    type gets an empty type. *)
Theorem declaration_round_trip
    (needSpace : ascii -> ascii -> bool) (returnType_ : option string) (qs : list string)
    (f : string) (ps : list (string * string)) (func : Node) (signature : string)
    (loc : Location) :
  Signature.hasReturnType signature
  = match returnType_ with Some _ => true | None => false end ->
  ps <> [] ->
  Forall (fun p => snd p <> "") ps ->
  isFunction func = true ->
  exists s',
    SignatureParser.parse needSpace (Signature.typedDeclarationTokens returnType_ qs f ps)
      func signature loc
    = Some (true, s')
    /\ SignatureParser.tok_ s' = Tok_Eoi
    /\ SignatureParser.names_ s' = qs
    /\ returnTypeOf (SignatureParser.func_ s') = default "" returnType_
    /\ parametersOf (SignatureParser.func_ s')
       = List.map (fun p => mkParameter (fst p) (snd p) "") ps
    /\ location (common (SignatureParser.func_ s')) = Some loc.
Proof.
  intros Hsig Hne Hps Hfn.
  rewrite (parse_declaration needSpace returnType_ qs f ps func signature loc Hsig Hps).
  eexists. split; [reflexivity|]. split; [reflexivity|]. split; [reflexivity|].
  destruct ps as [|p ps]; [congruence|]. cbn [Signature.positioned SignatureParser.func_].
  destruct func as [c v]. unfold isFunction in Hfn. simpl in Hfn.
  destruct v as [| | |a]; try discriminate.
  destruct (parameters_added (p :: ps)
              (setParameters []
                 (setReturnType (default "" returnType_)
                    (setLocation loc (mkNode c (FunctionNode a)))))
              eq_refl) as (_ & Hc & Hr & Hpar).
  rewrite Hr, Hpar, Hc. repeat split.
Qed.

(** X3. An empty pair of parentheses keeps the parameters: on the tokens
    of [q1::...::name()] the parse succeeds and sets the location and an
    empty return type, and the parameters the node had (those of the
    declaration in the QML file) are left as they were. *)
Theorem empty_parameter_list_keeps_the_parameters
    (needSpace : ascii -> ascii -> bool) (qs : list string) (f : string)
    (func : Node) (signature : string) (loc : Location) :
  Signature.hasReturnType signature = false ->
  exists s',
    SignatureParser.parse needSpace (Signature.declarationTokens qs f []) func signature loc
    = Some (true, s')
    /\ SignatureParser.func_ s' = setReturnType "" (setLocation loc func)
    /\ parametersOf (SignatureParser.func_ s') = parametersOf func.
Proof.
  intros Hsig.
  pose proof (parse_declaration needSpace None qs f [] func signature loc Hsig
                (List.Forall_nil _)) as Hparse.
  cbn [Signature.typedDeclarationTokens default] in Hparse. rewrite Hparse.
  eexists. split; [reflexivity|]. split; [reflexivity|].
  destruct func as [c []]; reflexivity.
Qed.

(** ** Default values *)

Section DefaultValues.
Import SignatureParser Signature.
Variable needSpace : ascii -> ascii -> bool.

Lemma readToken_positioned (t t' : Token) (rest : list Token) (prev : string) (pd bd : Z)
    (names : list string) (func : Node) :
  readToken (positioned (t :: t' :: rest) prev pd bd names func)
  = Some (tt, positioned (t' :: rest) (lex t) (parenAfter pd (kind t'))
                (bracketAfter bd (kind t')) names func).
Proof. destruct t' as [k l]. destruct k; reflexivity. Qed.

Lemma defaultTokens_continue (d0 : Z) (acc : string) (t t' : Token) (rest : list Token)
    (prev : string) (pd bd : Z) (names : list string) (func : Node) :
  continues d0 pd t = true ->
  defaultTokens needSpace d0 acc (positioned (t :: t' :: rest) prev pd bd names func)
  = Some (Continue (CodeChunk.append needSpace acc (lex t)),
          positioned (t' :: rest) (lex t) (parenAfter pd (kind t'))
            (bracketAfter bd (kind t')) names func).
Proof.
  intros H. unfold continues in H.
  unfold defaultTokens, bind, parenDepth, getTok, lexeme.
  cbn [positioned tokenizer_ tok_ Tokenizer.m_parenDepth Tokenizer.m_lex].
  rewrite H. fold (positioned (t :: t' :: rest) prev pd bd names func).
  rewrite readToken_positioned. reflexivity.
Qed.

Lemma defaultTokens_stop (d0 : Z) (acc : string) (t : Token) (rest : list Token)
    (prev : string) (pd bd : Z) (names : list string) (func : Node) :
  continues d0 pd t = false ->
  defaultTokens needSpace d0 acc (positioned (t :: rest) prev pd bd names func)
  = Some (Done acc, positioned (t :: rest) prev pd bd names func).
Proof.
  intros H. unfold continues in H.
  unfold defaultTokens, bind, parenDepth, getTok, lexeme.
  cbn [positioned tokenizer_ tok_ Tokenizer.m_parenDepth Tokenizer.m_lex].
  rewrite H. reflexivity.
Qed.

(** The loop over a default value takes the tokens on which its test
    holds and stops at the first on which it does not. *)
Lemma defaultTokens_loop (d0 : Z) (term : Token) (rest : list Token) (names : list string)
    (func : Node) :
  forall (vs : list Token) (v : Token) (n : nat) (acc prev : string) (pd bd : Z),
  allContinue d0 pd v vs = true ->
  continues d0 (fold_left parenAfter (List.map kind (vs ++ [term])) pd) term = false ->
  (List.length vs + 1 < n)%nat ->
  exists prev' bd',
    loop_fuel n (defaultTokens needSpace d0) acc
      (positioned (v :: vs ++ term :: rest)%list prev pd bd names func)
    = Some (fold_left (CodeChunk.append needSpace) (List.map lex (v :: vs)) acc,
            positioned (term :: rest) prev'
              (fold_left parenAfter (List.map kind (vs ++ [term])) pd) bd' names func).
Proof.
  induction vs as [|v' vs IH]; intros v n acc prev pd bd Hall Hterm Hlen.
  - simpl in Hall. rewrite andb_true_r in Hall.
    destruct n as [|[|n]]; [simpl in Hlen; lia|simpl in Hlen; lia|].
    cbn [app loop_fuel]. rewrite (defaultTokens_continue _ _ _ _ _ _ _ _ _ _ Hall).
    simpl in Hterm. rewrite (defaultTokens_stop _ _ _ _ _ _ _ _ _ Hterm).
    eexists _, _. reflexivity.
  - simpl in Hall. apply andb_true_iff in Hall as [Hv Hall].
    destruct n as [|n]; [simpl in Hlen; lia|].
    cbn [app loop_fuel]. rewrite (defaultTokens_continue _ _ _ _ _ _ _ _ _ _ Hv).
    destruct (IH v' n (CodeChunk.append needSpace acc (lex v)) (lex v)
                (parenAfter pd (kind v')) (bracketAfter bd (kind v')) Hall)
      as (prev' & bd' & Hrun); [exact Hterm|simpl in Hlen; lia|].
    rewrite Hrun. eexists _, _. reflexivity.
Qed.

Lemma parenAfter_shift (d0 e : Z) (k : Tok) :
  parenAfter (d0 + e) k = d0 + parenAfter e k.
Proof. destruct k; simpl; lia. Qed.

(** Balanced tokens pass the test of the loop and end at the depth they
    began at. *)
Lemma nested_allContinue (d0 : Z) :
  forall (vs : list Token) (e : Z) (v : Token),
  continues d0 (d0 + e) v = true -> nested e vs = true ->
  allContinue d0 (d0 + e) v vs = true
  /\ fold_left parenAfter (List.map kind vs) (d0 + e) = d0.
Proof.
  induction vs as [|t vs IH]; intros e v Hv Hn; simpl in *.
  - rewrite Hv. apply Z.eqb_eq in Hn. split; [reflexivity|lia].
  - rewrite Hv. simpl.
    apply andb_true_iff in Hn as [Hn Hrest].
    rewrite parenAfter_shift.
    apply IH; [|exact Hrest].
    unfold continues.
    apply andb_true_iff in Hn as [Hn Heoi]. apply andb_true_iff in Hn as [Hge Hcomma].
    rewrite Heoi, andb_true_r.
    apply Z.leb_le in Hge.
    destruct (Z.leb_spec d0 (d0 + parenAfter e (kind t))); [|lia]. simpl.
    apply orb_true_iff in Hcomma as [->|Hlt]; [reflexivity|].
    apply Z.ltb_lt in Hlt.
    destruct (Z.ltb_spec d0 (d0 + parenAfter e (kind t))); [|lia].
    apply orb_true_r.
Qed.
End DefaultValues.

Section DefaultedParameter.
Import SignatureParser Signature.
Variable needSpace : ascii -> ascii -> bool.

Lemma plain_parenAfter (v : Token) (d : Z) :
  plainToken v = true -> parenAfter d (kind v) = d.
Proof.
  unfold plainToken. destruct v as [k l]. destruct k; simpl; try reflexivity; discriminate.
Qed.

Lemma plain_continues (v : Token) (d : Z) : plainToken v = true -> continues d d v = true.
Proof.
  unfold plainToken, continues. destruct v as [k l].
  destruct k; simpl; try discriminate; intros _;
    destruct (Z.leb_spec d d); try lia; reflexivity.
Qed.

Lemma matchTypeAndName_before_equal (t n : string) (more : list Token) (prev : string)
    (pd bd : Z) (names : list string) (func : Node) :
  matchTypeAndName needSpace "" (Some "")
    (positioned (ident t :: ident n :: equal :: more) prev pd bd names func)
  = Some ((true, t, Some n), positioned (equal :: more) n pd bd names func).
Proof. vm_compute. reflexivity. Qed.

Lemma match_equal (v : Token) (more : list Token) (prev : string) (pd bd : Z)
    (names : list string) (func : Node) :
  match_ Tok_Equal (positioned (equal :: v :: more) prev pd bd names func)
  = Some (true, positioned (v :: more) "=" (parenAfter pd (kind v))
                  (bracketAfter bd (kind v)) names func).
Proof.
  destruct v as [k l]. destruct k; reflexivity.
Qed.

(** [matchParameter] on a parameter with a type, a name and a default
    value: a first token on which the test of the loop holds, then
    balanced tokens, then a closing parenthesis. *)
Lemma matchParameter_defaulted (t n : string) (v : Token) (vs tail : list Token)
    (prev : string) (pd bd : Z) (names : list string) (func : Node) :
  n <> "" ->
  continues (parenAfter pd (kind v)) (parenAfter pd (kind v)) v = true ->
  nested 0 vs = true ->
  exists prev' bd',
    matchParameter needSpace
      (positioned (ident t :: ident n :: equal :: v :: vs ++ rightParen :: tail)%list
         prev pd bd names func)
    = Some (true,
            positioned (rightParen :: tail) prev' (parenAfter pd (kind v) - 1) bd' names
              (setParameters
                 (parametersOf func
                  ++ [mkParameter t n (CodeChunk.ofLexemes needSpace (List.map lex (v :: vs)))])%list
                 func)).
Proof.
  intros Hn Hv Hvs. unfold matchParameter. unfold bind at 1.
  rewrite matchTypeAndName_before_equal. cbn [fst snd default negb].
  destruct n as [|a n]; [contradiction|]. cbn [isEmpty].
  unfold bind at 1. rewrite match_equal.
  set (d0 := parenAfter pd (kind v)) in *.
  destruct (nested_allContinue d0 vs 0 v) as [Hall Hend];
    [rewrite Z.add_0_r; exact Hv|exact Hvs|].
  rewrite Z.add_0_r in Hall, Hend.
  destruct (defaultTokens_loop needSpace d0 rightParen tail names func vs v
              (S (measure (positioned (v :: vs ++ rightParen :: tail)%list "=" d0
                             (bracketAfter bd (kind v)) names func)))
              "" "=" d0 (bracketAfter bd (kind v)) Hall)
    as (prev' & bd' & Hloop).
  { rewrite List.map_app, fold_left_app, Hend. simpl.
    unfold continues. destruct (Z.leb_spec d0 (d0 - 1)); [lia|reflexivity]. }
  { unfold measure. cbn [positioned tokenizer_ Tokenizer.pending].
    rewrite length_app. simpl. lia. }
  exists prev', bd'.
  unfold bind at 1. unfold bind at 1, parenDepth at 1, loop.
  cbn [positioned tokenizer_ Tokenizer.m_parenDepth] in Hloop |- *.
  rewrite Hloop.
  rewrite List.map_app, fold_left_app, Hend. reflexivity.
Qed.
End DefaultedParameter.

(** X4. The default value of a parameter is taken whole when its
    parentheses are balanced: for a declaration [name(type n = v vs)]
    whose default value begins with a token [v] that is no parenthesis
    and no comma and goes on with tokens [vs] in which every parenthesis
    is matched and every comma is inside parentheses, the parse succeeds
    and the one parameter has the type, the name and, as its default, the
    chunk of all the lexemes of the default value. *)
Theorem balanced_default_value_is_taken_whole
    (needSpace : ascii -> ascii -> bool) (f t n : string) (v : Token) (vs : list Token)
    (func : Node) (signature : string) (loc : Location) :
  Signature.hasReturnType signature = false ->
  n <> "" ->
  Signature.plainToken v = true ->
  Signature.nested 0 vs = true ->
  isFunction func = true ->
  exists s',
    SignatureParser.parse needSpace (Signature.defaultedTokens f t n v vs) func signature loc
    = Some (true, s')
    /\ SignatureParser.tok_ s' = Tok_Eoi
    /\ parametersOf (SignatureParser.func_ s')
       = [mkParameter t n (CodeChunk.ofLexemes needSpace (List.map lex (v :: vs)))].
Proof.
  intros Hsig Hn Hv Hvs Hfn.
  unfold SignatureParser.parse, SignatureParser.matchFunctionDecl, Signature.defaultedTokens.
  unfold SignatureParser.bind at 1.
  pose proof (declarator_declaration needSpace [] f
                (Signature.ident t :: Signature.ident n :: Signature.equal :: v
                 :: vs ++ [Signature.rightParen])%list func signature Hsig) as Hdecl.
  cbn [Signature.qualifierTokens app] in Hdecl. rewrite Hdecl.
  rewrite parameters_part. unfold SignatureParser.bind at 1.
  cbn [SignatureParser.loop_fuel]. unfold SignatureParser.parameterList at 1.
  unfold SignatureParser.bind at 1.
  destruct (matchParameter_defaulted needSpace t n v vs [] "(" 1 0 []
              (setParameters [] (setReturnType "" (setLocation loc func))) Hn)
    as (prev' & bd' & Hparam);
    [rewrite (plain_parenAfter v 1 Hv); apply plain_continues; exact Hv|exact Hvs|].
  rewrite Hparam. rewrite (plain_parenAfter v 1 Hv).
  destruct func as [c fv]. unfold isFunction in Hfn. simpl in Hfn.
  destruct fv as [| | |a]; try discriminate.
  eexists. split; [vm_compute; reflexivity|]. split; reflexivity.
Qed.

(** X5. A default value in parentheses loses its closing parenthesis:
    for a declaration [name(type n = ( vs ))] with balanced tokens [vs],
    the loop over the default value stops at the parenthesis that closes
    the default value, so the default recorded is the opening parenthesis
    and [vs] without the closing one; that parenthesis is then taken for
    the end of the parameter list, and the parse returns true with the
    last parenthesis of the declaration not read. *)
Theorem default_in_parentheses_loses_the_closing_one
    (needSpace : ascii -> ascii -> bool) (f t n : string) (vs : list Token)
    (func : Node) (signature : string) (loc : Location) :
  Signature.hasReturnType signature = false ->
  n <> "" ->
  Signature.nested 0 vs = true ->
  isFunction func = true ->
  exists s',
    SignatureParser.parse needSpace
      (Signature.defaultedTokens f t n Signature.leftParen (vs ++ [Signature.rightParen]))
      func signature loc
    = Some (true, s')
    /\ SignatureParser.tok_ s' = Tok_RightParen
    /\ Tokenizer.pending (SignatureParser.tokenizer_ s') = []
    /\ parametersOf (SignatureParser.func_ s')
       = [mkParameter t n (CodeChunk.ofLexemes needSpace ("(" :: List.map lex vs))].
Proof.
  intros Hsig Hn Hvs Hfn.
  unfold SignatureParser.parse, SignatureParser.matchFunctionDecl, Signature.defaultedTokens.
  unfold SignatureParser.bind at 1.
  pose proof (declarator_declaration needSpace [] f
                (Signature.ident t :: Signature.ident n :: Signature.equal
                 :: Signature.leftParen
                 :: (vs ++ [Signature.rightParen]) ++ [Signature.rightParen])%list
                func signature Hsig) as Hdecl.
  cbn [Signature.qualifierTokens app] in Hdecl. rewrite Hdecl.
  rewrite parameters_part. unfold SignatureParser.bind at 1.
  cbn [SignatureParser.loop_fuel]. unfold SignatureParser.parameterList at 1.
  unfold SignatureParser.bind at 1.
  destruct (matchParameter_defaulted needSpace t n Signature.leftParen vs
              [Signature.rightParen] "(" 1 0 []
              (setParameters [] (setReturnType "" (setLocation loc func))) Hn)
    as (prev' & bd' & Hparam); [reflexivity|exact Hvs|].
  rewrite <- app_assoc. cbn [app]. rewrite Hparam.
  destruct func as [c fv]. unfold isFunction in Hfn. simpl in Hfn.
  destruct fv as [| | |a]; try discriminate.
  eexists. split; [vm_compute; reflexivity|]. repeat split.
Qed.

(** ** Further properties of the metacommand interpreter *)

(** X6. A command the interpreter does not know, and [ingroup] without
    an argument, only give the warning that the command is ignored in
    QML files, at the location of the comment; no node is read or
    changed and nothing is registered. *)
Theorem unknown_command_is_reported
    (ext : Collaborators) (h : nat) (d : Doc) (command : string) (s : Visitor.State) :
  command ∉ Frame.recognized
  \/ (command = Command.INGROUP /\ metaCommandArgs d command = []) ->
  Visitor.applyMetacommand ext h d command s
  = Some (tt, Visitor.withWarning (mkWarning (doc_location d) (IgnoredInQmlFiles command)) s).
Proof.
  intros [Hunknown|[-> Hargs]].
  - assert (H : forall c, c ∈ Frame.recognized -> String.eqb command c = false).
    { intros c Hc. apply String.eqb_neq. intros ->. contradiction. }
    unfold Visitor.applyMetacommand.
    repeat match goal with
           | |- context [String.eqb command ?c] =>
               rewrite (H c) by (unfold Frame.recognized;
                                 repeat first [apply list_elem_of_here
                                              |apply list_elem_of_further])
           end.
    reflexivity.
  - unfold Visitor.applyMetacommand. rewrite Hargs. reflexivity.
Qed.

Section GroupsAndStatus.
Import Visitor.
Variable ext : Collaborators.

Lemma withGroups_nil (s : State) : Frame.withGroups [] s = s.
Proof. unfold Frame.withGroups. rewrite app_nil_r. apply state_eta. Qed.

Lemma addToGroups (h : nat) (args : ArgList) :
  forall s, forEach args (fun argument => addToGroup (fst argument) h) s
            = Some (tt, Frame.withGroups (List.map (fun a => (fst a, h)) args) s).
Proof.
  induction args as [|a args IH]; intros s; simpl.
  - rewrite withGroups_nil. reflexivity.
  - unfold bind at 1. unfold addToGroup at 1, withDb. rewrite IH.
    unfold Frame.withGroups. simpl. rewrite <- app_assoc. reflexivity.
Qed.

Lemma setStatus_twice (a b : Status) (n : Node) : setStatus a (setStatus b n) = setStatus a n.
Proof. reflexivity. Qed.

Lemma applyMetacommand_status (h : nat) (d : Doc) (command : string) (st : Status)
    (node : Node) (s : State) :
  Frame.statusOf command = Some st -> nodes (db s) !! h = Some node ->
  applyMetacommand ext h d command s = Some (tt, replaceNode h (setStatus st node) s).
Proof.
  intros Hst Hh. unfold Frame.statusOf in Hst.
  destruct (String.eqb_spec command Command.INTERNAL) as [->|_].
  { inversion Hst; subst. unfold applyMetacommand. simpl. apply onNode_spec. exact Hh. }
  destruct (String.eqb_spec command Command.OBSOLETE) as [->|_].
  { inversion Hst; subst. unfold applyMetacommand. simpl. apply onNode_spec. exact Hh. }
  destruct (String.eqb_spec command Command.PRELIMINARY) as [->|_]; [|discriminate].
  inversion Hst; subst. unfold applyMetacommand. simpl. apply onNode_spec. exact Hh.
Qed.
End GroupsAndStatus.

(** X7. [ingroup] with arguments registers the node in the group named
    by each argument, in the order of the arguments, and changes nothing
    else: no node, no warning. *)
Theorem ingroup_registers_every_group
    (ext : Collaborators) (h : nat) (d : Doc) (s : Visitor.State) :
  metaCommandArgs d Command.INGROUP <> [] ->
  Visitor.applyMetacommand ext h d Command.INGROUP s
  = Some (tt, Frame.withGroups
                (List.map (fun a => (fst a, h)) (metaCommandArgs d Command.INGROUP)) s).
Proof.
  intros Hargs. unfold Visitor.applyMetacommand. simpl.
  change (metaCommandArgs d "ingroup") with (metaCommandArgs d Command.INGROUP).
  destruct (metaCommandArgs d Command.INGROUP) as [|a args] eqn:E; [congruence|].
  simpl negb. cbv iota. apply addToGroups.
Qed.

(** X8. Of the status commands [internal], [obsolete] and
    [preliminary], the one met last decides: after a run of status
    commands the node has the status of the last of them and is
    otherwise as it was. *)
Theorem last_status_command_wins
    (ext : Collaborators) (h : nat) (d : Doc) (commands : list string) (last : string)
    (st : Status) (node : Node) (s : Visitor.State) :
  Forall (fun c => is_Some (Frame.statusOf c)) commands ->
  Frame.statusOf last = Some st ->
  nodes (Visitor.db s) !! h = Some node ->
  Visitor.forEach (commands ++ [last])%list (Visitor.applyMetacommand ext h d) s
  = Some (tt, Visitor.replaceNode h (setStatus st node) s).
Proof.
  intros Hall Hlast. revert node s.
  induction Hall as [|c commands [stc Hc] _ IH]; intros node s Hh; simpl.
  - unfold Visitor.bind.
    rewrite (applyMetacommand_status ext h d last st node s Hlast Hh). reflexivity.
  - unfold Visitor.bind at 1.
    rewrite (applyMetacommand_status ext h d c stc node s Hc Hh).
    rewrite (IH (setStatus stc node) (Visitor.replaceNode h (setStatus stc node) s))
      by (eapply lookup_replaceNode_eq; exact Hh).
    rewrite replaceNode_twice. reflexivity.
Qed.

(** ** What the interpreter and the binder leave alone *)

Section InterpreterFrame.
Import Visitor.
Variable ext : Collaborators.
Variable src : Source.
Variable h : nat.

Lemma editsNode_refl (s : State) : Frame.editsNode h s s.
Proof. repeat split. Qed.

Lemma editsNode_trans (s1 s2 s3 : State) :
  Frame.editsNode h s1 s2 -> Frame.editsNode h s2 s3 -> Frame.editsNode h s1 s3.
Proof.
  intros (Hl & Hn & (M1 & M2 & M3 & M4 & M5) & Hu)
         (Hl' & Hn' & (M1' & M2' & M3' & M4' & M5') & Hu').
  split; [congruence|]. split; [intros h' Hne; rewrite Hn', Hn by exact Hne; reflexivity|].
  split; [repeat split; congruence|congruence].
Qed.

Lemma edits_getNode (h' : nat) : preserves (Frame.editsNode h) (getNode h').
Proof.
  intros s a s' H. unfold getNode in H.
  destruct (nodes (db s) !! h'); inversion H; subst. apply editsNode_refl.
Qed.

Lemma edits_onNode (f : Node -> Node) : preserves (Frame.editsNode h) (onNode h f).
Proof.
  intros s a s' H. unfold onNode, bind, getNode in H.
  destruct (nodes (db s) !! h) as [n|]; [|discriminate].
  inversion H; subst; clear H. split; [simpl; apply length_insert|].
  split; [intros h' Hne; simpl; apply list_lookup_insert_ne; congruence|].
  repeat split.
Qed.

Lemma edits_warning (l : Location) (t : WarningText) :
  preserves (Frame.editsNode h) (warning l t).
Proof. intros s a s' H. inversion H; subst. repeat split. Qed.

Lemma edits_addToQmlModule (m : string) (h' : nat) :
  preserves (Frame.editsNode h) (addToQmlModule m h').
Proof. intros s a s' H. inversion H; subst. repeat split. Qed.

Lemma edits_addToGroup (g : string) (h' : nat) :
  preserves (Frame.editsNode h) (addToGroup g h').
Proof. intros s a s' H. inversion H; subst. repeat split. Qed.

Local Ltac edits :=
  repeat first
    [ apply preserves_ret; exact editsNode_refl
    | apply preserves_fault
    | apply edits_getNode | apply edits_onNode | apply edits_warning
    | apply edits_addToQmlModule | apply edits_addToGroup
    | apply preserves_forEach; [exact editsNode_refl|exact editsNode_trans|intros ?]
    | apply preserves_bind; [exact editsNode_trans| |intros ?]
    | match goal with
      | |- preserves _ (match ?x with _ => _ end) => destruct x
      | |- preserves _ (if ?x then _ else _) => destruct x
      end ].

Lemma edits_applyMetacommand (d : Doc) (command : string) :
  preserves (Frame.editsNode h) (applyMetacommand ext h d command).
Proof. unfold applyMetacommand, setEnumNode, first. edits. Qed.

Lemma edits_applyMetacommands (d : Doc) :
  preserves (Frame.editsNode h) (applyMetacommands ext src h d).
Proof.
  unfold applyMetacommands. apply preserves_forEach;
    [exact editsNode_refl|exact editsNode_trans|intros c; apply edits_applyMetacommand].
Qed.
End InterpreterFrame.

(** X9. Whatever the commands of a comment, where the interpreter
    returns it has changed at most the node it was applied to, the
    registers of modules and groups and the warnings: the number of nodes
    and every other node are as they were, and so are the nesting level,
    the cursor, the current scope, the pending imports, the error flag
    and the used comments. *)
Theorem interpreter_edits_one_node
    (ext : Collaborators) (src : Source) (h : nat) (d : Doc) (s s' : Visitor.State) :
  Visitor.applyMetacommands ext src h d s = Some (tt, s') ->
  Frame.editsNode h s s'.
Proof. intros H. exact (edits_applyMetacommands ext src h d s tt s' H). Qed.

Section BinderFrame.
Import Visitor.
Variable ext : Collaborators.
Variable src : Source.

Lemma sameKind_refl (n : Node) : Frame.sameKind n n.
Proof. unfold Frame.sameKind. destruct (variant n); try exact I; reflexivity. Qed.

Lemma sameKind_trans (n1 n2 n3 : Node) :
  Frame.sameKind n1 n2 -> Frame.sameKind n2 n3 -> Frame.sameKind n1 n3.
Proof.
  unfold Frame.sameKind.
  destruct (variant n1), (variant n2), (variant n3); simpl; try tauto; congruence.
Qed.

Lemma sameIdentity_refl (n : Node) : Frame.sameIdentity n n.
Proof. split; [reflexivity|]. split; [reflexivity|apply sameKind_refl]. Qed.

Lemma sameIdentity_trans (n1 n2 n3 : Node) :
  Frame.sameIdentity n1 n2 -> Frame.sameIdentity n2 n3 -> Frame.sameIdentity n1 n3.
Proof.
  intros (H1 & H2 & H3) (H1' & H2' & H3').
  split; [congruence|]. split; [congruence|eapply sameKind_trans; eassumption].
Qed.

Lemma sameMembers_refl (s : State) : Frame.sameMembers s s.
Proof. repeat split. Qed.

Lemma sameMembers_trans (s1 s2 s3 : State) :
  Frame.sameMembers s1 s2 -> Frame.sameMembers s2 s3 -> Frame.sameMembers s1 s3.
Proof.
  intros (M1 & M2 & M3 & M4 & M5) (M1' & M2' & M3' & M4' & M5'). repeat split; congruence.
Qed.

Lemma keepsNodes_refl (s : State) : Frame.keepsNodes s s.
Proof. intros h n H. exists n. split; [exact H|apply sameIdentity_refl]. Qed.

Lemma keepsNodes_trans (s1 s2 s3 : State) :
  Frame.keepsNodes s1 s2 -> Frame.keepsNodes s2 s3 -> Frame.keepsNodes s1 s3.
Proof.
  intros H12 H23 h n H. destruct (H12 h n H) as (n2 & H2 & I2).
  destruct (H23 h n2 H2) as (n3 & H3 & I3).
  exists n3. split; [exact H3|eapply sameIdentity_trans; eassumption].
Qed.

Lemma keepsNodes_same_nodes (s s' : State) :
  nodes (db s') = nodes (db s) -> Frame.keepsNodes s s'.
Proof.
  intros E h n H. exists n. rewrite E. split; [exact H|apply sameIdentity_refl].
Qed.

Lemma binds_refl (s : State) : Frame.binds s s.
Proof. split; [apply keepsNodes_refl|apply sameMembers_refl]. Qed.

Lemma binds_trans (s1 s2 s3 : State) :
  Frame.binds s1 s2 -> Frame.binds s2 s3 -> Frame.binds s1 s3.
Proof.
  intros [K M] [K' M'].
  split; [eapply keepsNodes_trans; eassumption|eapply sameMembers_trans; eassumption].
Qed.

(** An edit of the node a pointer leads to that keeps its identity. *)
Lemma onNode_binds (h : nat) (f : Node -> Node) (s s' : State) (u : unit) :
  onNode h f s = Some (u, s') ->
  (forall n, nodes (db s) !! h = Some n -> Frame.sameIdentity n (f n)) ->
  Frame.binds s s'.
Proof.
  intros H Hf. unfold onNode, bind, getNode in H.
  destruct (nodes (db s) !! h) as [n|] eqn:E; [|discriminate].
  inversion H; subst; clear H. split; [|repeat split].
  intros h' n' Hl. simpl. destruct (decide (h' = h)) as [->|Hne].
  - exists (f n). split.
    + apply list_lookup_insert_eq. eapply lookup_lt_Some. exact E.
    + rewrite E in Hl. inversion Hl; subst. apply Hf. reflexivity.
  - exists n'. split; [|apply sameIdentity_refl].
    rewrite list_lookup_insert_ne by congruence. exact Hl.
Qed.

Lemma binds_onNode (h : nat) (f : Node -> Node) :
  (forall n, Frame.sameIdentity n (f n)) -> preserves Frame.binds (onNode h f).
Proof. intros Hf s [] s' H. eapply onNode_binds; [exact H|]. intros n _. apply Hf. Qed.

Lemma binds_get : preserves Frame.binds get.
Proof. intros s a s' H. inversion H; subst. apply binds_refl. Qed.

Lemma binds_getNode (h : nat) : preserves Frame.binds (getNode h).
Proof.
  intros s a s' H. unfold getNode in H.
  destruct (nodes (db s) !! h); inversion H; subst. apply binds_refl.
Qed.

Lemma binds_newNode (n : Node) : preserves Frame.binds (newNode n).
Proof.
  intros s a s' H. inversion H; subst; clear H. split; [|repeat split].
  intros h n' Hl. exists n'. split; [|apply sameIdentity_refl].
  simpl. apply lookup_app_l_Some. exact Hl.
Qed.

Lemma binds_warning (l : Location) (t : WarningText) : preserves Frame.binds (warning l t).
Proof.
  intros s a s' H. inversion H; subst.
  split; [apply keepsNodes_same_nodes; reflexivity|repeat split].
Qed.

Lemma binds_addToQmlModule (m : string) (h : nat) :
  preserves Frame.binds (addToQmlModule m h).
Proof.
  intros s a s' H. inversion H; subst.
  split; [apply keepsNodes_same_nodes; reflexivity|repeat split].
Qed.

Lemma binds_addToGroup (g : string) (h : nat) : preserves Frame.binds (addToGroup g h).
Proof.
  intros s a s' H. inversion H; subst.
  split; [apply keepsNodes_same_nodes; reflexivity|repeat split].
Qed.

Lemma binds_set_m_usedComments (u : gset Z) : preserves Frame.binds (set_m_usedComments u).
Proof.
  intros s a s' H. inversion H; subst.
  split; [apply keepsNodes_same_nodes; reflexivity|repeat split].
Qed.

Lemma binds_precedingComment (offset_ : Z) :
  preserves Frame.binds (precedingComment src offset_).
Proof.
  intros s a s' H. unfold precedingComment in H.
  destruct (Locator.precedingComment _ _ _ _ _); inversion H; subst. apply binds_refl.
Qed.

(** The steps that keep the nodes and the members, composed. *)
Ltac binds_frame :=
  repeat first
    [ apply preserves_ret; exact binds_refl
    | apply preserves_fault
    | apply binds_get | apply binds_getNode | apply binds_newNode | apply binds_warning
    | apply binds_addToQmlModule | apply binds_addToGroup
    | apply binds_set_m_usedComments | apply binds_precedingComment
    | match goal with H : _ |- _ => apply H end
    | apply binds_onNode; solve [intros [? []]; repeat split]
    | apply preserves_forEach; [exact binds_refl|exact binds_trans|intros ?]
    | apply preserves_bind; [exact binds_trans| |intros ?]
    | match goal with
      | |- preserves _ (match ?x with _ => _ end) => destruct x
      | |- preserves _ (if ?x then _ else _) => destruct x
      end ].

Lemma binds_applyMetacommands (h : nat) (d : Doc) :
  preserves Frame.binds (applyMetacommands ext src h d).
Proof.
  unfold applyMetacommands.
  apply preserves_forEach; [exact binds_refl|exact binds_trans|intros c].
  unfold applyMetacommand, setEnumNode, first. binds_frame.
Qed.

Lemma binds_signatureTopic (h : nat) (d : Doc) (t : Topic) :
  preserves Frame.binds (signatureTopic ext h d t).
Proof.
  intros s a s' H. unfold signatureTopic in H. apply bind_inv in H as (node & s1 & Hn & H).
  unfold getNode in Hn. destruct (nodes (db s) !! h) as [n|] eqn:E; [|discriminate].
  inversion Hn; subst node s1; clear Hn.
  destruct (isFunction n); [|inversion H; subst; apply binds_refl].
  unfold SignatureParser.QmlSignatureParser in H.
  destruct (SignatureParser.parse _ _ _ _ _) as [[ok ps]|] eqn:Hp; [|discriminate].
  apply parse_sameIdentity in Hp. destruct a.
  eapply onNode_binds; [exact H|]. intros n0 Hn0. rewrite E in Hn0.
  inversion Hn0; subst. exact Hp.
Qed.

Lemma binds_hasQmlPropertyAttached (p : nat) (n : string) (att : bool) :
  preserves Frame.binds (hasQmlPropertyAttached p n att).
Proof. unfold hasQmlPropertyAttached. binds_frame. Qed.

Lemma binds_hasQmlProperty (p : nat) (n : string) :
  preserves Frame.binds (hasQmlProperty p n).
Proof. unfold hasQmlProperty. binds_frame. Qed.

Lemma binds_applyTopics (h : nat) (parent_ : option nat) (d : Doc) (ts : list Topic) :
  forall bound, preserves Frame.binds (applyTopics ext h parent_ d ts bound).
Proof.
  pose proof binds_signatureTopic. pose proof binds_hasQmlPropertyAttached.
  induction ts as [|t ts IH]; intros bound; simpl.
  - apply preserves_ret, binds_refl.
  - apply preserves_bind; [exact binds_trans| |intros b; apply IH].
    unfold applyTopic, propertyTopic. binds_frame.
Qed.

Lemma binds_applyDocumentation (location_ : SourceLocation) (node : option nat) :
  preserves Frame.binds (applyDocumentation ext src location_ node).
Proof.
  pose proof binds_applyTopics. pose proof binds_applyMetacommands.
  unfold applyDocumentation. binds_frame.
Qed.
End BinderFrame.

(** X10. Whatever the comment, its topics and its commands, where the
    binder returns every node of the repository is still there under the
    same handle, with the name, the parent and the variant it had (a
    property attached or not as before, a function a signal or a method
    as before); nodes are only added or edited. The nesting level, the
    cursor, the current scope, the pending imports and the error flag are
    as they were. *)
Theorem binder_keeps_the_nodes_and_the_members
    (ext : Collaborators) (src : Source) (location_ : SourceLocation) (node : option nat)
    (s s' : Visitor.State) (h : nat) :
  Visitor.applyDocumentation ext src location_ node s = Some (h, s') ->
  Frame.binds s s'.
Proof. intros H. exact (binds_applyDocumentation ext src location_ node s h s' H). Qed.

(** ** What a walk of the tree keeps *)

Section WalkFrame.
Import Visitor.
Variable ext : Collaborators.
Variable src : Source.

Lemma walks_refl (s : State) : Frame.walks s s.
Proof. split; [apply keepsNodes_refl|reflexivity]. Qed.

Lemma walks_trans (s1 s2 s3 : State) :
  Frame.walks s1 s2 -> Frame.walks s2 s3 -> Frame.walks s1 s3.
Proof.
  intros [K E] [K' E']. split; [eapply keepsNodes_trans; eassumption|congruence].
Qed.

Lemma binds_walks {A} (m : M A) : preserves Frame.binds m -> preserves Frame.walks m.
Proof.
  intros H s a s' E. destruct (H s a s' E) as (K & _ & _ & _ & _ & F).
  split; [exact K|exact F].
Qed.

Lemma walks_set_m_nestingLevel (z : Z) : preserves Frame.walks (set_m_nestingLevel z).
Proof.
  intros s a s' H. inversion H; subst.
  split; [apply keepsNodes_same_nodes|]; reflexivity.
Qed.

Lemma walks_set_m_lastEndOffset (z : Z) : preserves Frame.walks (set_m_lastEndOffset z).
Proof.
  intros s a s' H. inversion H; subst.
  split; [apply keepsNodes_same_nodes|]; reflexivity.
Qed.

Lemma walks_set_m_current (h : nat) : preserves Frame.walks (set_m_current h).
Proof.
  intros s a s' H. inversion H; subst.
  split; [apply keepsNodes_same_nodes|]; reflexivity.
Qed.

Lemma walks_set_m_importList (l : list ImportRec) : preserves Frame.walks (set_m_importList l).
Proof.
  intros s a s' H. inversion H; subst.
  split; [apply keepsNodes_same_nodes|]; reflexivity.
Qed.

Local Ltac walks_frame :=
  repeat first
    [ apply preserves_ret; exact walks_refl
    | apply walks_set_m_nestingLevel | apply walks_set_m_lastEndOffset
    | apply walks_set_m_current | apply walks_set_m_importList
    | apply binds_walks;
      first [ apply binds_get | apply binds_getNode | apply binds_newNode
            | apply binds_hasQmlProperty | apply binds_applyDocumentation
            | apply binds_onNode; solve [intros [? []]; repeat split] ]
    | apply preserves_bind; [exact walks_trans| |intros ?]
    | match goal with
      | |- preserves _ (match ?x with _ => _ end) => destruct x
      | |- preserves _ (if ?x then _ else _) => destruct x
      end ].

Lemma walks_visit (n : AstNode) : preserves Frame.walks (visit ext src n).
Proof.
  destruct n; simpl;
    unfold visit_UiObjectDefinition, visit_UiImport, visit_UiObjectBinding,
      visit_UiPublicMember, visit_FunctionDeclaration; walks_frame.
Qed.

Lemma walks_endVisit (n : AstNode) : preserves Frame.walks (endVisit n).
Proof.
  destruct n; simpl;
    unfold endVisit_UiObjectDefinition, endVisit_UiImport, endVisit_UiObjectBinding,
      endVisit_UiPublicMember, endVisit_FunctionDeclaration, endVisit_UiScriptBinding;
    walks_frame.
Qed.

Lemma walks_walk (events : list Event) : preserves Frame.walks (walk ext src events).
Proof.
  unfold walk. apply preserves_forEach; [exact walks_refl|exact walks_trans|].
  intros [n|n]; simpl.
  - apply preserves_bind; [exact walks_trans|apply walks_visit|].
    intros _. apply preserves_ret, walks_refl.
  - apply walks_endVisit.
Qed.
End WalkFrame.

(** X11. Over any sequence of visits and ends of visits, where the walk
    returns every node the repository had is still there under the same
    handle, with the name, the parent and the variant it had: the
    visitor never removes, renames, moves or retypes a node. And no
    visit raises or clears the error flag: [hasError] answers after the
    walk what it answered before. *)
Theorem walk_keeps_every_node
    (ext : Collaborators) (src : Source) (events : list Event) (s s' : Visitor.State) :
  Visitor.walk ext src events s = Some (tt, s') ->
  Frame.walks s s'.
Proof. intros H. exact (walks_walk ext src events s tt s' H). Qed.

(** ** The walk of a subtree *)

Section Subtrees.
Import Visitor.
Variable ext : Collaborators.
Variable src : Source.

Lemma Tree_forest_ind (P : Frame.Tree -> Prop) :
  (forall n children, Forall P children -> P (Frame.TreeNode n children)) ->
  forall t, P t.
Proof.
  intros H. fix IH 1. intros [n children]. apply H.
  induction children as [|c rest IHrest]; constructor; [apply IH|exact IHrest].
Qed.

Lemma accept_unfold (n : AstNode) (children : list Frame.Tree) :
  Frame.accept ext src (Frame.TreeNode n children)
  = bind (visit ext src n) (fun descend =>
      bind (if descend then Frame.acceptAll ext src children else ret tt) (fun _ =>
        endVisit n)).
Proof.
  assert (E : (fix acceptAll (l : list Frame.Tree) : M unit :=
                 match l with
                 | [] => ret tt
                 | c :: rest => bind (Frame.accept ext src c) (fun _ => acceptAll rest)
                 end) children
              = Frame.acceptAll ext src children).
  { unfold Frame.acceptAll. induction children as [|c rest IH]; [reflexivity|].
    simpl forEach. rewrite <- IH. reflexivity. }
  simpl. rewrite E. reflexivity.
Qed.

Lemma depthOf_unfold (n : AstNode) (children : list Frame.Tree) :
  Frame.depthOf (Frame.TreeNode n children) = Frame.deepens n + Frame.deepest children.
Proof. reflexivity. Qed.

Lemma deepest_cons (c : Frame.Tree) (rest : list Frame.Tree) :
  Frame.deepest (c :: rest) = Z.max (Frame.depthOf c) (Frame.deepest rest).
Proof. reflexivity. Qed.

Lemma deepest_nonneg (l : list Frame.Tree) : 0 <= Frame.deepest l.
Proof. induction l as [|c rest IH]; [reflexivity|]. rewrite deepest_cons. lia. Qed.

Lemma wrap32_small (z : Z) : 0 <= z < quint32_mod -> wrap32 z = z.
Proof. intros H. unfold wrap32. apply Z.mod_small. exact H. Qed.

Lemma untouched_refl (s : State) : Frame.untouched s s.
Proof. repeat split. Qed.

Lemma untouched_trans (s1 s2 s3 : State) :
  Frame.untouched s1 s2 -> Frame.untouched s2 s3 -> Frame.untouched s1 s3.
Proof. intros (A & B & C & D) (A' & B' & C' & D'). repeat split; congruence. Qed.

Lemma untouched_insideType (s s' : State) :
  Frame.untouched s s' -> Frame.insideType s' = Frame.insideType s.
Proof. intros (A & _ & _ & D). unfold Frame.insideType. rewrite A, D. reflexivity. Qed.

Lemma deepens_range (n : AstNode) : 0 <= Frame.deepens n <= 1.
Proof. destruct n; simpl; lia. Qed.

(** A visit inside a type whose children are below the public level;
    the counter does not wrap. *)
Lemma visit_nested (n : AstNode) (s s1 : State) (descend : bool) :
  Frame.insideType s = true ->
  1 < m_nestingLevel s + Frame.deepens n ->
  m_nestingLevel s + Frame.deepens n < quint32_mod ->
  visit ext src n s = Some (descend, s1) ->
  db s1 = db s /\ m_usedComments s1 = m_usedComments s /\ m_current s1 = m_current s
  /\ m_nestingLevel s1 = m_nestingLevel s + Frame.deepens n.
Proof.
  unfold Frame.insideType. intros Hin Hlevel Hbound H.
  destruct (nodes (db s) !! m_current s) as [cur|] eqn:Hcur; [|discriminate].
  destruct (isNamespace cur) eqn:Hns; [discriminate|]. clear Hin.
  destruct n; cbn [visit Frame.deepens] in H, Hlevel, Hbound |- *.
  - unfold visit_UiObjectDefinition, bind, get, set_m_nestingLevel, getNode in H.
    cbn [db m_current] in H. rewrite Hcur, Hns in H. inversion H; subst.
    cbn [db m_usedComments m_current m_nestingLevel].
    split; [reflexivity|]. split; [reflexivity|]. split; [reflexivity|].
    apply wrap32_small. lia.
  - inversion H; subst. cbn [db m_usedComments m_current m_nestingLevel].
    repeat split. lia.
  - inversion H; subst. cbn [db m_usedComments m_current m_nestingLevel].
    split; [reflexivity|]. split; [reflexivity|]. split; [reflexivity|].
    apply wrap32_small. lia.
  - inversion H; subst. repeat split; lia.
  - unfold visit_UiPublicMember, bind, get in H.
    destruct (Z.ltb_spec 1 (m_nestingLevel s)); [|lia].
    inversion H; subst. repeat split; lia.
  - unfold visit_FunctionDeclaration, bind, get in H.
    destruct (Z.leb_spec (m_nestingLevel s) 1); [lia|].
    inversion H; subst. repeat split; lia.
  - inversion H; subst. repeat split; lia.
  - inversion H; subst. repeat split; lia.
  - inversion H; subst. repeat split; lia.
Qed.

(** The end of a visit, at a level the visit can have left. *)
Lemma endVisit_level (n : AstNode) (s s1 : State) (u : unit) :
  Frame.deepens n <= m_nestingLevel s ->
  0 <= m_nestingLevel s < quint32_mod ->
  endVisit n s = Some (u, s1) ->
  db s1 = db s /\ m_usedComments s1 = m_usedComments s /\ m_current s1 = m_current s
  /\ m_importList s1 = m_importList s
  /\ m_nestingLevel s1 = m_nestingLevel s - Frame.deepens n.
Proof.
  intros Hlevel Hrange H. destruct n; cbn [endVisit Frame.deepens] in H, Hlevel |- *.
  - unfold endVisit_UiObjectDefinition, bind, get in H.
    destruct (Z.ltb_spec 0 (m_nestingLevel s)); [|lia].
    inversion H; subst. cbn [db m_usedComments m_current m_importList m_nestingLevel].
    split; [reflexivity|]. split; [reflexivity|]. split; [reflexivity|].
    split; [reflexivity|]. apply wrap32_small. lia.
  - inversion H; subst. cbn [db m_usedComments m_current m_importList m_nestingLevel].
    repeat split. lia.
  - inversion H; subst. cbn [db m_usedComments m_current m_importList m_nestingLevel].
    split; [reflexivity|]. split; [reflexivity|]. split; [reflexivity|].
    split; [reflexivity|]. apply wrap32_small. lia.
  - inversion H; subst. repeat split; lia.
  - inversion H; subst. cbn [db m_usedComments m_current m_importList m_nestingLevel].
    repeat split. lia.
  - inversion H; subst. cbn [db m_usedComments m_current m_importList m_nestingLevel].
    repeat split. lia.
  - inversion H; subst. cbn [db m_usedComments m_current m_importList m_nestingLevel].
    repeat split. lia.
  - inversion H; subst. repeat split; lia.
  - inversion H; subst. repeat split; lia.
Qed.

Lemma acceptAll_nested (children : list Frame.Tree) :
  Forall (fun t => forall s s',
            Frame.insideType s = true ->
            1 < m_nestingLevel s + Frame.deepens (Frame.rootOf t) ->
            m_nestingLevel s + Frame.depthOf t < quint32_mod ->
            Frame.accept ext src t s = Some (tt, s') -> Frame.untouched s s') children ->
  forall s s',
    Frame.insideType s = true -> 1 < m_nestingLevel s ->
    m_nestingLevel s + Frame.deepest children < quint32_mod ->
    Frame.acceptAll ext src children s = Some (tt, s') -> Frame.untouched s s'.
Proof.
  unfold Frame.acceptAll.
  induction 1 as [|c rest Hc _ IH]; intros s s' Hin Hlevel Hbound H.
  - inversion H; subst. apply untouched_refl.
  - rewrite deepest_cons in Hbound. simpl forEach in H.
    apply bind_inv in H as ([] & s1 & Hfirst & H).
    assert (U : Frame.untouched s s1).
    { apply Hc; [exact Hin| | |exact Hfirst].
      - pose proof (deepens_range (Frame.rootOf c)). lia.
      - lia. }
    eapply untouched_trans; [exact U|]. apply IH; [| | |exact H].
    + rewrite (untouched_insideType _ _ U). exact Hin.
    + destruct U as (_ & _ & -> & _). exact Hlevel.
    + destruct U as (_ & _ & -> & _). lia.
Qed.

(** Below the public level of a type the walk of a subtree changes
    neither the repository nor the used comments, as long as the counter
    of the nesting does not wrap. *)
Lemma accept_nested (t : Frame.Tree) :
  forall s s',
    Frame.insideType s = true ->
    1 < m_nestingLevel s + Frame.deepens (Frame.rootOf t) ->
    m_nestingLevel s + Frame.depthOf t < quint32_mod ->
    Frame.accept ext src t s = Some (tt, s') -> Frame.untouched s s'.
Proof.
  induction t as [n children IH] using Tree_forest_ind. intros s s' Hin Hlevel Hbound H.
  cbn [Frame.rootOf] in Hlevel. rewrite depthOf_unfold in Hbound. rewrite accept_unfold in H.
  pose proof (deepest_nonneg children) as Hdeep.
  pose proof (deepens_range n) as Hd.
  apply bind_inv in H as (descend & s1 & Hvisit & H).
  apply bind_inv in H as ([] & s2 & Hchildren & Hend).
  destruct (visit_nested n s s1 descend Hin Hlevel ltac:(lia) Hvisit) as (V1 & V2 & V3 & V4).
  assert (U1 : Frame.untouched s1 s2).
  { destruct descend; [|inversion Hchildren; subst; apply untouched_refl].
    apply (acceptAll_nested children IH); [|lia|lia|exact Hchildren].
    unfold Frame.insideType. rewrite V1, V3. exact Hin. }
  destruct U1 as (U1 & U2 & U3 & U4).
  destruct (endVisit_level n s2 s' tt ltac:(lia) ltac:(lia) Hend) as (E1 & E2 & E3 & _ & E4).
  repeat split; [congruence|congruence|lia|congruence].
Qed.
End Subtrees.

(** X12. An object nested in a type leaves no trace: when the scope is
    not the root namespace, the nesting level is 1 or more and the
    objects of the tree are not nested so deep that the 32-bit counter of
    the level wraps around, the walk of an object definition or an object
    binding with everything below it, whatever the tree, where it returns
    has changed neither the repository (no node is created or edited,
    nothing is registered, no warning is issued) nor the used comments,
    and the nesting level and the current scope are back to what they
    were. *)
Theorem nested_object_leaves_no_trace
    (ext : Collaborators) (src : Source) (t : Frame.Tree) (s s' : Visitor.State) :
  Frame.isObject t = true ->
  Frame.insideType s = true ->
  1 <= Visitor.m_nestingLevel s ->
  Visitor.m_nestingLevel s + Frame.depthOf t < quint32_mod ->
  Frame.accept ext src t s = Some (tt, s') ->
  Frame.untouched s s'.
Proof.
  intros Hobj Hin Hlevel Hbound H.
  apply (accept_nested ext src t s s' Hin); [|exact Hbound|exact H].
  destruct t as [[] children]; simpl in Hobj |- *; try discriminate; lia.
Qed.

Section NestingLevel.
Import Visitor.
Variable ext : Collaborators.
Variable src : Source.

Lemma sameLevel_refl (s : State) : Frame.sameLevel s s.
Proof. reflexivity. Qed.

Lemma sameLevel_trans (s1 s2 s3 : State) :
  Frame.sameLevel s1 s2 -> Frame.sameLevel s2 s3 -> Frame.sameLevel s1 s3.
Proof. unfold Frame.sameLevel. congruence. Qed.

Lemma binds_sameLevel {A} (m : M A) : preserves Frame.binds m -> preserves Frame.sameLevel m.
Proof. intros H s a s' E. destruct (H s a s' E) as (_ & L & _). exact L. Qed.

Lemma level_set_m_current (h : nat) : preserves Frame.sameLevel (set_m_current h).
Proof. intros s a s' H. inversion H; subst. reflexivity. Qed.

Lemma level_set_m_importList (l : list ImportRec) :
  preserves Frame.sameLevel (set_m_importList l).
Proof. intros s a s' H. inversion H; subst. reflexivity. Qed.

Local Ltac level_frame :=
  repeat first
    [ apply preserves_ret; exact sameLevel_refl
    | apply level_set_m_current | apply level_set_m_importList
    | apply binds_sameLevel;
      first [ apply binds_get | apply binds_getNode | apply binds_newNode
            | apply binds_hasQmlProperty | apply binds_applyDocumentation
            | apply binds_onNode; solve [intros [? []]; repeat split] ]
    | apply preserves_bind; [exact sameLevel_trans| |intros ?]
    | match goal with
      | |- preserves _ (match ?x with _ => _ end) => destruct x
      | |- preserves _ (if ?x then _ else _) => destruct x
      end ].

(** A visit deepens the nesting by what its node says, whatever it
    documents, as long as the counter does not wrap. *)
Lemma visit_level (n : AstNode) (s s1 : State) (descend : bool) :
  0 <= m_nestingLevel s ->
  m_nestingLevel s + Frame.deepens n < quint32_mod ->
  visit ext src n s = Some (descend, s1) ->
  m_nestingLevel s1 = m_nestingLevel s + Frame.deepens n.
Proof.
  intros Hlevel Hbound H. destruct n; cbn [visit Frame.deepens] in H, Hbound |- *.
  - unfold visit_UiObjectDefinition in H.
    apply bind_inv in H as (s0 & s0' & Hget & H). inversion Hget; subst s0 s0'; clear Hget.
    apply bind_inv in H as ([] & s2 & Hset & H). inversion Hset; subst s2; clear Hset.
    match type of H with
    | ?m _ = _ => assert (P : preserves Frame.sameLevel m) by level_frame
    end.
    apply P in H. unfold Frame.sameLevel in H. cbn [m_nestingLevel] in H.
    rewrite H. apply wrap32_small. lia.
  - inversion H; subst. cbn [m_nestingLevel]. lia.
  - inversion H; subst. cbn [m_nestingLevel]. apply wrap32_small. lia.
  - inversion H; subst. lia.
  - assert (P : preserves Frame.sameLevel (visit_UiPublicMember ext src m)).
    { unfold visit_UiPublicMember. level_frame. }
    apply P in H. unfold Frame.sameLevel in H. lia.
  - assert (P : preserves Frame.sameLevel (visit_FunctionDeclaration ext src f)).
    { unfold visit_FunctionDeclaration. level_frame. }
    apply P in H. unfold Frame.sameLevel in H. lia.
  - inversion H; subst. lia.
  - inversion H; subst. lia.
  - inversion H; subst. lia.
Qed.

Lemma acceptAll_level (children : list Frame.Tree) :
  Forall (fun t => forall s s',
            0 <= m_nestingLevel s ->
            m_nestingLevel s + Frame.depthOf t < quint32_mod ->
            Frame.accept ext src t s = Some (tt, s') -> Frame.sameLevel s s') children ->
  forall s s',
    0 <= m_nestingLevel s ->
    m_nestingLevel s + Frame.deepest children < quint32_mod ->
    Frame.acceptAll ext src children s = Some (tt, s') -> Frame.sameLevel s s'.
Proof.
  unfold Frame.acceptAll. induction 1 as [|c rest Hc _ IH]; intros s s' Hlevel Hbound H.
  - inversion H; subst. reflexivity.
  - rewrite deepest_cons in Hbound. simpl forEach in H.
    apply bind_inv in H as ([] & s1 & Hfirst & H).
    pose proof (Hc s s1 Hlevel ltac:(lia) Hfirst) as L1. unfold Frame.sameLevel in L1.
    eapply sameLevel_trans; [exact L1|]. apply IH; [lia|lia|exact H].
Qed.

Lemma accept_level (t : Frame.Tree) :
  forall s s',
    0 <= m_nestingLevel s ->
    m_nestingLevel s + Frame.depthOf t < quint32_mod ->
    Frame.accept ext src t s = Some (tt, s') -> Frame.sameLevel s s'.
Proof.
  induction t as [n children IH] using Tree_forest_ind. intros s s' Hlevel Hbound H.
  rewrite depthOf_unfold in Hbound. rewrite accept_unfold in H.
  pose proof (deepest_nonneg children) as Hdeep.
  pose proof (deepens_range n) as Hd.
  apply bind_inv in H as (descend & s1 & Hvisit & H).
  apply bind_inv in H as ([] & s2 & Hchildren & Hend).
  pose proof (visit_level n s s1 descend Hlevel ltac:(lia) Hvisit) as V.
  assert (L : Frame.sameLevel s1 s2).
  { destruct descend; [|inversion Hchildren; subst; reflexivity].
    apply (acceptAll_level children IH); [lia|lia|exact Hchildren]. }
  unfold Frame.sameLevel in L.
  destruct (endVisit_level n s2 s' tt ltac:(lia) ltac:(lia) Hend) as (_ & _ & _ & _ & E).
  unfold Frame.sameLevel. lia.
Qed.
End NestingLevel.

(** X13. The nesting level is restored: from a level in the range of
    the 32-bit counter, when the objects of a subtree are not nested so
    deep that the counter wraps around, the walk of the subtree,
    whatever it documents on the way, where it returns leaves the
    visitor at the level it started at. *)
Theorem nesting_level_is_restored
    (ext : Collaborators) (src : Source) (t : Frame.Tree) (s s' : Visitor.State) :
  0 <= Visitor.m_nestingLevel s ->
  Visitor.m_nestingLevel s + Frame.depthOf t < quint32_mod ->
  Frame.accept ext src t s = Some (tt, s') ->
  Frame.sameLevel s s'.
Proof. intros Hlevel Hbound H. exact (accept_level ext src t s s' Hlevel Hbound H). Qed.

(** At the top of its range the counter wraps: from level 2^32 - 1 the
    visit of an object definition gives level 0, which the end of the
    visit leaves. *)
Example nesting_level_wraps_at_the_top :
  option_map (fun r => Visitor.m_nestingLevel (snd r))
    (Frame.accept Examples.collaborators Examples.source
       (Frame.TreeNode (AstObjectDefinition Samples.undocumentedObject) [])
       (Visitor.mkState (quint32_mod - 1) 0 ∅ 1 [] false Examples.repository))
  = Some 0.
Proof. vm_compute. reflexivity. Qed.

(** ** The nodes the visits create *)

Section CreatedNodes.
Import Visitor.
Variable ext : Collaborators.
Variable src : Source.

Lemma getNode_inv (h : nat) (s s1 : State) (n : Node) :
  getNode h s = Some (n, s1) -> s1 = s /\ nodes (db s) !! h = Some n.
Proof.
  unfold getNode. destruct (nodes (db s) !! h) as [n0|]; [|discriminate].
  intros H. inversion H; subst. split; reflexivity.
Qed.

Lemma onNode_inv (h : nat) (f : Node -> Node) (s s1 : State) (u : unit) :
  onNode h f s = Some (u, s1) ->
  exists n, nodes (db s) !! h = Some n /\ s1 = replaceNode h (f n) s.
Proof.
  intros H. unfold onNode in H. apply bind_inv in H as (n & s0 & Hn & H).
  apply getNode_inv in Hn as [-> Hn]. exists n. split; [exact Hn|].
  inversion H; subst. reflexivity.
Qed.

Lemma newNode_spec (n : Node) (s : State) :
  newNode n s = Some (List.length (nodes (db s)), Frame.withNewNode n s).
Proof. reflexivity. Qed.

Lemma lookup_new (n : Node) (s : State) :
  nodes (db (Frame.withNewNode n s)) !! List.length (nodes (db s)) = Some n.
Proof. simpl. apply list_lookup_middle. reflexivity. Qed.

Lemma insert_last (l : list Node) (n n' : Node) :
  <[List.length l := n']> (l ++ [n])%list = (l ++ [n'])%list.
Proof. induction l as [|a l IH]; simpl; [reflexivity|]. f_equal. exact IH. Qed.

Lemma replace_new (n n' : Node) (s : State) :
  replaceNode (List.length (nodes (db s))) n' (Frame.withNewNode n s)
  = Frame.withNewNode n' s.
Proof. unfold replaceNode, Frame.withNewNode. simpl. rewrite insert_last. reflexivity. Qed.

Lemma onNode_new (f : Node -> Node) (n : Node) (s : State) :
  onNode (List.length (nodes (db s))) f (Frame.withNewNode n s)
  = Some (tt, Frame.withNewNode (f n) s).
Proof. rewrite (onNode_spec _ f n _ (lookup_new n s)), replace_new. reflexivity. Qed.

(** The binder on a node and no comment. *)
Lemma applyDocumentation_undocumented (location_ : SourceLocation) (h : nat) (s : State)
    (node : Node) (loc : SourceLocation) :
  Locator.precedingComment (m_document src) (comments src) (m_usedComments s)
    (m_lastEndOffset s) (begin_ location_) = Some loc ->
  isValid loc = false ->
  nodes (db s) !! h = Some node ->
  applyDocumentation ext src location_ (Some h) s
  = Some (h, replaceNode h (setLocation (setLineNo (int_of_quint32 (startLine location_))
                                                   (Location_new (m_filePath src))) node) s).
Proof.
  intros Hloc Hinvalid Hh.
  unfold applyDocumentation, bind at 1, precedingComment.
  rewrite Hloc, Hinvalid. simpl.
  unfold bind, get, ret. rewrite (onNode_spec h _ node s Hh). reflexivity.
Qed.

(** The binder on a new node and no comment. *)
Lemma applyDocumentation_new (location_ : SourceLocation) (s : State)
    (node : Node) (loc : SourceLocation) :
  Locator.precedingComment (m_document src) (comments src) (m_usedComments s)
    (m_lastEndOffset s) (begin_ location_) = Some loc ->
  isValid loc = false ->
  applyDocumentation ext src location_ (Some (List.length (nodes (db s))))
    (Frame.withNewNode node s)
  = Some (List.length (nodes (db s)),
          Frame.withNewNode (setLocation (setLineNo (int_of_quint32 (startLine location_))
                                                    (Location_new (m_filePath src))) node) s).
Proof.
  intros Hloc Hinvalid.
  rewrite (applyDocumentation_undocumented location_ _ _ node loc);
    [rewrite replace_new; reflexivity|exact Hloc|exact Hinvalid|apply lookup_new].
Qed.

(** The binder on no node and no comment. *)
Lemma applyDocumentation_component (location_ : SourceLocation) (s : State)
    (loc : SourceLocation) :
  Locator.precedingComment (m_document src) (comments src) (m_usedComments s)
    (m_lastEndOffset s) (begin_ location_) = Some loc ->
  isValid loc = false ->
  applyDocumentation ext src location_ None s
  = Some (List.length (nodes (db s)),
          Frame.withNewNode
            (setLocation (setLineNo (int_of_quint32 (startLine location_))
                                    (Location_new (m_filePath src)))
               (new_QmlTypeNode (m_current s) (m_name src))) s).
Proof.
  intros Hloc Hinvalid. unfold applyDocumentation, bind, precedingComment, get.
  rewrite Hloc, Hinvalid. cbn [negb]. cbv iota.
  rewrite newNode_spec, onNode_new. reflexivity.
Qed.


(** The visit of a signal at the public level of a type. *)
Lemma visit_signal_public (member : UiPublicMember) (s : State) (cur : Node) :
  m_nestingLevel s <= 1 ->
  um_type member = Signal ->
  nodes (db s) !! m_current s = Some cur ->
  isQmlType cur = true ->
  visit_UiPublicMember ext src member s
  = bind (applyDocumentation ext src (um_firstSourceLocation member)
            (Some (List.length (nodes (db s)))))
         (fun _ => ret true)
         (Frame.withNewNode (setParameters (signalParameters (um_parameters member))
                               (new_FunctionNode QmlSignal (m_current s) (um_name member))) s).
Proof.
  intros Hlevel Hsignal Hcur Htype. unfold visit_UiPublicMember, bind, get.
  destruct (Z.ltb_spec 1 (m_nestingLevel s)); [lia|]. rewrite Hsignal.
  rewrite (getNode_spec _ cur s Hcur), Htype.
  rewrite newNode_spec, onNode_new.
  destruct (applyDocumentation _ _ _ _ _) as [[h s1]|]; reflexivity.
Qed.

(** What the binder leaves of a node that was new when it was called. *)
Lemma bound_new_node (location_ : SourceLocation) (node : Node) (s s' : State) (h : nat) :
  applyDocumentation ext src location_ (Some (List.length (nodes (db s))))
    (Frame.withNewNode node s) = Some (h, s') ->
  exists node', nodes (db s') !! List.length (nodes (db s)) = Some node'
                /\ Frame.sameIdentity node node'.
Proof.
  intros H. apply binds_applyDocumentation in H as [K _].
  exact (K _ node (lookup_new node s)).
Qed.
End CreatedNodes.


(** X15. A signal at the public level of a type becomes a signal of the
    type, documented or not: where the visit returns the repository has,
    under the handle that was free, a function node that is a signal,
    named after the member, whose parent is the current scope. Without a
    comment before the member this node is the only change, and its
    parameters are those of the declaration that have both a type and a
    name, in order: a parameter without a type or without a name is
    dropped. *)
Theorem signal_becomes_a_function_node
    (ext : Collaborators) (src : Source) (member : UiPublicMember)
    (s s' : Visitor.State) (cur : Node) (descend : bool) :
  Visitor.m_nestingLevel s <= 1 ->
  um_type member = Signal ->
  nodes (Visitor.db s) !! Visitor.m_current s = Some cur ->
  isQmlType cur = true ->
  Visitor.visit ext src (AstPublicMember member) s = Some (descend, s') ->
  (exists signal,
     nodes (Visitor.db s') !! List.length (nodes (Visitor.db s)) = Some signal
     /\ Frame.sameIdentity (new_FunctionNode QmlSignal (Visitor.m_current s) (um_name member))
          signal)
  /\ forall loc,
       Locator.precedingComment (m_document src) (comments src) (Visitor.m_usedComments s)
         (Visitor.m_lastEndOffset s) (begin_ (um_firstSourceLocation member)) = Some loc ->
       isValid loc = false ->
       s' = Frame.withNewNode (Frame.undocumentedSignal src (Visitor.m_current s) member) s.
Proof.
  intros Hlevel Hsignal Hcur Htype H. simpl in H.
  rewrite (visit_signal_public ext src member s cur Hlevel Hsignal Hcur Htype) in H.
  split.
  - apply bind_inv in H as (h & s1 & Hbind & Hret). inversion Hret; subst descend s1.
    destruct (bound_new_node ext src _ _ _ _ _ Hbind) as (signal & Hm & I).
    exists signal. split; [exact Hm|]. exact I.
  - intros loc Hloc Hinvalid. unfold Visitor.bind in H.
    rewrite (applyDocumentation_new ext src _ s _ loc Hloc Hinvalid) in H.
    inversion H; subst. reflexivity.
Qed.

Section Component.
Import Visitor.
Variable ext : Collaborators.
Variable src : Source.

(** What the visit of the root object makes of the node the binder
    gave it. *)
Lemma component_attributes (type : string) (imports : list ImportRec) (c : Node) :
  let component :=
    setImportList imports
      (setTitle (m_name src) (if negb (docIsEmpty c) then setQmlBaseName type c else c)) in
  isQmlType component = true ->
  Frame.titleOf component = m_name src
  /\ Frame.importsOf component = imports
  /\ (docIsEmpty component = false -> Frame.baseOf component = type).
Proof.
  intros component. subst component. unfold docIsEmpty.
  destruct c as [[nm pa lo dd st si de] [|t| |]]; simpl;
    try (destruct dd as [d|]; simpl; [destruct (isEmpty (doc_source d))|];
         simpl; intros; discriminate).
  destruct dd as [d|]; simpl; [destruct (isEmpty (doc_source d)) eqn:E|]; simpl;
    intros _; repeat split; try rewrite E; intros; congruence.
Qed.

Lemma append_assoc (a b c : string) : ((a ++ b) ++ c = a ++ (b ++ c))%string.
Proof.
  induction a as [|x a IH]; [reflexivity|].
  change (String x ((a ++ b) ++ c) = String x (a ++ (b ++ c)))%string. f_equal. exact IH.
Qed.

Lemma concat_first (a b : string) (rest : list string) :
  String.concat "." ((a ++ b)%string :: rest) = (a ++ String.concat "." (b :: rest))%string.
Proof. destruct rest as [|x rest]; cbn [String.concat]; [reflexivity|]. apply append_assoc. Qed.

(** The loop of [getFullyQualifiedId] joins the names by dots. *)
Lemma getFullyQualifiedId_concat (id : list string) :
  getFullyQualifiedId id = String.concat "." id.
Proof.
  destruct id as [|n next]; [reflexivity|]. simpl getFullyQualifiedId.
  revert n. induction next as [|m rest IH]; intros n; [reflexivity|].
  simpl appendSegments. rewrite IH, concat_first, concat_first. reflexivity.
Qed.

Lemma visit_root_object (definition : UiObjectDefinition) (s s' : State) (cur : Node)
    (descend : bool) :
  nodes (db s) !! m_current s = Some cur ->
  isNamespace cur = true ->
  visit_UiObjectDefinition ext src definition s = Some (descend, s') ->
  exists c,
    descend = true
    /\ m_importList s' = []
    /\ m_nestingLevel s' = wrap32 (m_nestingLevel s + 1)
    /\ nodes (db s') !! m_current s'
       = Some (setImportList (m_importList s)
                 (setTitle (m_name src)
                    (if negb (docIsEmpty c)
                     then setQmlBaseName (getFullyQualifiedId (od_qualifiedTypeNameId definition)) c
                     else c))).
Proof.
  intros Hcur Hns H. unfold visit_UiObjectDefinition in H.
  apply bind_inv in H as (s0 & s0' & Hget & H). inversion Hget; subst s0 s0'; clear Hget.
  apply bind_inv in H as ([] & s1 & Hset & H). inversion Hset; subst s1; clear Hset.
  apply bind_inv in H as (cur' & s1 & Hn & H). apply getNode_inv in Hn as [-> Hn].
  simpl in Hn. rewrite Hcur in Hn. inversion Hn; subst cur'; clear Hn. rewrite Hns in H.
  apply bind_inv in H as ([] & s2 & H & Hret). inversion Hret; subst descend s2; clear Hret.
  apply bind_inv in H as (component & sa & Hbind & H).
  apply binds_applyDocumentation in Hbind as (_ & Hlevel & _ & _ & Himports & _).
  cbn [m_nestingLevel m_importList] in Hlevel, Himports.
  apply bind_inv in H as (c & sa' & Hc & H). apply getNode_inv in Hc as [-> Hc].
  exists c.
  apply bind_inv in H as ([] & sb & Hbase & H).
  assert (Hb : nodes (db sb) !! component
               = Some (if negb (docIsEmpty c)
                       then setQmlBaseName
                              (getFullyQualifiedId (od_qualifiedTypeNameId definition)) c
                       else c)
               /\ m_importList sb = m_importList sa
               /\ m_nestingLevel sb = m_nestingLevel sa).
  { destruct (negb (docIsEmpty c)).
    - apply onNode_inv in Hbase as (c0 & Hc0 & ->). rewrite Hc in Hc0.
      inversion Hc0; subst c0. split; [|split; reflexivity].
      apply (lookup_replaceNode_eq _ _ c). exact Hc.
    - inversion Hbase; subst sb. split; [exact Hc|split; reflexivity]. }
  destruct Hb as (Hb & Hbi & Hbl).
  apply bind_inv in H as ([] & sc & Htitle & H).
  apply onNode_inv in Htitle as (c1 & Hc1 & ->). rewrite Hb in Hc1.
  inversion Hc1; subst c1; clear Hc1.
  apply bind_inv in H as (s3 & s3' & Hget & H). inversion Hget; subst s3 s3'; clear Hget.
  apply bind_inv in H as ([] & sd & Himp & H).
  apply onNode_inv in Himp as (c2 & Hc2 & ->).
  rewrite (lookup_replaceNode_eq _ _ _ _ Hb) in Hc2. inversion Hc2; subst c2; clear Hc2.
  apply bind_inv in H as ([] & se & Hclear & H). inversion Hclear; subst se; clear Hclear.
  inversion H; subst s'; clear H.
  cbn [m_importList m_nestingLevel m_current db nodes replaceNode].
  split; [reflexivity|]. split; [reflexivity|]. split; [congruence|].
  rewrite Hbi, Himports.
  apply list_lookup_insert_eq. rewrite length_insert. eapply lookup_lt_Some. exact Hb.
Qed.
End Component.

(** X16. The root object becomes the component: when the current scope
    is the root namespace, the visit of an object definition, where it
    returns, leaves the visitor one level deeper (the 32-bit counter of
    the level incremented, with its wrap-around), inside a node that
    exists, with no pending import; the children are visited. If this
    node is a QML type, its title is the name of the file and its
    imports are the imports that were pending, in order; and if it is
    documented, its base type is the names of the qualified type of the
    object definition joined by dots, whatever the commands of the
    comment have set. *)
Theorem root_object_becomes_the_component
    (ext : Collaborators) (src : Source) (definition : UiObjectDefinition)
    (s s' : Visitor.State) (cur : Node) (descend : bool) :
  nodes (Visitor.db s) !! Visitor.m_current s = Some cur ->
  isNamespace cur = true ->
  Visitor.visit ext src (AstObjectDefinition definition) s = Some (descend, s') ->
  descend = true
  /\ Visitor.m_importList s' = []
  /\ Visitor.m_nestingLevel s' = wrap32 (Visitor.m_nestingLevel s + 1)
  /\ exists component,
       nodes (Visitor.db s') !! Visitor.m_current s' = Some component
       /\ (isQmlType component = true ->
           Frame.titleOf component = m_name src
           /\ Frame.importsOf component = Visitor.m_importList s
           /\ (Visitor.docIsEmpty component = false ->
               Frame.baseOf component
               = String.concat "." (od_qualifiedTypeNameId definition))).
Proof.
  intros Hcur Hns H. simpl in H.
  destruct (visit_root_object ext src definition s s' cur descend Hcur Hns H)
    as (c & Hd & Hi & Hl & Hc).
  split; [exact Hd|]. split; [exact Hi|]. split; [exact Hl|].
  eexists. split; [exact Hc|]. rewrite <- getFullyQualifiedId_concat.
  apply component_attributes.
Qed.

(** X17. An undocumented component has no base type: when the current
    scope is the root namespace and no comment precedes the object
    definition, the visit creates one node and changes no other: a QML
    type named after the file, under the root namespace, at the start
    line of the object, with the name of the file as its title and the
    pending imports as its imports, without documentation and with an
    empty base type: the type the object definition names is not
    recorded. The visitor is then inside this node, one level deeper
    (the 32-bit counter of the level incremented, with its wrap-around),
    with no pending import. *)
Theorem undocumented_component_has_no_base_type
    (ext : Collaborators) (src : Source) (definition : UiObjectDefinition)
    (s : Visitor.State) (cur : Node) (loc : SourceLocation) :
  nodes (Visitor.db s) !! Visitor.m_current s = Some cur ->
  isNamespace cur = true ->
  Locator.precedingComment (m_document src) (comments src) (Visitor.m_usedComments s)
    (Visitor.m_lastEndOffset s) (begin_ (od_firstSourceLocation definition)) = Some loc ->
  isValid loc = false ->
  Visitor.visit ext src (AstObjectDefinition definition) s
  = Some (true,
          Frame.enteredComponent
            (Frame.undocumentedComponent src (Visitor.m_current s)
               (int_of_quint32 (startLine (od_firstSourceLocation definition)))
               (Visitor.m_importList s)) s).
Proof.
  intros Hcur Hns Hloc Hinvalid. simpl.
  unfold Visitor.visit_UiObjectDefinition, Visitor.bind, Visitor.get,
    Visitor.set_m_nestingLevel, Visitor.set_m_importList, Visitor.set_m_current.
  set (s1 := Visitor.mkState _ _ _ _ _ _ _).
  rewrite (getNode_spec (Visitor.m_current s) cur s1 Hcur), Hns.
  rewrite (applyDocumentation_component ext src _ s1 loc Hloc Hinvalid).
  rewrite (getNode_spec _ _ _ (lookup_new _ s1)).
  change (negb (Visitor.docIsEmpty _)) with false. unfold Visitor.ret. cbv beta iota.
  rewrite onNode_new. rewrite onNode_new. reflexivity.
Qed.

(** ** The lookup of a property *)

Section PropertyLookup.
Import Visitor.
Variable ext : Collaborators.
Variable src : Source.

Lemma findIndex_stable {A} (test : A -> bool) (l l' : list A) :
  (forall i x, l !! i = Some x -> exists x', l' !! i = Some x' /\ test x' = test x) ->
  forall k h, findIndex test l k = Some h -> findIndex test l' k = Some h.
Proof.
  revert l'. induction l as [|a l IH]; intros l' Hkept k h H; [discriminate|].
  destruct (Hkept 0%nat a eq_refl) as (a' & Ha' & Ht).
  destruct l' as [|b l']; [discriminate|]. inversion Ha'; subst b; clear Ha'.
  simpl in H |- *. rewrite Ht. destruct (test a); [exact H|].
  apply IH; [|exact H]. intros i x Hx. exact (Hkept (S i) x Hx).
Qed.

Lemma findIndex_exists {A} (test : A -> bool) (l : list A) (i : nat) (x : A) :
  l !! i = Some x -> test x = true ->
  forall k, exists h, findIndex test l k = Some h /\ (h <= k + i)%nat.
Proof.
  revert i. induction l as [|a l IH]; intros i Hx Ht k; [discriminate|].
  simpl. destruct (test a) eqn:E; [exists k; split; [reflexivity|lia]|].
  destruct i as [|i]; [inversion Hx; subst; congruence|].
  destruct (IH i Hx Ht (S k)) as (h & Hh & Hle). exists h. split; [exact Hh|lia].
Qed.

(** The test of the lookup sees the identity of a node only. *)
Lemma sameIdentity_test (p : nat) (n : string) (c c' : Node) :
  Frame.sameIdentity c c' ->
  bool_decide (parent (common c') = Some p) && isQmlProperty c'
    && String.eqb (name (common c')) n
  = bool_decide (parent (common c) = Some p) && isQmlProperty c
    && String.eqb (name (common c)) n.
Proof.
  intros (Hn & Hp & Hk). rewrite Hn, Hp. f_equal. f_equal.
  unfold Frame.sameKind in Hk. unfold isQmlProperty.
  destruct (variant c), (variant c'); try reflexivity; contradiction.
Qed.

Lemma hasQmlProperty_stable (p : nat) (n : string) (h : nat) (s s' : State) :
  Frame.keepsNodes s s' ->
  hasQmlProperty p n s = Some (Some h, s) ->
  hasQmlProperty p n s' = Some (Some h, s').
Proof.
  intros K H. unfold hasQmlProperty, bind, get, ret in H |- *.
  inversion H as [Hfound]. rewrite Hfound. f_equal. f_equal.
  apply (findIndex_stable _ (nodes (db s))); [|exact Hfound].
  intros i x Hx. destruct (K i x Hx) as (x' & Hx' & I).
  exists x'. split; [exact Hx'|apply sameIdentity_test; exact I].
Qed.
End PropertyLookup.

(** X18. The handle of a property is stable: once the lookup of a
    property by name on a scope has found a node, it finds the same node
    after any walk of the tree, whatever the visits have created and
    documented in between. *)
Theorem property_lookup_is_stable
    (ext : Collaborators) (src : Source) (events : list Event) (s s' : Visitor.State)
    (scope : nat) (name_ : string) (h : nat) :
  Visitor.hasQmlProperty scope name_ s = Some (Some h, s) ->
  Visitor.walk ext src events s = Some (tt, s') ->
  Visitor.hasQmlProperty scope name_ s' = Some (Some h, s').
Proof.
  intros Hfound Hwalk. apply (hasQmlProperty_stable scope name_ h s s'); [|exact Hfound].
  exact (proj1 (walks_walk ext src events s tt s' Hwalk)).
Qed.

Section PropertyMember.
Import Visitor.
Variable ext : Collaborators.
Variable src : Source.

Local Ltac keeps_nodes :=
  repeat first
    [ apply preserves_ret; exact binds_refl
    | apply binds_get | apply binds_getNode | apply binds_newNode
    | apply binds_applyDocumentation
    | apply binds_onNode; solve [intros [? []]; repeat split]
    | apply preserves_bind; [exact binds_trans| |intros ?]
    | match goal with
      | |- preserves _ (match ?x with _ => _ end) => destruct x
      | |- preserves _ (if ?x then _ else _) => destruct x
      end ].

(** What the visit of a property does with the node it found or
    made. *)
Lemma property_edits (member : UiPublicMember) (qmlPropNode : nat) :
  preserves Frame.binds
    (bind (onNode qmlPropNode (markReadOnly (um_isReadonly member))) (fun _ =>
     bind (if um_isDefaultMember member then onNode qmlPropNode markDefault else ret tt)
       (fun _ =>
     bind (if isValid (um_requiredToken member) then onNode qmlPropNode setRequired
           else ret tt) (fun _ =>
     bind (onNode qmlPropNode (setIsList (String.eqb (um_typeModifier member) "list")))
       (fun _ =>
     bind (applyDocumentation ext src (um_firstSourceLocation member) (Some qmlPropNode))
       (fun _ => ret tt)))))).
Proof. keeps_nodes. Qed.

Lemma visit_property_public (member : UiPublicMember) (s s' : State) (cur : Node)
    (descend : bool) :
  m_nestingLevel s <= 1 ->
  um_type member = Property ->
  nodes (db s) !! m_current s = Some cur ->
  isQmlType cur = true ->
  visit_UiPublicMember ext src member s = Some (descend, s') ->
  exists h,
    hasQmlProperty (m_current s) (um_name member) s' = Some (Some h, s')
    /\ (h <= List.length (nodes (db s)))%nat
    /\ forall h0,
         hasQmlProperty (m_current s) (um_name member) s = Some (Some h0, s) -> h = h0.
Proof.
  intros Hlevel Hprop Hcur Htype H.
  assert (K : Frame.keepsNodes s s').
  { exact (proj1 (walks_visit ext src (AstPublicMember member) s descend s' H)). }
  unfold visit_UiPublicMember in H.
  apply bind_inv in H as (s0 & s0' & Hget & H). inversion Hget; subst s0 s0'; clear Hget.
  destruct (Z.ltb_spec 1 (m_nestingLevel s)); [lia|]. rewrite Hprop in H.
  apply bind_inv in H as (cur' & s1 & Hn & H). apply getNode_inv in Hn as [-> Hn].
  rewrite Hcur in Hn. inversion Hn; subst cur'; clear Hn. rewrite Htype in H.
  apply bind_inv in H as ([] & s2 & H & Hret). inversion Hret; subst descend s2; clear Hret.
  apply bind_inv in H as (found & s1 & Hfound & H).
  assert (s1 = s) by (inversion Hfound; reflexivity). subst s1.
  destruct found as [n0|].
  - exists n0. split; [|split].
    + apply (hasQmlProperty_stable _ _ n0 s s' K). exact Hfound.
    + inversion Hfound as [Hf]. clear -Hf.
      assert (G : forall (l : list Node) test k h,
                    findIndex (A := Node) test l k = Some h
                    -> (h < k + List.length l)%nat).
      { induction l as [|a l IH]; intros test k h E; [discriminate|].
        simpl in E |- *. destruct (test a); [inversion E; lia|].
        apply IH in E. lia. }
      apply G in Hf. lia.
    + intros h0 Hh0. rewrite Hfound in Hh0. inversion Hh0. reflexivity.
  - apply bind_inv in H as (p & s2 & Hnew & H). rewrite newNode_spec in Hnew.
    inversion Hnew; subst p s2; clear Hnew.
    apply property_edits in H as [K2 _].
    destruct (K2 _ _ (lookup_new _ s)) as (node' & Hnode' & I).
    destruct (findIndex_exists
                (fun c => bool_decide (parent (common c) = Some (m_current s))
                          && isQmlProperty c
                          && String.eqb (name (common c)) (um_name member))
                (nodes (db s')) _ node' Hnode') with (k := 0%nat) as (h & Hh & Hle).
    { rewrite (sameIdentity_test _ _ _ _ I). simpl.
      rewrite bool_decide_eq_true_2 by reflexivity. rewrite String.eqb_refl. reflexivity. }
    exists h. split; [|split].
    + unfold hasQmlProperty, bind, get, ret. rewrite Hh. reflexivity.
    + lia.
    + intros h0 Hh0. rewrite Hfound in Hh0. discriminate.
Qed.
End PropertyMember.

(** X19. A property declared at the public level of a type is a
    property of the type afterwards: where the visit of the member
    returns, documented or not, the lookup of the name of the member on
    the current scope finds a property node; it is the node the lookup
    found before the visit if it found one (a second declaration of a
    name makes no second node to be found), and else a node no older than
    the one the visit created. *)
Theorem declared_property_is_found_afterwards
    (ext : Collaborators) (src : Source) (member : UiPublicMember)
    (s s' : Visitor.State) (cur : Node) (descend : bool) :
  Visitor.m_nestingLevel s <= 1 ->
  um_type member = Property ->
  nodes (Visitor.db s) !! Visitor.m_current s = Some cur ->
  isQmlType cur = true ->
  Visitor.visit ext src (AstPublicMember member) s = Some (descend, s') ->
  exists h,
    Visitor.hasQmlProperty (Visitor.m_current s) (um_name member) s' = Some (Some h, s')
    /\ (h <= List.length (nodes (Visitor.db s)))%nat
    /\ forall h0,
         Visitor.hasQmlProperty (Visitor.m_current s) (um_name member) s
         = Some (Some h0, s) -> h = h0.
Proof.
  intros Hlevel Hprop Hcur Htype H. simpl in H.
  exact (visit_property_public ext src member s s' cur descend Hlevel Hprop Hcur Htype H).
Qed.

(** ** The imports of a file *)

Section Imports.
Import Visitor.
Variable ext : Collaborators.
Variable src : Source.

Lemma forEach_app {A} (l1 l2 : list A) (body : A -> M unit) (s : State) :
  forEach (l1 ++ l2) body s = bind (forEach l1 body) (fun _ => forEach l2 body) s.
Proof.
  revert s. induction l1 as [|a l1 IH]; intros s; [reflexivity|].
  simpl. unfold bind. destruct (body a s) as [[[] s1]|]; [|reflexivity].
  rewrite IH. reflexivity.
Qed.

(** The walk of the import declarations returns and records each of
    them, in order. *)
Lemma walk_imports (imports : list UiImport) :
  forall s, exists s1,
    walk ext src (Frame.importEvents imports) s = Some (tt, s1)
    /\ db s1 = db s /\ m_current s1 = m_current s
    /\ m_importList s1 = (m_importList s ++ List.map (Frame.importOf src) imports)%list.
Proof.
  induction imports as [|i imports IH]; intros s.
  - exists s. repeat split. simpl. rewrite app_nil_r. reflexivity.
  - destruct (IH (mkState (m_nestingLevel s) (end_ (im_lastSourceLocation i))
                          (m_usedComments s) (m_current s)
                          (m_importList s ++ [Frame.importOf src i])
                          (hasRecursionDepthError s) (db s)))
      as (s1 & Hwalk & Hdb & Hcur & Himp).
    exists s1. split; [|split; [exact Hdb|split; [exact Hcur|]]].
    + exact Hwalk.
    + rewrite Himp. simpl. rewrite <- app_assoc. reflexivity.
Qed.
End Imports.

(** X20. The imports of a file reach its component: from the root
    namespace, the walk of the import declarations of a file followed by
    the visit of its root object, where it returns, leaves no import
    pending, and the node the visitor is then in, if it is a QML type,
    has as its imports those that were pending before followed by one
    record for each declaration, in the order of the file. *)
Theorem imports_reach_the_component
    (ext : Collaborators) (src : Source) (imports : list UiImport)
    (definition : UiObjectDefinition) (s s' : Visitor.State) (cur : Node) :
  nodes (Visitor.db s) !! Visitor.m_current s = Some cur ->
  isNamespace cur = true ->
  Visitor.walk ext src
    (Frame.importEvents imports ++ [Visit (AstObjectDefinition definition)]) s
  = Some (tt, s') ->
  Visitor.m_importList s' = []
  /\ exists component,
       nodes (Visitor.db s') !! Visitor.m_current s' = Some component
       /\ (isQmlType component = true ->
           Frame.importsOf component
           = (Visitor.m_importList s ++ List.map (Frame.importOf src) imports)%list).
Proof.
  intros Hcur Hns H. unfold Visitor.walk in H. rewrite forEach_app in H.
  apply bind_inv in H as ([] & s1 & Himports & H).
  destruct (walk_imports ext src imports s) as (s1' & Hwalk & Hdb & Hc & Himp).
  unfold Visitor.walk in Hwalk. rewrite Hwalk in Himports.
  inversion Himports; subst s1'; clear Himports Hwalk.
  simpl in H. apply bind_inv in H as ([] & s2 & H & Hret).
  inversion Hret; subst s2; clear Hret.
  apply bind_inv in H as (descend & s2 & H & Hret).
  inversion Hret; subst s2; clear Hret.
  rewrite <- Hdb, <- Hc in Hcur.
  destruct (visit_root_object ext src definition s1 s' cur descend Hcur Hns H)
    as (c & _ & Hi & _ & Hnode).
  split; [exact Hi|]. eexists. split; [exact Hnode|].
  intros Htype. rewrite <- Himp.
  exact (proj1 (proj2 (component_attributes src _ _ c Htype))).
Qed.

(** ** The further properties on the inputs of the examples *)

Lemma declaration_round_trip_witness :
  exists s',
    SignatureParser.parse (needSpace Examples.collaborators) Samples.declaration Examples.foo
      "int Ns::f(int a, b)" (Location_new "Item.qml")
    = Some (true, s')
    /\ parametersOf (SignatureParser.func_ s')
       = [mkParameter "int" "a" ""; mkParameter "" "b" ""].
Proof.
  destruct (declaration_round_trip (needSpace Examples.collaborators) (Some "int") ["Ns"] "f"
              [("int", "a"); ("", "b")] Examples.foo "int Ns::f(int a, b)"
              (Location_new "Item.qml") eq_refl ltac:(discriminate)
              ltac:(repeat constructor; discriminate) eq_refl)
    as (s' & Hparse & _ & _ & _ & Hp & _).
  exists s'. split; [exact Hparse|exact Hp].
Defined.

Lemma empty_parameter_list_keeps_the_parameters_witness :
  exists s',
    SignatureParser.parse (needSpace Examples.collaborators)
      (Signature.declarationTokens [] "foo" []) Examples.foo "foo()" (Location_new "Item.qml")
    = Some (true, s')
    /\ parametersOf (SignatureParser.func_ s') = [mkParameter "" "x" ""].
Proof.
  destruct (empty_parameter_list_keeps_the_parameters (needSpace Examples.collaborators) []
              "foo" Examples.foo "foo()" (Location_new "Item.qml") eq_refl)
    as (s' & Hparse & _ & Hp).
  exists s'. split; [exact Hparse|exact Hp].
Defined.

Lemma balanced_default_value_is_taken_whole_witness :
  exists s',
    SignatureParser.parse (needSpace Examples.collaborators)
      (Signature.defaultedTokens "f" "int" "a" (Signature.ident "b") Samples.callAsDefault)
      Examples.foo "f(int a = b(c))" (Location_new "Item.qml")
    = Some (true, s')
    /\ parametersOf (SignatureParser.func_ s') = [mkParameter "int" "a" "b(c)"].
Proof.
  destruct (balanced_default_value_is_taken_whole (needSpace Examples.collaborators)
              "f" "int" "a" (Signature.ident "b") Samples.callAsDefault Examples.foo
              "f(int a = b(c))" (Location_new "Item.qml")
              eq_refl ltac:(discriminate) eq_refl eq_refl eq_refl)
    as (s' & Hparse & _ & Hp).
  exists s'. split; [exact Hparse|exact Hp].
Defined.

Lemma default_in_parentheses_loses_the_closing_one_witness :
  exists s',
    SignatureParser.parse (needSpace Examples.collaborators)
      (Signature.defaultedTokens "f" "int" "a" Signature.leftParen
         ([Signature.ident "c"] ++ [Signature.rightParen]))
      Examples.foo "f(int a = (c))" (Location_new "Item.qml")
    = Some (true, s')
    /\ parametersOf (SignatureParser.func_ s') = [mkParameter "int" "a" "(c"].
Proof.
  destruct (default_in_parentheses_loses_the_closing_one (needSpace Examples.collaborators)
              "f" "int" "a" [Signature.ident "c"] Examples.foo "f(int a = (c))"
              (Location_new "Item.qml") eq_refl ltac:(discriminate) eq_refl eq_refl)
    as (s' & Hparse & _ & _ & Hp).
  exists s'. split; [exact Hparse|exact Hp].
Defined.

Lemma unknown_command_is_reported_witness :
  Visitor.applyMetacommand Examples.collaborators 2 (Examples.docOfCommand "brief" [])
    "brief" Examples.visitor
  = Some (tt, Visitor.withWarning
                (mkWarning (Location_new "Item.qml") (IgnoredInQmlFiles "brief"))
                Examples.visitor).
Proof.
  apply (unknown_command_is_reported Examples.collaborators 2
           (Examples.docOfCommand "brief" []) "brief" Examples.visitor).
  left. apply (bool_decide_unpack ("brief" ∉ Frame.recognized)). vm_compute. exact I.
Defined.

Lemma ingroup_registers_every_group_witness :
  Visitor.applyMetacommand Examples.collaborators 1
    (Examples.docOfCommand Command.INGROUP [("controls", ""); ("views", "")])
    Command.INGROUP Examples.visitor
  = Some (tt, Frame.withGroups [("controls", 1%nat); ("views", 1%nat)] Examples.visitor).
Proof.
  apply (ingroup_registers_every_group Examples.collaborators 1
           (Examples.docOfCommand Command.INGROUP [("controls", ""); ("views", "")])
           Examples.visitor).
  vm_compute. discriminate.
Defined.

Lemma last_status_command_wins_witness :
  Visitor.forEach [Command.INTERNAL; Command.PRELIMINARY; Command.OBSOLETE]
    (Visitor.applyMetacommand Examples.collaborators 3 (Examples.docOfCommand "internal" []))
    Examples.visitor
  = Some (tt, Visitor.replaceNode 3 (setStatus Deprecated Examples.foo) Examples.visitor).
Proof.
  apply (last_status_command_wins Examples.collaborators 3
           (Examples.docOfCommand "internal" []) [Command.INTERNAL; Command.PRELIMINARY]
           Command.OBSOLETE Deprecated Examples.foo Examples.visitor).
  - repeat constructor; eexists; reflexivity.
  - reflexivity.
  - reflexivity.
Defined.

Lemma interpreter_edits_one_node_witness :
  exists s',
    Visitor.applyMetacommands Examples.collaborators Examples.source 2
      (Examples.docOfCommand Command.QMLREQUIRED []) Examples.visitor = Some (tt, s')
    /\ Frame.editsNode 2 Examples.visitor s'.
Proof.
  eexists. split; [vm_compute; reflexivity|].
  apply (interpreter_edits_one_node Examples.collaborators Examples.source 2
           (Examples.docOfCommand Command.QMLREQUIRED [])).
  vm_compute; reflexivity.
Defined.

Lemma binder_keeps_the_nodes_and_the_members_witness :
  exists s',
    Visitor.applyDocumentation Examples.collaborators Examples.source
      Examples.objectLocation (Some 2%nat) Examples.visitor = Some (2%nat, s')
    /\ Frame.binds Examples.visitor s'.
Proof.
  eexists. split; [vm_compute; reflexivity|].
  apply (binder_keeps_the_nodes_and_the_members Examples.collaborators Examples.source
           Examples.objectLocation (Some 2%nat) Examples.visitor _ 2).
  vm_compute; reflexivity.
Defined.

Lemma walk_keeps_every_node_witness :
  exists s',
    Visitor.walk Examples.collaborators Examples.source
      [Visit (AstPublicMember Examples.heightMember);
       EndVisit (AstPublicMember Examples.heightMember);
       Visit (AstFunctionDeclaration Examples.barDeclaration);
       EndVisit (AstFunctionDeclaration Examples.barDeclaration)]
      Examples.visitor = Some (tt, s')
    /\ Frame.walks Examples.visitor s'.
Proof.
  eexists. split; [vm_compute; reflexivity|].
  apply (walk_keeps_every_node Examples.collaborators Examples.source
           [Visit (AstPublicMember Examples.heightMember);
            EndVisit (AstPublicMember Examples.heightMember);
            Visit (AstFunctionDeclaration Examples.barDeclaration);
            EndVisit (AstFunctionDeclaration Examples.barDeclaration)]).
  vm_compute; reflexivity.
Defined.

Lemma nested_object_leaves_no_trace_witness :
  exists s',
    Frame.accept Examples.collaborators Examples.source Samples.object Examples.visitor
    = Some (tt, s')
    /\ Frame.untouched Examples.visitor s'.
Proof.
  eexists. split; [vm_compute; reflexivity|].
  apply (nested_object_leaves_no_trace Examples.collaborators Examples.source Samples.object).
  - reflexivity.
  - reflexivity.
  - vm_compute. discriminate.
  - vm_compute. reflexivity.
  - vm_compute; reflexivity.
Defined.

Lemma nesting_level_is_restored_witness :
  exists s',
    Frame.accept Examples.collaborators Examples.source Samples.object Samples.rootVisitor
    = Some (tt, s')
    /\ Frame.sameLevel Samples.rootVisitor s'.
Proof.
  eexists. split; [vm_compute; reflexivity|].
  apply (nesting_level_is_restored Examples.collaborators Examples.source Samples.object).
  - vm_compute. discriminate.
  - vm_compute. reflexivity.
  - vm_compute; reflexivity.
Defined.


Lemma signal_becomes_a_function_node_witness :
  Visitor.visit Examples.collaborators Examples.source (AstPublicMember Samples.clicked)
    Examples.visitor
  = Some (true, Frame.withNewNode (Frame.undocumentedSignal Examples.source 1 Samples.clicked)
                  Examples.visitor)
  /\ parametersOf (Frame.undocumentedSignal Examples.source 1 Samples.clicked)
     = [mkParameter "int" "x" ""].
Proof.
  assert (H : Visitor.visit Examples.collaborators Examples.source
                (AstPublicMember Samples.clicked) Examples.visitor
              = Some (true, Frame.withNewNode
                              (Frame.undocumentedSignal Examples.source 1 Samples.clicked)
                              Examples.visitor)) by (vm_compute; reflexivity).
  split; [exact H|].
  pose proof (proj2 (signal_becomes_a_function_node Examples.collaborators Examples.source
                       Samples.clicked Examples.visitor _ Examples.item true
                       ltac:(vm_compute; discriminate) eq_refl eq_refl eq_refl H)
                    SourceLocation_null ltac:(vm_compute; reflexivity) eq_refl) as E.
  exact (f_equal (fun s => match nodes (Visitor.db s) !! 4%nat with
                           | Some n => parametersOf n
                           | None => []
                           end) E).
Defined.

Lemma root_object_becomes_the_component_witness :
  exists s' component,
    Visitor.visit Examples.collaborators Examples.source
      (AstObjectDefinition Samples.documentedObject) Samples.rootVisitor = Some (true, s')
    /\ nodes (Visitor.db s') !! Visitor.m_current s' = Some component
    /\ Visitor.m_nestingLevel s' = 1
    /\ Frame.baseOf component = "QtQuick.Item".
Proof.
  eexists. eexists. split; [vm_compute; reflexivity|]. split; [vm_compute; reflexivity|].
  destruct (root_object_becomes_the_component Examples.collaborators Examples.source
              Samples.documentedObject Samples.rootVisitor _ Examples.root true
              eq_refl eq_refl ltac:(vm_compute; reflexivity))
    as (_ & _ & Hlevel & component & Hc & Hattrs).
  split; [exact Hlevel|].
  vm_compute in Hc. injection Hc as <-.
  exact (proj2 (proj2 (Hattrs eq_refl)) eq_refl).
Defined.

Lemma undocumented_component_has_no_base_type_witness :
  Visitor.visit Examples.collaborators Examples.source
    (AstObjectDefinition Samples.undocumentedObject) Samples.rootVisitor
  = Some (true,
          Frame.enteredComponent
            (Frame.undocumentedComponent Examples.source 0 1 []) Samples.rootVisitor)
  /\ Frame.baseOf (Frame.undocumentedComponent Examples.source 0 1 []) = ""
  /\ Visitor.m_nestingLevel
       (Frame.enteredComponent (Frame.undocumentedComponent Examples.source 0 1 [])
          Samples.rootVisitor) = 1.
Proof.
  split; [|split; reflexivity].
  apply (undocumented_component_has_no_base_type Examples.collaborators Examples.source
           Samples.undocumentedObject Samples.rootVisitor Examples.root SourceLocation_null).
  - reflexivity.
  - reflexivity.
  - vm_compute; reflexivity.
  - reflexivity.
Defined.

Lemma property_lookup_is_stable_witness :
  exists s',
    Visitor.walk Examples.collaborators Examples.source
      [Visit (AstPublicMember Examples.heightMember);
       EndVisit (AstPublicMember Examples.heightMember)] Examples.visitor = Some (tt, s')
    /\ Visitor.hasQmlProperty 1 "width" s' = Some (Some 2%nat, s').
Proof.
  eexists. split; [vm_compute; reflexivity|].
  apply (property_lookup_is_stable Examples.collaborators Examples.source
           [Visit (AstPublicMember Examples.heightMember);
            EndVisit (AstPublicMember Examples.heightMember)] Examples.visitor).
  - reflexivity.
  - vm_compute; reflexivity.
Defined.

Lemma declared_property_is_found_afterwards_witness :
  exists s' h,
    Visitor.visit Examples.collaborators Examples.source
      (AstPublicMember Examples.heightMember) Examples.visitor = Some (true, s')
    /\ Visitor.hasQmlProperty 1 "height" s' = Some (Some h, s')
    /\ (h <= 4)%nat.
Proof.
  assert (H : exists s',
            Visitor.visit Examples.collaborators Examples.source
              (AstPublicMember Examples.heightMember) Examples.visitor
            = Some (true, s')) by (eexists; vm_compute; reflexivity).
  destruct H as (s' & H). exists s'.
  destruct (declared_property_is_found_afterwards Examples.collaborators Examples.source
              Examples.heightMember Examples.visitor s' Examples.item true
              ltac:(vm_compute; discriminate) eq_refl eq_refl eq_refl H)
    as (h & Hfound & Hle & _).
  exists h. split; [exact H|]. split; [exact Hfound|exact Hle].
Defined.

Lemma imports_reach_the_component_witness :
  exists s' component,
    Visitor.walk Examples.collaborators Examples.source
      (Frame.importEvents [Samples.qtQuick]
       ++ [Visit (AstObjectDefinition Samples.undocumentedObject)]) Samples.rootVisitor
    = Some (tt, s')
    /\ Visitor.m_importList s' = []
    /\ nodes (Visitor.db s') !! Visitor.m_current s' = Some component.
Proof.
  assert (H : exists s',
            Visitor.walk Examples.collaborators Examples.source
              (Frame.importEvents [Samples.qtQuick]
               ++ [Visit (AstObjectDefinition Samples.undocumentedObject)])
              Samples.rootVisitor
            = Some (tt, s')) by (eexists; vm_compute; reflexivity).
  destruct H as (s' & H). exists s'.
  destruct (imports_reach_the_component Examples.collaborators Examples.source
              [Samples.qtQuick] Samples.undocumentedObject Samples.rootVisitor s'
              Examples.root eq_refl eq_refl H)
    as (Hi & component & Hc & _).
  exists component. split; [exact H|]. split; [exact Hi|exact Hc].
Defined.

(** ** The locator and the binder against the wording of their claims *)

(** C1, against its wording: the scan starts at the last comment of the
    file, not at the comment nearest the offset. A used comment after
    the construct ends the scan, and the comment right before the
    construct, which qualifies, is not returned. *)
Lemma used_comment_after_the_offset_ends_the_scan :
  Locator.precedingComment Samples.twoObjects [Samples.firstComment; Samples.secondComment]
    {[ 16 ]} 0 9 = Some SourceLocation_null
  /\ Locator.qualifies Samples.twoObjects 0 9 Samples.firstComment
  /\ ~ Locator.stale {[ 16 ]} 0 Samples.firstComment
  /\ 9 < begin_ Samples.secondComment
  /\ Locator.precedingComment Samples.twoObjects [Samples.firstComment] {[ 16 ]} 0 9
     = Some Samples.firstComment.
Proof.
  split; [vm_compute; reflexivity|]. split; [|split; [|split]].
  - split; [reflexivity|]. split; [reflexivity|].
    split; [vm_compute; reflexivity|]. left. reflexivity.
  - intros [H|H].
    + vm_compute in H. apply H. reflexivity.
    + apply elem_of_singleton in H. discriminate H.
  - reflexivity.
  - vm_compute; reflexivity.
Qed.

(** C6, against its wording: one call of the binder binds one comment
    to two nodes, the property it was called on and the sibling that a
    property topic of the comment names. *)
Lemma one_comment_is_bound_to_two_nodes :
  exists s1 d primary sibling,
    Visitor.applyDocumentation Samples.topicCollaborators Examples.source
      Examples.objectLocation (Some 2%nat) Examples.visitor = Some (2%nat, s1)
    /\ nodes (Visitor.db s1) !! 2%nat = Some primary
    /\ nodes (Visitor.db s1) !! 4%nat = Some sibling
    /\ name (common primary) = "width"
    /\ name (common sibling) = "height"
    /\ doc (common primary) = Some d
    /\ doc (common sibling) = Some d
    /\ doc (common Examples.width) = None
    /\ nodes (Visitor.db Examples.visitor) !! 4%nat = None.
Proof.
  eexists _, _, _, _.
  split; [vm_compute; reflexivity|]. split; [vm_compute; reflexivity|].
  split; [vm_compute; reflexivity|]. split; [vm_compute; reflexivity|].
  split; [vm_compute; reflexivity|]. split; [vm_compute; reflexivity|].
  split; [vm_compute; reflexivity|]. split; reflexivity.
Qed.
